(** * Ingram: the scan orchestrator of [Ingram/core.py]

  A shallow embedding of the class [Core]: [finish], [report], [_scan]
  and [run].  Everything [Core] calls but does not define (the port probe,
  the fingerprint, the PoC objects, the [Data] store, the snapshot pipeline,
  the logger, gevent) is an external call: it is answered by a handler over
  an abstract world, may raise, and is written to a trace of events together
  with its answer. *)

From Stdlib Require Import List String Ascii ZArith Lia Bool DecimalString.
From Stdlib Require Import SpecFloat.
Import ListNotations.
Local Open Scope string_scope.
Local Open Scope list_scope.

(** ** Python values and string helpers *)

Module Py.

(** A port is the text after [':'] in a target, or an entry of
    [config.ports]; the fields of a PoC result are texts or numbers. *)
Inductive value : Type :=
| Str (s : string)
| Int (z : Z).

(** [str(v)] *)
Definition str (v : value) : string :=
  match v with
  | Str s => s
  | Int z => NilZero.string_of_int (Z.to_int z)
  end.

(** [str(n)] for a count *)
Definition str_nat (n : nat) : string :=
  NilZero.string_of_uint (Nat.to_uint n).

(** [s.split(sep)] for a one-character separator: never empty. *)
Fixpoint split (sep : ascii) (s : string) : list string :=
  match s with
  | EmptyString => [EmptyString]
  | String c rest =>
      if Ascii.eqb c sep then EmptyString :: split sep rest
      else match split sep rest with
           | [] => [String c EmptyString]
           | w :: ws => String c w :: ws
           end
  end.

(** Truthiness of a text and of a sequence: empty is false. *)
Definition truthy_str (s : string) : bool :=
  match s with EmptyString => false | _ => true end.

Definition truthy_list {A} (l : list A) : bool :=
  match l with [] => false | _ => true end.

(** [x[:n]] *)
Definition slice_to {A} (n : nat) (l : list A) : list A := firstn n l.

(** A text is held as its UTF-8 encoding: a character is one byte below
    128, or a lead byte followed by one to three continuation bytes (128
    to 191). *)
Definition is_continuation (c : ascii) : bool :=
  let n := nat_of_ascii c in (128 <=? n)%nat && (n <=? 191)%nat.

(** [len(s)]: the number of characters *)
Fixpoint len (s : string) : nat :=
  match s with
  | EmptyString => 0
  | String c rest => if is_continuation c then len rest else S (len rest)
  end.

(** [c.isspace()], read off the encoding of [c].  In one byte: tab to
    carriage return, the four separators 28 to 31, and the blank. *)
Definition is_space (c : ascii) : bool :=
  let n := nat_of_ascii c in
  ((9 <=? n)%nat && (n <=? 13)%nat) || ((28 <=? n)%nat && (n <=? 32)%nat).

(** In two bytes: U+0085 and U+00A0. *)
Definition is_space2 (a b : ascii) : bool :=
  (nat_of_ascii a =? 194)%nat
  && ((nat_of_ascii b =? 133)%nat || (nat_of_ascii b =? 160)%nat).

(** In three bytes: U+1680, U+2000 to U+200A, U+2028, U+2029, U+202F,
    U+205F and U+3000. *)
Definition is_space3 (a b c : ascii) : bool :=
  let x := nat_of_ascii a in
  let y := nat_of_ascii b in
  let z := nat_of_ascii c in
  ((x =? 225)%nat && (y =? 154)%nat && (z =? 128)%nat)
  || ((x =? 226)%nat && (y =? 128)%nat
      && (((128 <=? z)%nat && (z <=? 138)%nat)
          || (z =? 168)%nat || (z =? 169)%nat || (z =? 175)%nat))
  || ((x =? 226)%nat && (y =? 129)%nat && (z =? 159)%nat)
  || ((x =? 227)%nat && (y =? 128)%nat && (z =? 128)%nat).

(** The text without the white space at its front; [backwards] is set
    when the text is read from its end, so that the bytes of a character
    come in the opposite order. *)
Fixpoint strip_front (backwards : bool) (s : string) : string :=
  match s with
  | EmptyString => EmptyString
  | String a rest =>
      if is_space a then strip_front backwards rest
      else
        match rest with
        | EmptyString => s
        | String b rest2 =>
            if (if backwards then is_space2 b a else is_space2 a b)
            then strip_front backwards rest2
            else
              match rest2 with
              | EmptyString => s
              | String c rest3 =>
                  if (if backwards then is_space3 c b a else is_space3 a b c)
                  then strip_front backwards rest3
                  else s
              end
        end
  end.

(** The bytes of a text in the opposite order *)
Fixpoint reverse_onto (s acc : string) : string :=
  match s with
  | EmptyString => acc
  | String c rest => reverse_onto rest (String c acc)
  end.

Definition reverse (s : string) : string := reverse_onto s EmptyString.

Definition lstrip (s : string) : string := strip_front false s.

Definition rstrip (s : string) : string :=
  reverse (strip_front true (reverse s)).

(** [s.strip()] *)
Definition strip (s : string) : string := rstrip (lstrip s).

(** [s * n] *)
Fixpoint repeat_str (s : string) (n : nat) : string :=
  match n with
  | O => EmptyString
  | S k => String.append s (repeat_str s k)
  end.

(** [f"{s:>width}"]: blanks in front, up to [width] characters *)
Definition rjust (width : nat) (s : string) : string :=
  String.append (repeat_str " " (width - len s)) s.

(** [s.startswith('/')] and [s.endswith('/')] *)
Definition starts_with_slash (s : string) : bool :=
  match s with
  | String c _ => Ascii.eqb c "/"
  | EmptyString => false
  end.

Fixpoint ends_with_slash (s : string) : bool :=
  match s with
  | EmptyString => false
  | String c EmptyString => Ascii.eqb c "/"
  | String _ rest => ends_with_slash rest
  end.

(** [os.path.join(a, p)] of [posixpath] *)
Definition path_join (a p : string) : string :=
  if starts_with_slash p then p
  else if (negb (truthy_str a) || ends_with_slash a)%bool then String.append a p
  else String.append a (String "/" p).

(** [x[-1]] of a sequence that is not empty *)
Definition last_item (i : list string) : string := last i EmptyString.

(** The text ["\n"] and the glyph of a bar (U+25A5 in UTF-8). *)
Definition newline : string := String (ascii_of_nat 10) EmptyString.

Definition block_glyph : string :=
  String (ascii_of_nat 226)
    (String (ascii_of_nat 150) (String (ascii_of_nat 165) EmptyString)).

(** Floats are IEEE 754 binary64. *)
Definition prec : Z := 53.
Definition emax : Z := 1024.

(** [float(k)] *)
Definition float_of_Z (k : Z) : spec_float :=
  binary_normalize prec emax k 0 false.

(** [a / b] on [int]: the quotient of the two numbers as floats, which is
    what Python computes for operands below 2^53; [None] stands for
    [ZeroDivisionError]. *)
Definition true_div (a b : nat) : option spec_float :=
  match b with
  | O => None
  | _ => Some (SFdiv prec emax (float_of_Z (Z.of_nat a)) (float_of_Z (Z.of_nat b)))
  end.

(** [x * k] for a float [x] and an [int] [k] *)
Definition mul_int (x : spec_float) (k : Z) : spec_float :=
  SFmul prec emax x (float_of_Z k).

(** [int(x)]: truncation toward zero; [None] stands for the error raised
    on an infinity or a NaN. *)
Definition int_of_float (x : spec_float) : option Z :=
  match x with
  | S754_zero _ => Some 0%Z
  | S754_finite s m e =>
      let v := if (0 <=? e)%Z then (Z.pos m * 2 ^ e)%Z
               else (Z.pos m / 2 ^ (- e))%Z in
      Some (if s then (- v)%Z else v)
  | _ => None
  end.

(** [round(x)]: the nearest integer, a tie going to the even one. *)
Definition round_float (x : spec_float) : option Z :=
  match x with
  | S754_zero _ => Some 0%Z
  | S754_finite s m e =>
      let v := if (0 <=? e)%Z then (Z.pos m * 2 ^ e)%Z
               else
                 let d := (2 ^ (- e))%Z in
                 let q := (Z.pos m / d)%Z in
                 let r := (Z.pos m mod d)%Z in
                 if (2 * r <? d)%Z then q
                 else if (d <? 2 * r)%Z then (q + 1)%Z
                 else if Z.even q then q else (q + 1)%Z in
      Some (if s then (- v)%Z else v)
  | _ => None
  end.

End Py.

(** ** Exceptions and outcomes *)

(** The three classes the handlers of [run] tell apart: the user's
    interrupt, an error (an instance of [Exception], named by its class),
    and a [BaseException] that is neither ([SystemExit], [GeneratorExit]). *)
Inductive exn : Type :=
| KeyboardInterrupt
| Exception (name : string)
| BaseException (name : string).

Inductive outcome (A : Type) : Type :=
| Ok (a : A)
| Raise (e : exn).
Arguments Ok {A} a.
Arguments Raise {A} e.

Definition raised {A} (r : outcome A) : option exn :=
  match r with Ok _ => None | Raise e => Some e end.

(** ** Configuration: the fields of [config] that [Core] reads *)

Record Config : Type := {
  ports : list Py.value;
  timeout : Z;
  disable_snapshot : bool;
  out_dir : string;
  vulnerable : string;
  th_num : Z
}.

(** ** Events: one per external call, with the answer it got *)

Section Events.

Context {poc : Type}.

(** [(poc.exploit, results)] *)
Definition job : Type := (poc * list Py.value)%type.

Inductive event : Type :=
| PortScan (ip : string) (port : Py.value) (tmo : Z) (r : outcome bool)
| Fingerprint (ip : string) (port : Py.value) (r : outcome (option string))
| Verify (p : poc) (ip : string) (port : Py.value)
         (r : outcome (option (list Py.value)))
| LoggerInfo (msg : string)
| LoggerError (e : exn)
| AddFound (r : outcome unit)
| AddVulnerable (record : list Py.value) (r : outcome unit)
| SnapshotPut (j : job) (r : outcome unit)
| AddNotVulnerable (record : list string) (r : outcome unit)
| AddDone (r : outcome unit)
| RecordRunningState (r : outcome unit)
| PathExists (path : string) (r : bool)
| OpenRead (path : string) (r : outcome (list string))
| Print (text : string).

(** The exception an event's call raised, if any. *)
Definition event_raised (ev : event) : option exn :=
  match ev with
  | PortScan _ _ _ r => raised r
  | Fingerprint _ _ r => raised r
  | Verify _ _ _ r => raised r
  | LoggerInfo _ | LoggerError _ => None
  | AddFound r | AddVulnerable _ r
  | SnapshotPut _ r | AddNotVulnerable _ r | AddDone r
  | RecordRunningState r => raised r
  | PathExists _ _ => None
  | OpenRead _ r => raised r
  | Print _ => None
  end.

Definition event_ok (ev : event) : Prop := event_raised ev = None.

Definition is_add_found (ev : event) : bool :=
  match ev with AddFound _ => true | _ => false end.
Definition is_add_done (ev : event) : bool :=
  match ev with AddDone _ => true | _ => false end.
Definition is_record_running_state (ev : event) : bool :=
  match ev with RecordRunningState _ => true | _ => false end.
Definition is_probe_call (ev : event) : bool :=
  match ev with
  | PortScan _ _ _ _ | Fingerprint _ _ _ | Verify _ _ _ _ => true
  | _ => false
  end.
Definition is_read_or_print (ev : event) : bool :=
  match ev with
  | PathExists _ _ | OpenRead _ _ | Print _ => true
  | _ => false
  end.
Definition is_print (ev : event) : bool :=
  match ev with Print _ => true | _ => false end.

Definition count (f : event -> bool) (tr : list event) : nat :=
  List.length (filter f tr).

(** What a trace shows: the PoCs whose [verify] was called, the calls of
    [verify] that answered with a finding, the records given to
    [add_vulnerable], the jobs given to [snapshot_pipeline.put]. *)
Definition verified_pocs (tr : list event) : list poc :=
  flat_map (fun ev => match ev with Verify p _ _ _ => [p] | _ => [] end) tr.

Definition findings (tr : list event) : list job :=
  flat_map (fun ev =>
              match ev with
              | Verify p _ _ (Ok (Some (f :: fields))) => [(p, f :: fields)]
              | _ => []
              end) tr.

Definition vulnerable_records (tr : list event) : list (list Py.value) :=
  flat_map (fun ev => match ev with AddVulnerable r _ => [r] | _ => [] end) tr.

Definition snapshot_jobs (tr : list event) : list job :=
  flat_map (fun ev => match ev with SnapshotPut j _ => [j] | _ => [] end) tr.

Definition not_vulnerable_records (tr : list event) : list (list string) :=
  flat_map (fun ev => match ev with AddNotVulnerable r _ => [r] | _ => [] end)
           tr.

(** The products that the calls of [fingerprint] named. *)
Definition identified_products (tr : list event) : list string :=
  flat_map (fun ev =>
              match ev with
              | Fingerprint _ _ (Ok (Some (String c s))) => [String c s]
              | _ => []
              end) tr.

End Events.

(** ** The monad: world passing, exceptions, and the trace written so far *)

Section Monad.

Context {W poc : Type}.

Definition M (A : Type) : Type := W -> outcome A * W * list (@event poc).

Definition ret {A} (a : A) : M A := fun w => (Ok a, w, []).

Definition raise {A} (e : exn) : M A := fun w => (Raise e, w, []).

(** Sequencing: an exception ends the computation where it is raised; the
    effects made before it stay. *)
Definition bind {A B} (m : M A) (k : A -> M B) : M B :=
  fun w =>
    match m w with
    | (Ok a, w1, tr1) =>
        match k a w1 with
        | (r, w2, tr2) => (r, w2, tr1 ++ tr2)
        end
    | (Raise e, w1, tr1) => (Raise e, w1, tr1)
    end.

(** An external call: the handler answers and moves the world, the call
    and its answer are written to the trace. *)
Definition perform {A} (h : W -> outcome A * W)
           (ev : outcome A -> @event poc) : M A :=
  fun w => match h w with (r, w1) => (r, w1, [ev r]) end.

(** A call that cannot raise. *)
Definition perform_total (h : W -> W) (ev : @event poc) : M unit :=
  fun w => (Ok tt, h w, [ev]).

(** An observation of the world: it answers and changes nothing. *)
Definition observe {A} (h : W -> A) (ev : A -> @event poc) : M A :=
  fun w => (Ok (h w), w, [ev (h w)]).

(** An observation that may fail. *)
Definition observe_outcome {A} (h : W -> outcome A)
           (ev : outcome A -> @event poc) : M A :=
  fun w => (h w, w, [ev (h w)]).

(** [print(text)]: the text is written to the terminal; the terminal is
    taken to accept it, so an error of the output stream is not part of
    this embedding. *)
Definition print (text : string) : M unit :=
  fun w => (Ok tt, w, [Print text]).

(** The outcome of a computation that touches nothing. *)
Definition lift {A} (r : outcome A) : M A := fun w => (r, w, []).

(** [try: body except ...]: [handler e] is the clause that matches [e],
    if one does. *)
Definition try_except {A} (body : M A) (handler : exn -> option (M A)) : M A :=
  fun w =>
    match body w with
    | (Ok a, w1, tr1) => (Ok a, w1, tr1)
    | (Raise e, w1, tr1) =>
        match handler e with
        | Some h => match h w1 with (r, w2, tr2) => (r, w2, tr1 ++ tr2) end
        | None => (Raise e, w1, tr1)
        end
    end.

(** A run is disciplined when it raises exactly the exception of its last
    call, and no call before that raised. *)
Definition disciplined {A} (res : outcome A * W * list (@event poc)) : Prop :=
  match res with
  | (Ok _, _, tr) => Forall event_ok tr
  | (Raise e, _, tr) =>
      exists tr' ev,
        tr = tr' ++ [ev] /\ Forall event_ok tr' /\ event_raised ev = Some e
  end.

(** A computation whose outcome and trace do not depend on the world, and
    that leaves the world as it is. *)
Definition pure_output {A} (m : M A) : Prop :=
  exists r tr, forall w, m w = (r, w, tr).

(** [for x in xs: body(x)] *)
Fixpoint for_each {A} (xs : list A) (body : A -> M unit) : M unit :=
  match xs with
  | [] => ret tt
  | x :: rest => bind (body x) (fun _ => for_each rest body)
  end.

End Monad.

Declare Scope py_scope.
Delimit Scope py_scope with py.
Notation "x <- m ;; k" := (bind m (fun x => k))
  (at level 61, m at next level, right associativity) : py_scope.
Notation "m ;; k" := (bind m (fun _ => k))
  (at level 61, right associativity) : py_scope.

(** ** The collaborators of [Core] *)

Record Collaborators {W poc : Type} : Type := {
  (** [utils.port_scan(ip, port, timeout)] *)
  port_scan : string -> Py.value -> Z -> W -> outcome bool * W;
  (** [utils.fingerprint(ip, port, config)]: a product name or [None] *)
  fingerprint : string -> Py.value -> Config -> W -> outcome (option string) * W;
  (** [poc.verify(ip, port)]: the fields of a finding or [None] *)
  verify : poc -> string -> Py.value -> W -> outcome (option (list Py.value)) * W;
  (** [logger.info], [logger.error]: the logger swallows its own failures *)
  logger_info : string -> W -> W;
  logger_error : exn -> W -> W;
  (** the methods of [Data] and of [SnapshotPipeline] that [_scan] calls *)
  add_found : W -> outcome unit * W;
  add_vulnerable : list Py.value -> W -> outcome unit * W;
  add_not_vulnerable : list string -> W -> outcome unit * W;
  add_done : W -> outcome unit * W;
  record_running_state : W -> outcome unit * W;
  snapshot_put : @job poc -> W -> outcome unit * W;
  (** [os.path.exists] and reading the lines of a file: observations *)
  path_exists : string -> W -> bool;
  open_read : string -> W -> outcome (list string);
  (** [color.red(text, 'bright')], [color.green(text)],
      [color.yellow(text, 'bright')] *)
  color_red : string -> string -> string;
  color_green : string -> string;
  color_yellow : string -> string -> string
}.

(** ** The object [Core] *)

(** A finite run of the generator [data.ip_generator]: the targets it
    yields, until it is exhausted or raises. *)
Inductive feed : Type :=
| FeedEnd
| FeedYield (target : string) (rest : feed)
| FeedRaise (e : exn).

(** The fields of [Data] and of [SnapshotPipeline] that [Core] reads. *)
Record Data : Type := {
  total : Z;
  done : Z;
  found : Z;
  ip_generator : feed
}.

Record SnapshotPipeline : Type := {
  task_count : Z
}.

(** Modelled from the spec: [get_poc_dict] is in the module [pocs], which
    is not part of this file; its registry answers a product that has no
    PoC with the empty list (4.2, step 4: a missing entry is the empty
    list, not an error), so the lookup [self.poc_dict[product]] is a total
    function. *)
Record Core {poc : Type} : Type := {
  config : Config;
  data : Data;
  snapshot_pipeline : SnapshotPipeline;
  poc_dict : string -> list poc
}.

(** [Core.finish] *)
Definition finish {poc} (self : @Core poc) : bool :=
  (done (data self) >=? total (data self))%Z
  && (task_count (snapshot_pipeline self) <=? 0)%Z.

(** ** [Core._scan] *)

Section Scan.

Context {W poc : Type}.
Variable env : @Collaborators W poc.
Variable self : @Core poc.

Local Open Scope py_scope.

Definition call_port_scan (ip : string) (port : Py.value) (tmo : Z)
  : @M W poc bool :=
  perform (port_scan env ip port tmo) (PortScan ip port tmo).

Definition call_fingerprint (ip : string) (port : Py.value)
  : @M W poc (option string) :=
  perform (fingerprint env ip port (config self)) (Fingerprint ip port).

Definition call_verify (p : poc) (ip : string) (port : Py.value)
  : @M W poc (option (list Py.value)) :=
  perform (verify env p ip port) (Verify p ip port).

Definition info (msg : string) : @M W poc unit :=
  perform_total (logger_info env msg) (LoggerInfo msg).

Definition call_add_found : @M W poc unit :=
  perform (add_found env) AddFound.

Definition call_add_vulnerable (record : list Py.value) : @M W poc unit :=
  perform (add_vulnerable env record) (AddVulnerable record).

Definition call_snapshot_put (j : @job poc) : @M W poc unit :=
  perform (snapshot_put env j) (SnapshotPut j).

Definition call_add_not_vulnerable (record : list string) : @M W poc unit :=
  perform (add_not_vulnerable env record) (AddNotVulnerable record).

Definition call_add_done : @M W poc unit :=
  perform (add_done env) AddDone.

Definition call_record_running_state : @M W poc unit :=
  perform (record_running_state env) RecordRunningState.

(** [if results := poc.verify(ip, port)]: a non-empty sequence of fields. *)
Definition successful (r : option (list Py.value)) : option (list Py.value) :=
  match r with
  | Some results => if Py.truthy_list results then Some results else None
  | None => None
  end.

(** [if product := fingerprint(ip, port, config)]: a non-empty name. *)
Definition identified (r : option string) : option string :=
  match r with
  | Some product => if Py.truthy_str product then Some product else None
  | None => None
  end.

(** What the body of [if results := poc.verify(ip, port):] does. *)
Definition record_finding (p : poc) (results : list Py.value)
  : @M W poc unit :=
  call_add_found ;;
  call_add_vulnerable (Py.slice_to 6 results) ;;
  if negb (disable_snapshot (config self))
  then call_snapshot_put (p, results)
  else ret tt.

(** [for poc in self.poc_dict[product]: ...], carrying [verified]. *)
Fixpoint verify_loop (ip : string) (port : Py.value) (pocs : list poc)
         (verified : bool) : @M W poc bool :=
  match pocs with
  | [] => ret verified
  | p :: rest =>
      r <- call_verify p ip port ;;
      match successful r with
      | Some results =>
          record_finding p results ;;
          verify_loop ip port rest true
      | None => verify_loop ip port rest verified
      end
  end.

(** What is done for a port that answered the fingerprint with [product]. *)
Definition check_product (ip : string) (port : Py.value) (product : string)
  : @M W poc unit :=
  info (ip ++ ":" ++ Py.str port ++ " is " ++ product)%string ;;
  verified <- verify_loop ip port (poc_dict self product) false ;;
  if negb verified
  then call_add_not_vulnerable [ip; Py.str port; product]
  else ret tt.

(** The body of [for port in ports:]. *)
Definition scan_port (ip : string) (port : Py.value) : @M W poc unit :=
  is_open <- call_port_scan ip port (timeout (config self)) ;;
  if is_open : bool then
    info (ip ++ " port " ++ Py.str port ++ " is open")%string ;;
    r <- call_fingerprint ip port ;;
    match identified r with
    | Some product => check_product ip port product
    | None => ret tt
    end
  else ret tt.

(** [items = target.split(':')], [ip = items[0]] and
    [ports = [items[1], ] if len(items) > 1 else self.config.ports]. *)
Definition target_ip (target : string) : string :=
  nth 0 (Py.split ":" target) EmptyString.

Definition target_ports (target : string) : list Py.value :=
  match Py.split ":" target with
  | _ :: port :: _ => [Py.Str port]
  | _ => ports (config self)
  end.

Definition _scan (target : string) : @M W poc unit :=
  for_each (target_ports target) (scan_port (target_ip target)) ;;
  call_add_done ;;
  call_record_running_state.

(** *** What is read off a trace of [_scan] *)

(** Some call of [verify] answered with a finding. *)
Definition has_finding (tr : list (@event poc)) : bool :=
  match findings tr with [] => false | _ => true end.

(** The records, the count of [add_found] and the jobs agree with the
    findings. *)
Definition tallies (tr : list (@event poc)) : Prop :=
  vulnerable_records tr = map (fun j => firstn 6 (snd j)) (findings tr)
  /\ count is_add_found tr = List.length (findings tr)
  /\ snapshot_jobs tr =
       if disable_snapshot (config self) then [] else findings tr.

(** Every record and every job in the trace comes from a finding in it. *)
Definition justified (tr : list (@event poc)) : Prop :=
  (forall record a,
      In (AddVulnerable record a) tr ->
      exists p ip port results,
        In (Verify p ip port (Ok (Some results))) tr
        /\ results <> [] /\ record = firstn 6 results)
  /\ (forall p results a,
         In (SnapshotPut (p, results) a) tr ->
         disable_snapshot (config self) = false
         /\ results <> []
         /\ (exists ip port, In (Verify p ip port (Ok (Some results))) tr)
         /\ In (AddVulnerable (firstn 6 results) (Ok tt)) tr).

(** Both, the second for a trace in which no call raised. *)
Definition sound (tr : list (@event poc)) : Prop :=
  justified tr /\ (Forall event_ok tr -> tallies tr).

(** An event that is no finding, no record and no job. *)
Definition neutral (ev : @event poc) : Prop :=
  match ev with
  | Verify _ _ _ (Ok (Some (_ :: _))) => False
  | AddFound _ | AddVulnerable _ _ | SnapshotPut _ _ => False
  | _ => True
  end.

(** Neither [add_done] nor [record_running_state]. *)
Definition not_done_event (ev : @event poc) : Prop :=
  is_add_done ev = false /\ is_record_running_state ev = false.

End Scan.

(** ** [Core.report] *)

(** [defaultdict(lambda: 0)] and [defaultdict(lambda: defaultdict(...))]:
    keys stay in the order of their first use. *)
Definition counter : Type := list (string * nat).
Definition table : Type := list (string * counter).

(** [d[vul] += 1] *)
Fixpoint incr (vul : string) (d : counter) : counter :=
  match d with
  | [] => [(vul, 1)]
  | (k, n) :: rest =>
      if String.eqb k vul then (k, S n) :: rest else (k, n) :: incr vul rest
  end.

(** [results[dev][vul] += 1] *)
Fixpoint tally (dev vul : string) (t : table) : table :=
  match t with
  | [] => [(dev, incr vul [])]
  | (k, d) :: rest =>
      if String.eqb k dev then (k, incr vul d) :: rest
      else (k, d) :: tally dev vul rest
  end.

(** Every count of a table is at least one. *)
Definition counted (t : table) : Prop :=
  Forall (fun dev => Forall (fun vul => 1 <= snd vul) (snd dev)) t.

(** [[l.strip().split(',') for l in f if l.strip()]] *)
Definition parse_items (lines : list string) : list (list string) :=
  map (fun l => Py.split "," (Py.strip l))
      (filter (fun l => Py.truthy_str (Py.strip l)) lines).

(** [i[2].split('-')[0]] *)
Definition device_of (field : string) : string :=
  nth 0 (Py.split "-" field) EmptyString.

(** The loop [for i in items:]; [i[2]] raises on a line of fewer than
    three fields. *)
Fixpoint group_items (items : list (list string)) (results : table)
  : outcome table :=
  match items with
  | [] => Ok results
  | i :: rest =>
      match nth_error i 2 with
      | None => Raise (Exception "IndexError")
      | Some field =>
          group_items rest (tally (device_of field) (Py.last_item i) results)
      end
  end.

(** [[val for vul in results.values() for val in vul.values()]] *)
Definition all_counts (results : table) : list nat :=
  flat_map (fun dev => map snd (snd dev)) results.

(** [max(l)] and [sum(l)]; [max] is only taken of a list that is not empty. *)
Definition list_max (l : list nat) : nat := fold_right Nat.max 0 l.
Definition list_sum (l : list nat) : nat := fold_right Nat.add 0 l.

(** [int(vul_count / results_max * 25)] *)
Definition block_num (vul_count results_max : nat) : outcome Z :=
  match Py.true_div vul_count results_max with
  | None => Raise (Exception "ZeroDivisionError")
  | Some q =>
      match Py.int_of_float (Py.mul_int q 25) with
      | Some n => Ok n
      | None => Raise (Exception "OverflowError")
      end
  end.

(** The line of one vulnerability, before it is coloured. *)
Definition vul_line (vul_name : string) (blocks : Z) (vul_count : nat)
  : string :=
  (Py.rjust 18 vul_name ++ " | " ++ Py.repeat_str Py.block_glyph (Z.to_nat blocks)
   ++ " " ++ Py.str_nat vul_count)%string.

Section Report.

Context {W poc : Type}.
Variable env : @Collaborators W poc.
Variable self : @Core poc.

Local Open Scope py_scope.

Definition print_vul (results_max : nat) (v : string * nat)
  : @M W poc unit :=
  n <- lift (block_num (snd v) results_max) ;;
  print (color_green env (vul_line (fst v) n (snd v))).

Definition print_dev (results_max : nat) (d : string * counter)
  : @M W poc unit :=
  let vuls := snd d in
  let dev_sum := list_sum (map snd vuls) in
  print (color_red env (fst d ++ " " ++ Py.str_nat dev_sum)%string "bright") ;;
  for_each vuls (print_vul results_max).

Definition results_file : string :=
  Py.path_join (out_dir (config self)) (vulnerable (config self)).

(** What [report] does with the lines it has read. *)
Definition render (lines : list string) : @M W poc unit :=
  let items := parse_items lines in
  if Py.truthy_list items then
    results <- lift (group_items items []) ;;
    let results_sum := List.length items in
    let results_max := list_max (all_counts results) in
    print Py.newline ;;
    print (Py.repeat_str "-" 19 ++ " REPORT " ++ Py.repeat_str "-" 19)%string ;;
    for_each results (print_dev results_max) ;;
    print (color_yellow env
             (Py.rjust 46 ("sum: " ++ Py.str_nat results_sum)%string)
             "bright") ;;
    print (Py.repeat_str "-" 46) ;;
    print Py.newline
  else ret tt.

Definition report : @M W poc unit :=
  present <- observe (path_exists env results_file) (PathExists results_file) ;;
  if present : bool then
    lines <- observe_outcome (open_read env results_file)
                             (OpenRead results_file) ;;
    render lines
  else ret tt.

End Report.

(** ** [Core.run] *)

(** The two greenlets that [run] spawns outside the pool, named by what
    they run: [status_bar] and [snapshot_pipeline.process]. *)
Inductive greenlet : Type :=
| StatusBar
| SnapshotProcess.

(** gevent and the clock.  A call into gevent lets the greenlets run, so it
    may change the world, write any events and raise (an interrupt is
    delivered to the main greenlet inside such a call). *)
Record Gevent {W poc : Type} : Type := {
  (** [timer.get_time_formatted()] and [str(config)] *)
  get_time_formatted : W -> string;
  config_str : Config -> string;
  (** [gevent.spawn(f, self)] *)
  gevent_spawn : greenlet -> @M W poc unit;
  (** [bool(g)]: the greenlet has started and is not dead *)
  greenlet_bool : greenlet -> W -> bool;
  (** [g.join(timeout=t)] *)
  greenlet_join : greenlet -> Z -> @M W poc unit;
  (** [geventPool(th_num)], [scan_pool.spawn(self._scan, ip)] and
      [scan_pool.join()] *)
  pool_new : Z -> @M W poc unit;
  pool_spawn : (string -> @M W poc unit) -> string -> @M W poc unit;
  pool_join : @M W poc unit
}.

Section Run.

Context {W poc : Type}.
Variable env : @Collaborators W poc.
Variable gev : @Gevent W poc.
Variable self : @Core poc.

Local Open Scope py_scope.

(** [for ip in self.data.ip_generator: scan_pool.spawn(self._scan, ip)] *)
Fixpoint dispatch (f : feed) : @M W poc unit :=
  match f with
  | FeedEnd => ret tt
  | FeedYield ip rest => pool_spawn gev (_scan env self) ip ;; dispatch rest
  | FeedRaise e => raise e
  end.

(** [if snapshot_pipeline_greenlet: snapshot_pipeline_greenlet.join(...)]:
    the variable is [None] when snapshots are disabled, and a greenlet is
    true while it is alive. *)
Definition join_snapshot_pipeline (snapshots : bool) : @M W poc unit :=
  fun w =>
    if snapshots && greenlet_bool gev SnapshotProcess w
    then greenlet_join gev SnapshotProcess 10 w
    else ret tt w.

(** The [try] block up to, and without, [self.report()]. *)
Definition scanning : @M W poc unit :=
  gevent_spawn gev StatusBar ;;
  let snapshots := negb (disable_snapshot (config self)) in
  (if snapshots then gevent_spawn gev SnapshotProcess else ret tt) ;;
  pool_new gev (th_num (config self)) ;;
  dispatch (ip_generator (data self)) ;;
  pool_join gev ;;
  join_snapshot_pipeline snapshots ;;
  greenlet_join gev StatusBar 2.

(** The [except] clauses, in their order. *)
Definition run_handler (e : exn) : option (@M W poc unit) :=
  match e with
  | KeyboardInterrupt => Some (ret tt)
  | Exception _ => Some (perform_total (logger_error env e) (LoggerError e))
  | BaseException _ => None
  end.

(** The [try] statement of [run]. *)
Definition run_loop : @M W poc unit :=
  try_except (scanning ;; report env self) run_handler.

Definition run : @M W poc unit :=
  fun w =>
    (info env ("running at " ++ get_time_formatted gev w)%string ;;
     info env ("config is " ++ config_str gev (config self))%string ;;
     run_loop) w.

End Run.

(** ** Reading the rounding of [SpecFloat] *)

(** Where the remainder [R] of a division by [D] lies: at zero, below, at or
    above the half of [D]. *)
Definition loc_of (R D : Z) : location :=
  if (R =? 0)%Z then loc_Exact else loc_Inexact (2 * R ?= D)%Z.

(** The quotient of [N] by [D] and the place of its remainder, as the
    record that [SpecFloat] shifts. *)
Definition rec_of (N D : Z) : shr_record :=
  shr_record_of_loc (N / D)%Z (loc_of (N mod D)%Z D).

(** What is checked of each quotient [k / 25] by evaluation: its float is
    strictly the nearest, lies inside its binade, and times 25 truncates
    to [k]. *)
Definition check_exact (k : Z) : bool :=
  match SFdiv 53 1024 (Py.float_of_Z k) (Py.float_of_Z 25) with
  | S754_finite false ms es =>
      ((2 ^ 52 <? Z.pos ms) && (Z.pos ms <? 2 ^ 53 - 1) && (es <=? 0)
       && (Z.abs (50 * Z.pos ms - 2 * k * 2 ^ (- es)) <? 25))%Z
      && match Py.int_of_float
                 (SFmul 53 1024 (S754_finite false ms es) (Py.float_of_Z 25))
         with
         | Some r => (r =? k)%Z
         | None => false
         end
  | _ => false
  end.

(** The length of a bar in the words of the specification:
    [round(count / max * 25)]. *)
Definition rounded_bar (vul_count results_max : nat) : option Z :=
  match Py.true_div vul_count results_max with
  | None => None
  | Some q => Py.round_float (Py.mul_int q 25)
  end.

(** ** A small world for concrete runs *)

Module Demo.

Inductive poc : Type :=
| WeakPassword
| AuthBypass
| Disclosure.

(** The world is the results file: its lines, if it exists. *)
Definition world : Type := option (list string).

(** What the network answers, by port and by PoC. *)
Record answers : Type := {
  probe : Py.value -> outcome bool;
  product : Py.value -> outcome (option string);
  check : poc -> outcome (option (list Py.value))
}.

Definition env (a : answers) : @Collaborators world poc := {|
  port_scan := fun _ port _ w => (probe a port, w);
  fingerprint := fun _ port _ w => (product a port, w);
  verify := fun p _ _ w => (check a p, w);
  logger_info := fun _ w => w;
  logger_error := fun _ w => w;
  add_found := fun w => (Ok tt, w);
  add_vulnerable := fun _ w => (Ok tt, w);
  add_not_vulnerable := fun _ w => (Ok tt, w);
  add_done := fun w => (Ok tt, w);
  record_running_state := fun w => (Ok tt, w);
  snapshot_put := fun _ w => (Ok tt, w);
  path_exists := fun _ w => match w with Some _ => true | None => false end;
  open_read := fun _ w =>
    match w with
    | Some lines => Ok lines
    | None => Raise (Exception "FileNotFoundError")
    end;
  color_red := fun text _ => text;
  color_green := fun text => text;
  color_yellow := fun text _ => text
|}.

Definition is_port (n : Z) (port : Py.value) : bool :=
  String.eqb (Py.str port) (Py.str (Py.Int n)).

(** A result of seven fields. *)
Definition weak_password_result : list Py.value :=
  [Py.Str "10.0.0.1"; Py.Str "80"; Py.Str "camera-x"; Py.Str "admin";
   Py.Str "12345"; Py.Str "weak-password"; Py.Str "extra"].


(** Port 80 is open and is a camera-x with a weak password. *)
Definition camera : answers := {|
  probe := fun port => Ok (is_port 80 port);
  product := fun _ => Ok (Some "camera-x");
  check := fun p =>
    match p with
    | WeakPassword => Ok (Some weak_password_result)
    | _ => Ok None
    end
|}.


(** The same camera, patched. *)
Definition patched_camera : answers := {|
  probe := fun port => Ok (is_port 80 port);
  product := fun _ => Ok (Some "camera-x");
  check := fun _ => Ok None
|}.


(** The camera again, but the probe of port 22 fails. *)
Definition broken_probe : answers := {|
  probe := fun port =>
    if is_port 22 port then Raise (Exception "OSError") else Ok true;
  product := fun _ => Ok (Some "camera-x");
  check := fun p =>
    match p with
    | WeakPassword => Ok (Some weak_password_result)
    | _ => Ok None
    end
|}.

Definition the_config : Config := {|
  ports := [Py.Int 22; Py.Int 80];
  timeout := 3;
  disable_snapshot := false;
  out_dir := "out";
  vulnerable := "results.csv";
  th_num := 4
|}.

Definition core (targets : feed) : @Core poc := {|
  config := the_config;
  data := {| total := 1; done := 0; found := 0; ip_generator := targets |};
  snapshot_pipeline := {| task_count := 0 |};
  poc_dict := fun name =>
    if String.eqb name "camera-x"
    then [WeakPassword; AuthBypass; Disclosure]
    else []
|}.

(** gevent run on one thread: a task given to the pool runs at once, and
    what it raises dies with its greenlet; [interrupted] makes
    [scan_pool.join()] receive the user's interrupt. *)
Definition gevent (interrupted : bool) : @Gevent world poc := {|
  get_time_formatted := fun _ => "2024-01-01 00:00:00";
  config_str := fun _ => "config";
  gevent_spawn := fun _ => ret tt;
  greenlet_bool := fun _ _ => true;
  greenlet_join := fun _ _ => ret tt;
  pool_new := fun _ => ret tt;
  pool_spawn := fun task ip => try_except (task ip) (fun _ => Some (ret tt));
  pool_join := if interrupted then raise KeyboardInterrupt else ret tt
|}.

(** A results file: three findings of one kind, two of another. *)
Definition results_log : world :=
  Some ["10.0.0.1,80,cam-x,admin,12345,weak-password" ++ Py.newline;
        "10.0.0.2,80,cam-x,admin,12345,weak-password" ++ Py.newline;
        "10.0.0.3,80,dvr-y,,,disclosure" ++ Py.newline;
        Py.newline;
        "10.0.0.4,80,cam-x,admin,12345,weak-password" ++ Py.newline;
        "10.0.0.5,80,dvr-y,,,disclosure" ++ Py.newline]%string.

End Demo.

(** ** More that is read off a table and off a trace *)

(** [c in s] *)
Fixpoint has_char (c : ascii) (s : string) : bool :=
  match s with
  | EmptyString => false
  | String c' rest => Ascii.eqb c' c || has_char c rest
  end.

(** Reading a counter and a table without inserting: the count of a key
    that is absent is zero. *)
Fixpoint get_count (k : string) (d : counter) : nat :=
  match d with
  | [] => 0
  | (k', n) :: rest => if String.eqb k' k then n else get_count k rest
  end.

Fixpoint get_group (k : string) (t : table) : counter :=
  match t with
  | [] => []
  | (k', d) :: rest => if String.eqb k' k then d else get_group k rest
  end.

Definition table_count (dev vul : string) (t : table) : nat :=
  get_count vul (get_group dev t).

(** The device of a parsed line, [i[2].split('-')[0]], and whether the
    line counts for a device and a vulnerability. *)
Definition item_device (i : list string) : string :=
  device_of (nth 2 i EmptyString).

Definition item_matches (dev vul : string) (i : list string) : bool :=
  String.eqb (item_device i) dev && String.eqb (Py.last_item i) vul.

(** The keys of a dictionary after one more use of the key [k]. *)
Definition add_key (ks : list string) (k : string) : list string :=
  if in_dec string_dec k ks then ks else ks ++ [k].

(** The elements of a list in the order of their first occurrence. *)
Definition first_occurrences (l : list string) : list string :=
  rev (nodup string_dec (rev l)).

(** The lines of the results file as [report] sees them: a blank line is
    skipped; a line that is not blank is short when it has fewer than the
    three fields that [report] reads. *)
Definition blank (l : string) : bool := negb (Py.truthy_str (Py.strip l)).

Definition short (l : string) : bool :=
  negb (blank l) && (List.length (Py.split "," (Py.strip l)) <? 3)%nat.

(** The lines that a report of a table consists of, with the bars as
    integer quotients: a line for a vulnerability, the lines of a device,
    and the whole report between its rules. *)
Definition vul_output (green : string -> string) (results_max : nat)
           (v : string * nat) : string :=
  green (vul_line (fst v) (Z.of_nat (25 * snd v / results_max)) (snd v)).

Definition dev_output (red : string -> string -> string)
           (green : string -> string) (results_max : nat)
           (d : string * counter) : list string :=
  red (fst d ++ " " ++ Py.str_nat (list_sum (map snd (snd d))))%string "bright"
  :: map (vul_output green results_max) (snd d).

Definition report_output (red : string -> string -> string)
           (green : string -> string) (yellow : string -> string -> string)
           (results : table) (results_sum : nat) : list string :=
  [Py.newline;
   (Py.repeat_str "-" 19 ++ " REPORT " ++ Py.repeat_str "-" 19)%string]
  ++ flat_map (dev_output red green (list_max (all_counts results))) results
  ++ [yellow (Py.rjust 46 ("sum: " ++ Py.str_nat results_sum)%string) "bright";
      Py.repeat_str "-" 46;
      Py.newline].

(** The probes of a trace: the address, the port and the timeout of each
    call of [port_scan], in the order of the calls. *)
Definition probes {poc} (tr : list (@event poc)) : list (string * Py.value * Z) :=
  flat_map (fun ev =>
              match ev with
              | PortScan ip port tmo _ => [(ip, port, tmo)]
              | _ => []
              end) tr.

(** [l1] is an initial part of [l2]. *)
Definition prefix_of {A} (l1 l2 : list A) : Prop := exists rest, l2 = l1 ++ rest.

(** An event of the loop over the PoCs of a port: a call of [verify] on
    that port with one of the PoCs, or a step of recording a finding. *)
Definition verify_step {poc} (ip : string) (port : Py.value) (pocs : list poc)
           (ev : @event poc) : Prop :=
  match ev with
  | Verify p ip' port' _ => ip' = ip /\ port' = port /\ In p pocs
  | AddFound _ | AddVulnerable _ _ | SnapshotPut _ _ => True
  | _ => False
  end.

(** The PoC [p] was called on the port and answered with no finding. *)
Definition refusal {poc} (ip : string) (port : Py.value) (p : poc)
           (ev : @event poc) : Prop :=
  exists r, ev = Verify p ip port (Ok r) /\ successful r = None.

(** Every call in the trace has its ground in an earlier answer: a
    fingerprint in a probe that found the port open, a [verify] in a
    fingerprint that named a product of which the PoC is registered, a
    negative record in a fingerprint and in the refusal of every PoC of
    its product. *)
Definition grounded {poc} (self : @Core poc) (tr : list (@event poc)) : Prop :=
  (forall ip port r,
      In (Fingerprint ip port r) tr ->
      In (PortScan ip port (timeout (config self)) (Ok true)) tr)
  /\ (forall p ip port r,
         In (Verify p ip port r) tr ->
         exists product,
           product <> EmptyString
           /\ In (Fingerprint ip port (Ok (Some product))) tr
           /\ In p (poc_dict self product))
  /\ (forall record c,
         In (AddNotVulnerable record c) tr ->
         exists ip port product,
           record = [ip; Py.str port; product]
           /\ In (Fingerprint ip port (Ok (Some product))) tr
           /\ forall p, In p (poc_dict self product) ->
                        exists r, successful r = None
                                  /\ In (Verify p ip port (Ok r)) tr).

(** The counters of a trace are in step: no more jobs than records, no
    more records than calls of [add_found], no more of these than
    findings. *)
Definition in_step {poc} (tr : list (@event poc)) : Prop :=
  List.length (snapshot_jobs tr) <= List.length (vulnerable_records tr)
  /\ List.length (vulnerable_records tr) <= count is_add_found tr
  /\ count is_add_found tr <= List.length (findings tr).

(** What is done for one port ends where the next probe, or [add_done],
    begins. *)
Definition starts_next {poc} (ev : @event poc) : bool :=
  match ev with
  | PortScan _ _ _ _ | AddDone _ => true
  | _ => false
  end.

(** The events up to the next probe or to [add_done]: read after a
    fingerprint, what is done for the port of that fingerprint. *)
Fixpoint port_block {poc} (tr : list (@event poc)) : list (@event poc) :=
  match tr with
  | [] => []
  | ev :: rest => if starts_next ev then [] else ev :: port_block rest
  end.

(** The fingerprints of a trace that named a product, each with the
    events of its port that follow it. *)
Fixpoint fingerprinted {poc} (tr : list (@event poc))
  : list (string * Py.value * string * list (@event poc)) :=
  match tr with
  | [] => []
  | Fingerprint ip port (Ok (Some (String c s))) :: rest =>
      (ip, port, String c s, port_block rest) :: fingerprinted rest
  | _ :: rest => fingerprinted rest
  end.

(** No call of [verify] that raised. *)
Definition verify_answered {poc} (ev : @event poc) : Prop :=
  match ev with
  | Verify _ _ _ (Raise _) => False
  | _ => True
  end.

(** What holds of the events [block] that follow the fingerprint of
    [product] on a port: the PoCs are called in the order of the registry,
    all of them if no call raised, with one [add_found] and one record
    for each finding; and the negative record is written exactly when no
    call of [verify] answered with a finding and none raised. *)
Definition port_law {poc} (self : @Core poc)
           (x : string * Py.value * string * list (@event poc)) : Prop :=
  let '(ip, port, product, block) := x in
  prefix_of (verified_pocs block) (poc_dict self product)
  /\ (Forall event_ok block ->
      verified_pocs block = poc_dict self product
      /\ count is_add_found block = List.length (findings block)
      /\ vulnerable_records block
         = map (fun j => firstn 6 (snd j)) (findings block))
  /\ (not_vulnerable_records block = [[ip; Py.str port; product]]
      <-> findings block = [] /\ Forall verify_answered block)
  /\ (not_vulnerable_records block = []
      \/ not_vulnerable_records block = [[ip; Py.str port; product]]).

(** ** More cases for concrete runs *)

Module Cases.

(** A device on port 80 that the fingerprint names, and for which no PoC
    is registered. *)
Definition unknown_device : Demo.answers := {|
  Demo.probe := fun port => Ok (Demo.is_port 80 port);
  Demo.product := fun _ => Ok (Some "router-z");
  Demo.check := fun _ => Ok None
|}.

(** The lines of a results file. *)
Definition lines_of (w : Demo.world) : list string :=
  match w with Some lines => lines | None => [] end.

(** A results file whose second line was cut after the port, and one of
    blank lines, the last of them a no-break space (U+00A0). *)
Definition short_log : Demo.world :=
  Some ["10.0.0.1,80,cam-x,admin,12345,weak-password" ++ Py.newline;
        "10.0.0.9,80" ++ Py.newline]%string.

Definition blank_log : Demo.world :=
  Some [Py.newline;
        ("  " ++ Py.newline)%string;
        String (ascii_of_nat 194) (String (ascii_of_nat 160) Py.newline)].

(** The parsed lines of the results file of [Demo]. *)
Definition items : list (list string) :=
  parse_items (lines_of Demo.results_log).

Definition results : table :=
  [("cam", [("weak-password", 3)]); ("dvr", [("disclosure", 2)])].


Definition refused_then_fails : Demo.answers := {|
  Demo.probe := fun port => Ok (Demo.is_port 80 port);
  Demo.product := fun _ => Ok (Some "camera-x");
  Demo.check := fun p =>
    match p with
    | Demo.WeakPassword => Ok None
    | Demo.AuthBypass => Raise (Exception "TimeoutError")
    | Demo.Disclosure => Ok None
    end
|}.

(** The events of the scan of port 80 of a camera. *)
Definition scan_of (a : Demo.answers) : list (@event Demo.poc) :=
  snd (_scan (Demo.env a) (Demo.core FeedEnd) "10.0.0.1:80" None).

End Cases.

(** * Properties *)

(** ** Runs of the monad *)

Section MonadFacts.

Context {W poc : Type}.

Lemma bind_inv {A B} (m : @M W poc A) (k : A -> @M W poc B) w r w' tr :
  bind m k w = (r, w', tr) ->
  (exists e, m w = (Raise e, w', tr) /\ r = Raise e) \/
  (exists a w1 tr1 tr2,
      m w = (Ok a, w1, tr1) /\ k a w1 = (r, w', tr2) /\ tr = tr1 ++ tr2).
Proof.
  unfold bind. destruct (m w) as [[[a | e] w1] tr1].
  - destruct (k a w1) as [[r2 w2] tr2] eqn:Hk. intros H. inversion H; subst.
    right. exists a, w1, tr1, tr2. auto.
  - intros H. inversion H; subst. left. exists e. auto.
Qed.

Lemma perform_inv {A} (h : W -> outcome A * W) (ev : outcome A -> @event poc)
      w r w' tr :
  perform h ev w = (r, w', tr) -> h w = (r, w') /\ tr = [ev r].
Proof.
  unfold perform. destruct (h w) as [r1 w1]. intros H. inversion H; auto.
Qed.

Lemma disciplined_ret {A} (a : A) (w : W) : disciplined (@ret W poc A a w).
Proof. constructor. Qed.

Lemma disciplined_perform {A} (h : W -> outcome A * W) ev w :
  (forall r, event_raised (ev r) = raised r) ->
  disciplined (@perform W poc A h ev w).
Proof.
  intros Hev. unfold perform. destruct (h w) as [[a | e] w1]; simpl.
  - repeat constructor. red. now rewrite Hev.
  - exists [], (ev (Raise e)). rewrite Hev. repeat split; auto.
Qed.

Lemma disciplined_perform_total (h : W -> W) ev w :
  event_raised ev = None ->
  disciplined (@perform_total W poc h ev w).
Proof. intros Hev. simpl. repeat constructor. exact Hev. Qed.

Lemma disciplined_bind {A B} (m : @M W poc A) (k : A -> @M W poc B) w :
  disciplined (m w) ->
  (forall a w1, disciplined (k a w1)) ->
  disciplined (bind m k w).
Proof.
  intros Hm Hk. unfold bind.
  destruct (m w) as [[[a | e] w1] tr1]; simpl in *; auto.
  specialize (Hk a w1). destruct (k a w1) as [[[b | e] w2] tr2]; simpl in *.
  - apply Forall_app; auto.
  - destruct Hk as (tr' & ev & -> & Hall & Hev).
    exists (tr1 ++ tr'), ev. rewrite app_assoc. repeat split; auto.
    apply Forall_app; auto.
Qed.

Lemma disciplined_for_each {A} (xs : list A) (body : A -> @M W poc unit) :
  (forall x w, disciplined (body x w)) ->
  forall w, disciplined (for_each xs body w).
Proof.
  intros Hbody. induction xs as [| x rest IH]; intros w; simpl.
  - constructor.
  - apply disciplined_bind; auto.
Qed.

(** In a disciplined run, no call raised if and only if the run returned. *)
Lemma disciplined_clean {A} (r : outcome A) (w : W) (tr : list (@event poc)) :
  disciplined (r, w, tr) -> Forall event_ok tr -> exists a, r = Ok a.
Proof.
  destruct r as [a | e]; simpl; [now exists a |].
  intros (tr' & ev & -> & _ & Hev) Hall.
  apply Forall_app in Hall as [_ Hlast]. inversion Hlast as [| ? ? Hok _]; subst.
  red in Hok. congruence.
Qed.

(** Properties of traces that hold of the empty trace and are kept by
    concatenation pass through sequencing and loops. *)
Section TraceInvariant.

Variable Q : list (@event poc) -> Prop.
Hypothesis Q_nil : Q [].
Hypothesis Q_app : forall tr1 tr2, Q tr1 -> Q tr2 -> Q (tr1 ++ tr2).

Lemma invariant_bind {A B} (m : @M W poc A) (k : A -> @M W poc B) w :
  Q (snd (m w)) -> (forall a w1, Q (snd (k a w1))) -> Q (snd (bind m k w)).
Proof.
  intros Hm Hk. unfold bind.
  destruct (m w) as [[[a | e] w1] tr1]; simpl in *; auto.
  specialize (Hk a w1). destruct (k a w1) as [[r2 w2] tr2]; simpl in *. auto.
Qed.

Lemma invariant_for_each {A} (xs : list A) (body : A -> @M W poc unit) :
  (forall x w, Q (snd (body x w))) ->
  forall w, Q (snd (for_each xs body w)).
Proof.
  intros Hbody. induction xs as [| x rest IH]; intros w; simpl; auto.
  apply invariant_bind; auto.
Qed.

End TraceInvariant.

End MonadFacts.

(** ** Runs of [_scan] *)

Ltac invert_run :=
  repeat match goal with
    | H : bind _ _ _ = (_, _, _) |- _ =>
        apply bind_inv in H;
        destruct H as [(? & H & ->) | (? & ? & ? & ? & ? & H & ->)]
    | H : perform _ _ _ = (_, _, _) |- _ =>
        apply perform_inv in H; destruct H as [? ->]
    | H : perform_total _ _ _ = (_, _, _) |- _ =>
        unfold perform_total in H; inversion H; subst; clear H
    | H : ret _ _ = (_, _, _) |- _ =>
        unfold ret in H; inversion H; subst; clear H
    | u : unit |- _ => destruct u
    end.

Ltac clean_contra :=
  match goal with
  | H : Forall event_ok _ |- _ =>
      solve [ repeat (apply Forall_app in H; destruct H as [? H]);
              repeat match goal with
                | H' : Forall event_ok (_ :: _) |- _ =>
                    let Hok := fresh in
                    inversion H' as [| ? ? Hok ?]; subst; clear H';
                    try (red in Hok; simpl in Hok; discriminate Hok)
                end ]
  end.

Section ScanFacts.

Context {W poc : Type}.
Variable env : @Collaborators W poc.
Variable self : @Core poc.

Lemma record_finding_disciplined p results w :
  disciplined (record_finding env self p results w).
Proof.
  unfold record_finding.
  apply disciplined_bind; [now apply disciplined_perform | intros _ w1].
  apply disciplined_bind; [now apply disciplined_perform | intros _ w2].
  destruct (negb _); [now apply disciplined_perform | constructor].
Qed.

Lemma verify_loop_disciplined ip port pocs verified w :
  disciplined (verify_loop env self ip port pocs verified w).
Proof.
  revert verified w. induction pocs as [| p rest IH]; intros verified w; simpl.
  - constructor.
  - apply disciplined_bind; [now apply disciplined_perform | intros r w1].
    destruct (successful r) as [results |]; auto.
    apply disciplined_bind; auto using record_finding_disciplined.
Qed.

Lemma check_product_disciplined ip port product w :
  disciplined (check_product env self ip port product w).
Proof.
  unfold check_product.
  apply disciplined_bind; [now apply disciplined_perform_total | intros _ w1].
  apply disciplined_bind; [apply verify_loop_disciplined | intros v w2].
  destruct (negb v); [now apply disciplined_perform | constructor].
Qed.

Lemma scan_port_disciplined ip port w :
  disciplined (scan_port env self ip port w).
Proof.
  unfold scan_port.
  apply disciplined_bind; [now apply disciplined_perform | intros is_open w1].
  destruct is_open; [| constructor].
  apply disciplined_bind; [now apply disciplined_perform_total | intros _ w2].
  apply disciplined_bind; [now apply disciplined_perform | intros r w3].
  destruct (identified r); [apply check_product_disciplined | constructor].
Qed.

Lemma scan_disciplined target w :
  disciplined (_scan env self target w).
Proof.
  unfold _scan.
  apply disciplined_bind;
    [apply disciplined_for_each, scan_port_disciplined | intros _ w1].
  apply disciplined_bind; [now apply disciplined_perform | intros _ w2].
  now apply disciplined_perform.
Qed.

(** *** The shapes of the trace of one finding *)

Lemma record_finding_shape p results w r w' tr :
  record_finding env self p results w = (r, w', tr) ->
  (exists e, r = Raise e /\ tr = [AddFound (Raise e)]) \/
  (exists e, r = Raise e /\
             tr = [AddFound (Ok tt); AddVulnerable (firstn 6 results) (Raise e)]) \/
  (r = Ok tt /\ disable_snapshot (config self) = true /\
   tr = [AddFound (Ok tt); AddVulnerable (firstn 6 results) (Ok tt)]) \/
  (exists c, r = c /\ disable_snapshot (config self) = false /\
             tr = [AddFound (Ok tt); AddVulnerable (firstn 6 results) (Ok tt);
                   SnapshotPut (p, results) c]).
Proof.
  unfold record_finding, call_add_found, call_add_vulnerable,
    call_snapshot_put, Py.slice_to.
  intros H. invert_run.
  - left. eauto.
  - right; left. eauto.
  - destruct (disable_snapshot (config self)) eqn:Hd; simpl in H; invert_run.
    + right; right; left. auto.
    + right; right; right. eexists. eauto.
Qed.

(** *** Properties of every run: no early [add_done], justified records *)

Lemma perform_trace {A} (h : W -> outcome A * W) (ev : outcome A -> @event poc) w :
  snd (perform h ev w) = [ev (fst (h w))].
Proof. unfold perform. now destruct (h w). Qed.

Lemma record_finding_not_done p results w :
  Forall not_done_event (snd (record_finding env self p results w)).
Proof.
  destruct (record_finding env self p results w) as [[r w'] tr] eqn:H.
  apply record_finding_shape in H.
  destruct H as [(e & _ & ->) | [(e & _ & ->) | [(_ & _ & ->) | (c & _ & _ & ->)]]];
    repeat constructor.
Qed.

Lemma verify_loop_not_done ip port pocs verified w :
  Forall not_done_event (snd (verify_loop env self ip port pocs verified w)).
Proof.
  revert verified w. induction pocs as [| p rest IH]; intros verified w; simpl.
  - constructor.
  - apply invariant_bind; auto.
    + intros; apply Forall_app; auto.
    + unfold call_verify. rewrite perform_trace. repeat constructor.
    + intros r w1. destruct (successful r); auto.
      apply invariant_bind; auto using record_finding_not_done.
      intros; apply Forall_app; auto.
Qed.

Lemma scan_port_not_done ip port w :
  Forall not_done_event (snd (scan_port env self ip port w)).
Proof.
  assert (Happ : forall tr1 tr2 : list (@event poc),
             Forall not_done_event tr1 -> Forall not_done_event tr2 ->
             Forall not_done_event (tr1 ++ tr2))
    by (intros; apply Forall_app; auto).
  unfold scan_port, check_product, call_port_scan, call_fingerprint, info,
    call_add_not_vulnerable.
  apply invariant_bind; auto; [rewrite perform_trace; repeat constructor |].
  intros [|] w1; [| constructor].
  apply invariant_bind; auto; [repeat constructor |]. intros _ w2.
  apply invariant_bind; auto; [rewrite perform_trace; repeat constructor |].
  intros r w3. destruct (identified r) as [product |]; [| constructor].
  apply invariant_bind; auto; [repeat constructor |]. intros _ w4.
  apply invariant_bind; auto using verify_loop_not_done.
  intros [|] w5; simpl; [constructor |].
  rewrite perform_trace. repeat constructor.
Qed.

Lemma scan_ports_not_done ip port_list w :
  Forall not_done_event
         (snd (for_each port_list (scan_port env self ip) w)).
Proof.
  apply invariant_for_each; auto using scan_port_not_done.
  intros; apply Forall_app; auto.
Qed.

Lemma count_app (f : @event poc -> bool) tr1 tr2 :
  count f (tr1 ++ tr2) = count f tr1 + count f tr2.
Proof. unfold count. now rewrite filter_app, length_app. Qed.

Lemma successful_inv r results :
  successful r = Some results ->
  exists f fields, r = Some (f :: fields) /\ results = f :: fields.
Proof.
  destruct r as [[| f fields] |]; simpl; try discriminate.
  intros H; inversion H; eauto.
Qed.

Lemma sound_nil : sound self [].
Proof.
  split; [split; intros; contradiction |].
  intros _. repeat split. simpl. now destruct (disable_snapshot _).
Qed.

Lemma sound_app tr1 tr2 :
  sound self tr1 -> sound self tr2 -> sound self (tr1 ++ tr2).
Proof.
  intros [[Hr1 Hj1] Ht1] [[Hr2 Hj2] Ht2]. split; [split |].
  - intros record a Hin. apply in_app_or in Hin as [Hin | Hin];
      [apply Hr1 in Hin | apply Hr2 in Hin];
      destruct Hin as (p & ip & port & results & Hin & Hne & ->);
      exists p, ip, port, results; repeat split; auto; apply in_or_app; auto.
  - intros p results a Hin. apply in_app_or in Hin as [Hin | Hin];
      [apply Hj1 in Hin | apply Hj2 in Hin];
      destruct Hin as (Hd & Hne & (ip & port & Hv) & Hrec);
      repeat split; auto; try (exists ip, port); apply in_or_app; auto.
  - intros Hall. apply Forall_app in Hall as [Hall1 Hall2].
    destruct (Ht1 Hall1) as (Ha1 & Hb1 & Hc1).
    destruct (Ht2 Hall2) as (Ha2 & Hb2 & Hc2).
    unfold tallies. repeat split.
    + unfold vulnerable_records, findings in *.
      now rewrite !flat_map_app, map_app, Ha1, Ha2.
    + rewrite count_app, Hb1, Hb2. unfold findings.
      now rewrite flat_map_app, length_app.
    + unfold snapshot_jobs, findings in *.
      rewrite !flat_map_app, Hc1, Hc2. now destruct (disable_snapshot _).
Qed.

Lemma sound_single ev : neutral ev -> sound self [ev].
Proof.
  intros Hn. split; [split |].
  - intros record a [Hin | []]. subst. contradiction.
  - intros p results a [Hin | []]. subst. contradiction.
  - intros _. unfold tallies.
    destruct ev as [| | p ip port [[[| f fs] |] | e] | | | | | | | | | | |];
      simpl in Hn; try contradiction; simpl;
      destruct (disable_snapshot _); auto.
Qed.

(** A finding, from the answer of [verify] to the last call it causes. *)
Lemma finding_sound p ip port r0 results w r w' tr :
  successful r0 = Some results ->
  record_finding env self p results w = (r, w', tr) ->
  sound self (Verify p ip port (Ok r0) :: tr).
Proof.
  intros Hs H. apply successful_inv in Hs as (f & fields & -> & ->).
  apply record_finding_shape in H.
  destruct H as [(e & _ & ->) | [(e & _ & ->) | [(_ & Hd & ->) | (c & _ & Hd & ->)]]].
  all: split; [split |].
  all: try (intros record a Hin; simpl in Hin;
            repeat (destruct Hin as [Hin | Hin]; try discriminate Hin);
            try contradiction;
            inversion Hin; subst;
            exists p, ip, port, (f :: fields); simpl; repeat split; auto;
            discriminate).
  all: try (intros q results a Hin; simpl in Hin;
            repeat (destruct Hin as [Hin | Hin]; try discriminate Hin);
            try contradiction;
            inversion Hin; subst; simpl; repeat split; eauto 6;
            discriminate).
  all: intros Hall; try clean_contra.
  all: unfold tallies; simpl; rewrite Hd; auto.
Qed.

Lemma verify_loop_sound ip port pocs verified w :
  sound self (snd (verify_loop env self ip port pocs verified w)).
Proof.
  revert verified w. induction pocs as [| p rest IH]; intros verified w.
  - apply sound_nil.
  - destruct (verify_loop env self ip port (p :: rest) verified w)
      as [[r w'] tr] eqn:H.
    simpl in H. unfold call_verify in H. apply bind_inv in H.
    destruct H as [(e & H & ->) | (r0 & w1 & tr1 & tr2 & H & Hk & ->)];
      apply perform_inv in H as [_ ->]; simpl.
    + now apply sound_single.
    + destruct (successful r0) as [results |] eqn:Hs.
      * apply bind_inv in Hk.
        destruct Hk as [(e & Hk & ->) | ([] & w2 & tr3 & tr4 & Hf & Hk & ->)].
        -- eapply finding_sound; eauto.
        -- change (sound self
                     ((Verify p ip port (Ok r0) :: tr3) ++ tr4)).
           apply sound_app; [eapply finding_sound; eauto |].
           specialize (IH true w2). now rewrite Hk in IH.
      * change (sound self ([Verify p ip port (Ok r0)] ++ tr2)).
        apply sound_app.
        -- apply sound_single. destruct r0 as [[| f fs] |]; simpl; auto.
           discriminate Hs.
        -- specialize (IH verified w1). now rewrite Hk in IH.
Qed.

Lemma scan_port_sound ip port w :
  sound self (snd (scan_port env self ip port w)).
Proof.
  unfold scan_port, check_product, call_port_scan, call_fingerprint, info,
    call_add_not_vulnerable.
  apply invariant_bind; auto using sound_nil, sound_app;
    [rewrite perform_trace; now apply sound_single |].
  intros [|] w1; [| apply sound_nil].
  apply invariant_bind; auto using sound_nil, sound_app;
    [now apply sound_single |]. intros _ w2.
  apply invariant_bind; auto using sound_nil, sound_app;
    [rewrite perform_trace; now apply sound_single |].
  intros r w3. destruct (identified r) as [product |]; [| apply sound_nil].
  apply invariant_bind; auto using sound_nil, sound_app;
    [now apply sound_single |]. intros _ w4.
  apply invariant_bind; auto using sound_nil, sound_app, verify_loop_sound.
  intros [|] w5; simpl; [apply sound_nil |].
  rewrite perform_trace. now apply sound_single.
Qed.

Lemma scan_sound target w :
  sound self (snd (_scan env self target w)).
Proof.
  unfold _scan, call_add_done, call_record_running_state.
  apply invariant_bind; auto using sound_nil, sound_app.
  - apply invariant_for_each; auto using sound_nil, sound_app, scan_port_sound.
  - intros _ w1.
    apply invariant_bind; auto using sound_nil, sound_app;
      [rewrite perform_trace; now apply sound_single |].
    intros _ w2. rewrite perform_trace. now apply sound_single.
Qed.

(** *** Runs in which no call raised *)

Lemma record_finding_clean p results w r w' tr :
  record_finding env self p results w = (r, w', tr) ->
  Forall event_ok tr ->
  r = Ok tt /\ verified_pocs tr = [] /\ findings tr = []
  /\ not_vulnerable_records tr = [] /\ identified_products tr = [].
Proof.
  intros H Hall. apply record_finding_shape in H.
  destruct H as [(e & _ & ->) | [(e & _ & ->) | [(-> & _ & ->) | (c & -> & _ & ->)]]];
    try clean_contra; auto.
  destruct c as [[] | e]; [auto | clean_contra].
Qed.

Lemma identified_inv r product :
  identified r = Some product ->
  exists c s, r = Some (String c s) /\ product = String c s.
Proof.
  destruct r as [[| c s] |]; simpl; try discriminate.
  intros H; inversion H; eauto.
Qed.

Lemma verify_loop_clean ip port pocs verified w r w' tr :
  verify_loop env self ip port pocs verified w = (r, w', tr) ->
  Forall event_ok tr ->
  r = Ok (verified || has_finding tr)
  /\ verified_pocs tr = pocs
  /\ not_vulnerable_records tr = [] /\ identified_products tr = [].
Proof.
  revert verified w r w' tr.
  induction pocs as [| p rest IH]; intros verified w r w' tr H Hall.
  - simpl in H. invert_run. now rewrite orb_false_r.
  - simpl in H. unfold call_verify in H. apply bind_inv in H.
    destruct H as [(e & H & ->) | (r0 & w1 & tr1 & tr2 & H & Hk & ->)];
      apply perform_inv in H as [_ ->]; [clean_contra |].
    apply Forall_app in Hall as [_ Hall].
    destruct (successful r0) as [results |] eqn:Hs.
    + apply successful_inv in Hs as (f & fields & -> & ->).
      apply bind_inv in Hk.
      destruct Hk as [(e & Hk & ->) | ([] & w2 & tr3 & tr4 & Hf & Hk & ->)].
      * apply record_finding_clean in Hk as [Hk _]; [discriminate | auto].
      * apply Forall_app in Hall as [Hall3 Hall4].
        apply record_finding_clean in Hf as (_ & Hv & _ & Hn & Hi); auto.
        apply IH in Hk as (-> & Hv' & Hn' & Hi'); auto.
        unfold verified_pocs, not_vulnerable_records, identified_products,
          has_finding, findings in *.
        simpl. rewrite !flat_map_app, Hv, Hv', Hn, Hn', Hi, Hi'.
        now rewrite orb_true_r.
    + apply IH in Hk as (-> & Hv' & Hn' & Hi'); auto.
      unfold verified_pocs, not_vulnerable_records, identified_products,
        has_finding, findings in *.
      simpl. rewrite Hv', Hn', Hi'.
      destruct r0 as [[| f fs] |]; simpl in *; auto; discriminate.
Qed.

Lemma scan_port_clean ip port w r w' tr :
  scan_port env self ip port w = (r, w', tr) ->
  Forall event_ok tr ->
  r = Ok tt /\
  ((identified_products tr = [] /\ verified_pocs tr = []
    /\ not_vulnerable_records tr = [] /\ findings tr = [])
   \/ exists product,
        identified_products tr = [product]
        /\ verified_pocs tr = poc_dict self product
        /\ not_vulnerable_records tr =
             if has_finding tr then [] else [[ip; Py.str port; product]]).
Proof.
  unfold scan_port, check_product, call_port_scan, call_fingerprint, info,
    call_add_not_vulnerable.
  intros H Hall. apply bind_inv in H.
  destruct H as [(e & H & ->) | (is_open & w1 & tr1 & tr2 & H & Hk & ->)];
    apply perform_inv in H as [_ ->]; [clean_contra |].
  destruct is_open; [| invert_run; split; [| left]; repeat split; reflexivity].
  apply bind_inv in Hk.
  destruct Hk as [(e & Hk & ->) | ([] & w2 & tr3 & tr4 & Hi & Hk & ->)];
    [discriminate Hk |].
  unfold perform_total in Hi. inversion Hi; subst; clear Hi.
  apply bind_inv in Hk.
  destruct Hk as [(e & Hf & ->) | (r0 & w3 & tr5 & tr6 & Hf & Hk & ->)];
    apply perform_inv in Hf as [_ ->]; [clean_contra |].
  destruct (identified r0) as [product |] eqn:Hid.
  - apply identified_inv in Hid as (c & s & -> & ->).
    apply bind_inv in Hk.
    destruct Hk as [(e & Hk & ->) | ([] & w4 & tr7 & tr8 & Hi & Hk & ->)];
      [discriminate Hk |].
    unfold perform_total in Hi. inversion Hi; subst; clear Hi.
    apply bind_inv in Hk.
    destruct Hk as [(e & Hk & ->) | (v & w5 & tr9 & tr10 & Hl & Hk & ->)].
    + exfalso. apply verify_loop_clean in Hk as [Hk _]; [discriminate |].
      simpl in Hall. repeat (apply Forall_inv_tail in Hall). exact Hall.
    + assert (Hall9 : Forall event_ok tr9).
      { simpl in Hall. repeat (apply Forall_inv_tail in Hall).
        now apply Forall_app in Hall as [Hall _]. }
      apply verify_loop_clean in Hl as (Hv & Hp & Hn & Hi); auto.
      simpl in Hv. inversion Hv; subst v; clear Hv.
      assert (Hfind : forall tail,
                 findings tail = [] ->
                 has_finding
                   ([PortScan ip port (timeout (config self)) (Ok true)] ++
                    [LoggerInfo (ip ++ " port " ++ Py.str port ++ " is open")%string] ++
                    [Fingerprint ip port (Ok (Some (String c s)))] ++
                    [LoggerInfo (ip ++ ":" ++ Py.str port ++ " is " ++ String c s)%string] ++
                    tr9 ++ tail) = has_finding tr9).
      { intros tail Ht. unfold has_finding, findings in *. simpl.
        now rewrite flat_map_app, Ht, app_nil_r. }
      destruct (has_finding tr9) eqn:Hh; simpl in Hk; invert_run.
      * split; [reflexivity |]. right. exists (String c s).
        rewrite Hfind by reflexivity.
        unfold verified_pocs, not_vulnerable_records, identified_products in *.
        simpl. rewrite !flat_map_app, Hp, Hn, Hi. simpl.
        now rewrite app_nil_r.
      * match goal with x : outcome unit |- _ =>
          destruct x as [[] | e]; [| exfalso; clean_contra] end.
        split; [reflexivity |]. right. exists (String c s).
        rewrite Hfind by reflexivity.
        unfold verified_pocs, not_vulnerable_records, identified_products in *.
        simpl. rewrite !flat_map_app, Hp, Hn, Hi. simpl.
        now rewrite app_nil_r.
  - invert_run. split; [reflexivity |]. left.
    destruct r0 as [[| c s] |]; simpl in *; auto; discriminate.
Qed.

End ScanFacts.

(** ** The claims about [finish] and [_scan] *)

Lemma count_zero {poc} (f : @event poc -> bool) tr :
  Forall (fun ev => f ev = false) tr -> count f tr = 0.
Proof.
  unfold count. induction 1 as [| ev tr Hev _ IH]; simpl; auto.
  now rewrite Hev.
Qed.

Lemma not_done_counts {poc} (tr : list (@event poc)) :
  Forall not_done_event tr ->
  count is_add_done tr = 0 /\ count is_record_running_state tr = 0.
Proof.
  intros H. split; apply count_zero; eapply Forall_impl; eauto;
    now intros ev [? ?].
Qed.

(** The three ways [_scan] ends: inside the loop over the ports, in
    [add_done], or in [record_running_state]. *)
Lemma scan_structure {W poc} (env : @Collaborators W poc) self target w r w' tr :
  _scan env self target w = (r, w', tr) ->
  (exists e, r = Raise e /\
             for_each (target_ports self target)
                      (scan_port env self (target_ip target)) w
             = (Raise e, w', tr))
  \/ exists w1 tr1,
      for_each (target_ports self target)
               (scan_port env self (target_ip target)) w = (Ok tt, w1, tr1)
      /\ ((exists e, r = Raise e /\ tr = tr1 ++ [AddDone (Raise e)])
          \/ tr = tr1 ++ [AddDone (Ok tt); RecordRunningState r]).
Proof.
  unfold _scan, call_add_done, call_record_running_state. intros H.
  apply bind_inv in H.
  destruct H as [(e & H & ->) | ([] & w1 & tr1 & tr2 & Hp & H & ->)];
    [left; eauto |].
  right. exists w1, tr1. split; auto.
  apply bind_inv in H.
  destruct H as [(e & H & ->) | ([] & w2 & tr3 & tr4 & Hd & H & ->)];
    apply perform_inv in H as [_ ->].
  - left. eauto.
  - right. apply perform_inv in Hd as [_ ->]. reflexivity.
Qed.

(** Two runs on the small world: a target with an explicit port, and the
    report of a results file. *)
Example scan_of_the_camera :
  _scan (Demo.env Demo.camera) (Demo.core FeedEnd) "10.0.0.1:80" None
  = (Ok tt, None,
     [PortScan "10.0.0.1" (Py.Str "80") 3 (Ok true);
      LoggerInfo "10.0.0.1 port 80 is open";
      Fingerprint "10.0.0.1" (Py.Str "80") (Ok (Some "camera-x"));
      LoggerInfo "10.0.0.1:80 is camera-x";
      Verify Demo.WeakPassword "10.0.0.1" (Py.Str "80")
             (Ok (Some Demo.weak_password_result));
      AddFound (Ok tt);
      AddVulnerable (firstn 6 Demo.weak_password_result) (Ok tt);
      SnapshotPut (Demo.WeakPassword, Demo.weak_password_result) (Ok tt);
      Verify Demo.AuthBypass "10.0.0.1" (Py.Str "80") (Ok None);
      Verify Demo.Disclosure "10.0.0.1" (Py.Str "80") (Ok None);
      AddDone (Ok tt);
      RecordRunningState (Ok tt)]).
Proof. reflexivity. Qed.

Example report_of_the_results_log :
  snd (render (Demo.env Demo.camera)
              ["10.0.0.1,80,cam-x,admin,12345,weak-password";
               "10.0.0.2,80,cam-x,admin,12345,weak-password";
               "10.0.0.3,80,dvr-y,,,disclosure";
               "10.0.0.4,80,cam-x,admin,12345,weak-password";
               "10.0.0.5,80,dvr-y,,,disclosure"] None)
  = [Print Py.newline;
     Print "------------------- REPORT -------------------";
     Print "cam 3";
     Print ("     weak-password | " ++ Py.repeat_str Py.block_glyph 25 ++ " 3");
     Print "dvr 2";
     Print ("        disclosure | " ++ Py.repeat_str Py.block_glyph 16 ++ " 2");
     Print "                                        sum: 5";
     Print "----------------------------------------------";
     Print Py.newline]%string.
Proof. vm_compute. reflexivity. Qed.

(** C7: [finish] answers true exactly when the done counter has reached the
    total and the snapshot pipeline has no outstanding job. *)
Theorem finish_iff_done_and_drained {poc} (self : @Core poc) :
  finish self = true <->
  (done (data self) >= total (data self))%Z
  /\ (task_count (snapshot_pipeline self) <= 0)%Z.
Proof.
  unfold finish. rewrite andb_true_iff, Z.geb_le, Z.leb_le. lia.
Qed.



(** C1, as stated, fails: the probe of port 22 raises, [_scan] raises the
    same exception to its caller, port 80 (open, and vulnerable) is never
    probed, and neither [add_done] nor [record_running_state] is called. *)
Lemma scan_lets_probe_error_escape :
  _scan (Demo.env Demo.broken_probe) (Demo.core FeedEnd) "10.0.0.1" None
  = (Raise (Exception "OSError"), None,
     [PortScan "10.0.0.1" (Py.Int 22) 3 (Raise (Exception "OSError"))]).
Proof. reflexivity. Qed.

(** C1, amended: [_scan] has no error boundary.  It returns when no call
    raises; when a call of the port probe, of the fingerprint or of a PoC's
    [verify] raises, [_scan] raises the same exception to its caller, that
    call is the last event of the run, so no later PoC or port is
    processed, and neither [add_done] nor [record_running_state] is
    called. *)
Theorem scan_propagates_probe_errors {W poc} (env : @Collaborators W poc)
        self target w r w' tr :
  _scan env self target w = (r, w', tr) ->
  (Forall event_ok tr -> r = Ok tt)
  /\ (forall ev e,
         In ev tr ->
         is_probe_call ev = true ->
         event_raised ev = Some e ->
         r = Raise e
         /\ (exists tr', tr = tr' ++ [ev] /\ Forall event_ok tr')
         /\ count is_add_done tr = 0
         /\ count is_record_running_state tr = 0).
Proof.
  intros H.
  pose proof (scan_disciplined env self target w) as Hd. rewrite H in Hd.
  split.
  { intros Hall. destruct (disciplined_clean _ _ _ Hd Hall) as [[] ->].
    reflexivity. }
  intros ev e Hin Hprobe Hraised.
  destruct r as [[] | e']; simpl in Hd.
  - exfalso. rewrite Forall_forall in Hd. apply Hd in Hin.
    red in Hin. congruence.
  - destruct Hd as (tr' & ev' & -> & Hall & Hev').
    assert (ev = ev') as <-.
    { apply in_app_or in Hin as [Hin | [<- | []]]; auto.
      exfalso. rewrite Forall_forall in Hall. apply Hall in Hin.
      red in Hin. congruence. }
    assert (e' = e) as -> by congruence.
    split; [reflexivity |]. split; [eauto |].
    apply scan_structure in H.
    destruct H as [(e0 & _ & H) | (w1 & tr1 & _ & [(e0 & _ & Heq) | Heq])].
    + pose proof (scan_ports_not_done env self (target_ip target)
                    (target_ports self target) w) as Hnd.
      rewrite H in Hnd. simpl in Hnd. now apply not_done_counts.
    + apply app_inj_tail in Heq as [_ ->]. discriminate Hprobe.
    + change [AddDone (Ok tt); RecordRunningState (Raise e)]
        with ([@AddDone poc (Ok tt)] ++ [RecordRunningState (Raise e)])
        in Heq.
      rewrite app_assoc in Heq.
      apply app_inj_tail in Heq as [_ ->]. discriminate Hprobe.
Qed.

(** The witness of C1, amended: the failing probe of port 22. *)
Lemma scan_propagates_probe_errors_witness :
  fst (fst (_scan (Demo.env Demo.broken_probe) (Demo.core FeedEnd)
                  "10.0.0.1" None))
  = Raise (Exception "OSError")
  /\ count is_add_done
       (snd (_scan (Demo.env Demo.broken_probe) (Demo.core FeedEnd)
                   "10.0.0.1" None)) = 0.
Proof.
  destruct (scan_propagates_probe_errors
              (Demo.env Demo.broken_probe) (Demo.core FeedEnd)
              "10.0.0.1" None _ _ _ eq_refl) as [_ Hraise].
  destruct (Hraise
              (PortScan "10.0.0.1" (Py.Int 22) 3 (Raise (Exception "OSError")))
              (Exception "OSError")
              (or_introl eq_refl) eq_refl eq_refl)
    as (Hr & _ & Hd & _).
  split; [exact Hr | exact Hd].
Defined.

(** C3: every record given to [add_vulnerable] is the first six fields of
    a result that a call of [verify] answered with, so it has exactly six
    fields when that result has seven or more; and in a run in which no call
    raises, the records are, in order, the truncated results of all the
    successful verifications. *)
Theorem add_vulnerable_gets_first_six {W poc} (env : @Collaborators W poc)
        self target w r w' tr :
  _scan env self target w = (r, w', tr) ->
  (forall record a,
      In (AddVulnerable record a) tr ->
      exists p ip port results,
        In (Verify p ip port (Ok (Some results))) tr
        /\ results <> []
        /\ record = firstn 6 results
        /\ (7 <= List.length results -> List.length record = 6))
  /\ (Forall event_ok tr ->
      vulnerable_records tr = map (fun j => firstn 6 (snd j)) (findings tr)).
Proof.
  intros H. pose proof (scan_sound env self target w) as [[Hrec _] Htal].
  rewrite H in Hrec, Htal. cbn [snd] in Hrec, Htal. split.
  - intros record a Hin.
    destruct (Hrec record a Hin) as (p & ip & port & results & Hv & Hne & ->).
    exists p, ip, port, results.
    split; [exact Hv |]. split; [exact Hne |]. split; [reflexivity |].
    intros Hlen. rewrite length_firstn. lia.
  - intros Hall. now destruct (Htal Hall).
Qed.

(** The witness of C3: the camera on port 80 answers one PoC with seven
    fields; six are recorded. *)
Lemma add_vulnerable_gets_first_six_witness :
  vulnerable_records
    (snd (_scan (Demo.env Demo.camera) (Demo.core FeedEnd) "10.0.0.1:80" None))
  = [[Py.Str "10.0.0.1"; Py.Str "80"; Py.Str "camera-x"; Py.Str "admin";
      Py.Str "12345"; Py.Str "weak-password"]].
Proof.
  destruct (add_vulnerable_gets_first_six
              (Demo.env Demo.camera) (Demo.core FeedEnd) "10.0.0.1:80" None
              _ _ _ eq_refl) as [_ H].
  apply H. repeat constructor.
Defined.

(** C10: every job given to [snapshot_pipeline.put] pairs the PoC whose
    [exploit] is to be invoked with the whole result of its [verify], while
    the record given to [add_vulnerable] for the same finding is the first
    six fields; jobs are only put when snapshots are enabled, and then, in
    a run in which no call raises, the jobs are exactly the findings. *)
Theorem snapshot_job_carries_full_result {W poc} (env : @Collaborators W poc)
        self target w r w' tr :
  _scan env self target w = (r, w', tr) ->
  (forall p results a,
      In (SnapshotPut (p, results) a) tr ->
      disable_snapshot (config self) = false
      /\ results <> []
      /\ (exists ip port, In (Verify p ip port (Ok (Some results))) tr)
      /\ In (AddVulnerable (firstn 6 results) (Ok tt)) tr)
  /\ (disable_snapshot (config self) = false ->
      Forall event_ok tr ->
      snapshot_jobs tr = findings tr
      /\ vulnerable_records tr
         = map (fun j => firstn 6 (snd j)) (snapshot_jobs tr)).
Proof.
  intros H. pose proof (scan_sound env self target w) as [[_ Hjob] Htal].
  rewrite H in Hjob, Htal. cbn [snd] in Hjob, Htal. split; [exact Hjob |].
  intros Hd Hall. destruct (Htal Hall) as (Hrec & _ & Hjobs).
  rewrite Hd in Hjobs. rewrite Hjobs. auto.
Qed.

(** The witness of C10: the job of the camera has all seven fields. *)
Lemma snapshot_job_carries_full_result_witness :
  snapshot_jobs
    (snd (_scan (Demo.env Demo.camera) (Demo.core FeedEnd) "10.0.0.1:80" None))
  = [(Demo.WeakPassword, Demo.weak_password_result)].
Proof.
  destruct (snapshot_job_carries_full_result
              (Demo.env Demo.camera) (Demo.core FeedEnd) "10.0.0.1:80" None
              _ _ _ eq_refl) as [_ H].
  apply H; [reflexivity | repeat constructor].
Defined.

(** ** The floats of [block_num] *)

Module FloatFacts.

Local Open Scope Z_scope.

Lemma digits2_pos_size p : digits2_pos p = Pos.size p.
Proof. induction p; simpl; congruence. Qed.

Lemma digits2_bounds p :
  2 ^ (Z.pos (digits2_pos p) - 1) <= Z.pos p < 2 ^ Z.pos (digits2_pos p).
Proof.
  rewrite digits2_pos_size. split.
  - pose proof (Pos.size_le p) as H.
    assert (H2 : 2 ^ Z.pos (Pos.size p) <= 2 * Z.pos p).
    { rewrite <- Pos2Z.inj_pow. change (2 * Z.pos p) with (Z.pos p~0). lia. }
    replace (Z.pos (Pos.size p)) with (Z.succ (Z.pos (Pos.size p) - 1)) in H2 by lia.
    rewrite Z.pow_succ_r in H2 by lia. lia.
  - pose proof (Pos.size_gt p) as H. rewrite <- Pos2Z.inj_pow. lia.
Qed.

Lemma digits2_unique p d :
  2 ^ (d - 1) <= Z.pos p < 2 ^ d -> Z.pos (digits2_pos p) = d.
Proof.
  intros [Hlo Hhi]. pose proof (digits2_bounds p) as [Hlo' Hhi'].
  assert (0 < d).
  { destruct (Z_lt_le_dec 0 d); auto.
    assert (2 ^ d <= 2 ^ 0) by (apply Z.pow_le_mono_r; lia). simpl in *. lia. }
  set (d' := Z.pos (digits2_pos p)) in *.
  destruct (Z_lt_le_dec d d').
  - assert (2 ^ d <= 2 ^ (d' - 1)) by (apply Z.pow_le_mono_r; lia). lia.
  - destruct (Z_lt_le_dec d' d); [| lia].
    assert (2 ^ d' <= 2 ^ (d - 1)) by (apply Z.pow_le_mono_r; lia). lia.
Qed.

Lemma loc_of_shr_record_of_loc m l :
  loc_of_shr_record (shr_record_of_loc m l) = l.
Proof. destruct l as [| []]; reflexivity. Qed.

Lemma loc_rec_of N D :
  loc_of_shr_record (rec_of N D) = loc_of (N mod D) D.
Proof. apply loc_of_shr_record_of_loc. Qed.

Lemma shr_m_rec_of N D : shr_m (rec_of N D) = N / D.
Proof. unfold rec_of. destruct (loc_of _ _) as [| []]; reflexivity. Qed.

(** one step of shifting doubles the divisor *)
Lemma shr_1_rec_of N D :
  0 <= N -> 0 < D -> shr_1 (rec_of N D) = rec_of N (D * 2).
Proof.
  intros HN HD. unfold rec_of.
  assert (Hq : N / (D * 2) = N / D / 2) by (rewrite Z.div_div; lia).
  assert (Hr : N mod (D * 2) = N mod D + D * ((N / D) mod 2))
    by (apply Z.rem_mul_r; lia).
  pose proof (Z.div_pos N D HN HD) as Hm.
  pose proof (Z.mod_pos_bound N D HD) as HR.
  rewrite Hq, Hr. set (m := N / D) in *. set (R := N mod D) in *.
  unfold loc_of.
  destruct m as [| [p | p |] | p]; try lia.
  - (* m = 0 *)
    change (0 / 2) with 0. change (0 mod 2) with 0. rewrite Z.mul_0_r, Z.add_0_r.
    destruct (Z.eqb_spec R 0); [reflexivity |].
    destruct (Z.compare_spec (2 * R) D), (Z.compare_spec (2 * R) (D * 2));
      try lia; reflexivity.
  - (* m = 2p+1 *)
    replace (Z.pos p~1 / 2) with (Z.pos p)
      by (apply Z.div_unique with 1; lia).
    replace (Z.pos p~1 mod 2) with 1
      by (apply Z.mod_unique with (Z.pos p); lia).
    destruct (Z.eqb_spec R 0), (Z.eqb_spec (R + D * 1) 0); try lia;
      destruct (Z.compare_spec (2 * R) D),
               (Z.compare_spec (2 * (R + D * 1)) (D * 2));
      try lia; reflexivity.
  - (* m = 2p *)
    replace (Z.pos p~0 / 2) with (Z.pos p)
      by (apply Z.div_unique with 0; lia).
    replace (Z.pos p~0 mod 2) with 0
      by (apply Z.mod_unique with (Z.pos p); lia).
    rewrite Z.mul_0_r, Z.add_0_r.
    destruct (Z.eqb_spec R 0); [reflexivity |].
    destruct (Z.compare_spec (2 * R) D), (Z.compare_spec (2 * R) (D * 2));
      try lia; reflexivity.
  - (* m = 1 *)
    change (1 / 2) with 0. change (1 mod 2) with 1.
    destruct (Z.eqb_spec R 0), (Z.eqb_spec (R + D * 1) 0); try lia;
      destruct (Z.compare_spec (2 * R) D),
               (Z.compare_spec (2 * (R + D * 1)) (D * 2));
      try lia; reflexivity.
Qed.

Lemma iter_shr_1_rec_of p : forall N D,
  0 <= N -> 0 < D ->
  iter_pos shr_1 p (rec_of N D) = rec_of N (D * 2 ^ Z.pos p).
Proof.
  induction p as [p IH | p IH |]; intros N D HN HD; simpl iter_pos.
  - rewrite shr_1_rec_of, !IH by (auto; try nia; try (apply Z.mul_pos_pos; lia)).
    f_equal. change (Z.pos p~1) with (2 * Z.pos p + 1).
    replace (2 * Z.pos p + 1) with (1 + Z.pos p + Z.pos p) by lia.
    rewrite !Z.pow_add_r by lia. change (2 ^ 1) with 2. ring.
  - rewrite !IH by (auto; try (apply Z.mul_pos_pos; lia)).
    f_equal. change (Z.pos p~0) with (2 * Z.pos p).
    replace (2 * Z.pos p) with (Z.pos p + Z.pos p) by lia.
    rewrite !Z.pow_add_r by lia. ring.
  - rewrite shr_1_rec_of by auto. reflexivity.
Qed.

Lemma shr_rec_of N D ex n :
  0 <= N -> 0 < D -> 0 <= n ->
  shr (rec_of N D) ex n = (rec_of N (D * 2 ^ n), ex + n).
Proof.
  intros HN HD Hn. destruct n as [| p | p]; simpl shr; [| | lia].
  - now rewrite Z.pow_0_r, Z.mul_1_r, Z.add_0_r.
  - now rewrite iter_shr_1_rec_of.
Qed.

Lemma rec_of_exact m : shr_record_of_loc m loc_Exact = rec_of m 1.
Proof. unfold rec_of, loc_of. now rewrite Z.div_1_r, Z.mod_1_r. Qed.

Lemma pow2_pos n : 0 <= n -> 0 < 2 ^ n.
Proof. intros. apply Z.pow_pos_nonneg; lia. Qed.

(** rounding to nearest, ties to even, is within half a unit *)
Lemma round_nearest_even_near N D :
  0 <= N -> 0 < D ->
  let m2 := round_nearest_even (N / D) (loc_of (N mod D) D) in
  (m2 = N / D \/ m2 = N / D + 1)
  /\ Z.abs (2 * m2 * D - 2 * N) <= D
  /\ (N mod D = 0 -> m2 = N / D).
Proof.
  intros HN HD. pose proof (Z.div_mod N D ltac:(lia)) as Hdm.
  pose proof (Z.mod_pos_bound N D HD) as HR.
  set (m1 := N / D) in *. set (R := N mod D) in *.
  clearbody m1 R.
  assert (Hprod : 2 * (m1 + 1) * D = 2 * m1 * D + 2 * D) by ring.
  assert (Hcomm : D * m1 = m1 * D) by ring.
  unfold loc_of.
  destruct (Z.eqb_spec R 0) as [H0 | H0]; cbn [round_nearest_even].
  - split; [auto |]. split; [| auto]. apply Z.abs_le. lia.
  - destruct (Z.compare_spec (2 * R) D); cbn [round_nearest_even].
    + destruct (Z.even m1); (split; [auto |]); (split; [| lia]);
        apply Z.abs_le; lia.
    + split; [auto |]. split; [| lia]. apply Z.abs_le. lia.
    + split; [auto |]. split; [| lia]. apply Z.abs_le. lia.
Qed.

(** [binary_round_aux] on a mantissa of at least 53 digits, in the range
    of the normal numbers of binary64 *)
Lemma binary_round_aux_spec N D ex n :
  0 <= N -> 0 < D -> 0 <= n ->
  2 ^ (52 + n) <= N / D < 2 ^ (53 + n) ->
  -1074 <= ex + n -> ex + n + 1 <= 971 ->
  exists (mq : positive) (t : Z),
    binary_round_aux 53 1024 false (N / D) ex (loc_of (N mod D) D)
    = S754_finite false mq (ex + t)
    /\ 2 ^ 52 <= Z.pos mq < 2 ^ 53
    /\ n <= t <= n + 1
    /\ Z.abs (2 * Z.pos mq * (D * 2 ^ t) - 2 * N) <= D * 2 ^ t
    /\ (N mod (D * 2 ^ n) = 0 -> Z.pos mq = N / (D * 2 ^ n) /\ t = n).
Proof.
  intros HN HD Hn Hdig Hlo Hhi.
  assert (Hmx : 0 < N / D).
  { pose proof (pow2_pos (52 + n) ltac:(lia)). lia. }
  assert (Hd : Zdigits2 (N / D) = 53 + n).
  { destruct (N / D) as [| p | p] eqn:E; try lia. cbn [Zdigits2].
    apply digits2_unique. replace (53 + n - 1) with (52 + n) by lia. exact Hdig. }
  pose proof (pow2_pos n Hn) as H2n.
  set (D' := D * 2 ^ n).
  assert (HD' : 0 < D') by (apply Z.mul_pos_pos; lia).
  assert (Hm1 : 2 ^ 52 <= N / D' < 2 ^ 53).
  { unfold D'. rewrite <- Z.div_div by lia. split.
    - apply Z.div_le_lower_bound; [lia |].
      rewrite Z.mul_comm, <- Z.pow_add_r by lia. lia.
    - apply Z.div_lt_upper_bound; [lia |].
      rewrite <- Z.pow_add_r by lia.
      replace (n + 53) with (53 + n) by lia. lia. }
  destruct (round_nearest_even_near N D' HN HD') as (Hm2 & Hnear & Hexact).
  set (m2 := round_nearest_even (N / D') (loc_of (N mod D') D')) in *.
  unfold binary_round_aux, shr_fexp.
  change (shr_record_of_loc (N / D) (loc_of (N mod D) D)) with (rec_of N D).
  rewrite Hd.
  replace (fexp 53 1024 (53 + n + ex) - ex) with n
    by (unfold fexp, emin; lia).
  rewrite shr_rec_of by lia. fold D'.
  rewrite !shr_m_rec_of, !loc_rec_of. fold m2.
  rewrite rec_of_exact.
  destruct (Z_lt_le_dec m2 (2 ^ 53)) as [Hlt | Hge].
  - (* no carry *)
    assert (Hd2 : Zdigits2 m2 = 53).
    { destruct m2 as [| p | p] eqn:E; try lia. cbn [Zdigits2].
      apply digits2_unique. change (53 - 1) with 52. lia. }
    rewrite Hd2.
    replace (fexp 53 1024 (53 + (ex + n)) - (ex + n)) with 0
      by (unfold fexp, emin; lia).
    rewrite shr_rec_of by lia.
    rewrite shr_m_rec_of, Z.pow_0_r, Z.mul_1_r, Z.div_1_r, Z.add_0_r.
    destruct m2 as [| p | p] eqn:E; try lia.
    replace (ex + n <=? 1024 - 53) with true by (symmetry; apply Z.leb_le; lia).
    exists p, n. split; [reflexivity |]. split; [lia |]. split; [lia |].
    fold D'. split; [exact Hnear |].
    intros H0. split; [apply Hexact, H0 | reflexivity].
  - (* carry to the next binade *)
    assert (Hm2' : m2 = 2 ^ 53) by lia.
    rewrite Hm2'. change (Zdigits2 (2 ^ 53)) with 54.
    replace (fexp 53 1024 (54 + (ex + n)) - (ex + n)) with 1
      by (unfold fexp, emin; lia).
    rewrite shr_rec_of by lia.
    rewrite shr_m_rec_of.
    change (2 ^ 53 / (1 * 2 ^ 1)) with (Z.pos (Z.to_pos (2 ^ 52))).
    replace (ex + n + 1 <=? 1024 - 53) with true
      by (symmetry; apply Z.leb_le; lia).
    exists (Z.to_pos (2 ^ 52)), (n + 1).
    rewrite Z.add_assoc.
    split; [reflexivity |].
    change (Z.pos (Z.to_pos (2 ^ 52))) with (2 ^ 52).
    split; [lia |]. split; [lia |]. split.
    + rewrite Z.pow_add_r by lia. change (2 ^ 1) with 2.
      replace (D * (2 ^ n * 2)) with (2 * D') by (unfold D'; ring).
      change (2 ^ 52) with 4503599627370496.
      change (2 ^ 53) with 9007199254740992 in *.
      rewrite Hm2' in Hnear. apply Z.abs_le in Hnear. apply Z.abs_le. lia.
    + intros H0. apply Hexact in H0. lia.
Qed.

Lemma new_location_loc_of b r :
  0 < b -> 0 <= r < b -> new_location b r = loc_of r b.
Proof.
  intros Hb Hr. unfold new_location, new_location_even, new_location_odd, loc_of.
  destruct (Z.even b) eqn:Heven; destruct (Z.eqb_spec r 0); auto.
  f_equal.
  assert (Hodd : Z.odd b = true) by (rewrite <- Z.negb_even, Heven; reflexivity).
  apply Z.odd_spec in Hodd as [h Hh].
  destruct (Z.compare_spec (2 * r + 1) b), (Z.compare_spec (2 * r) b);
    try reflexivity; lia.
Qed.

Lemma fl_spec p :
  Z.pos p < 2 ^ 53 ->
  exists (a : positive) (ea : Z),
    Py.float_of_Z (Z.pos p) = S754_finite false a ea
    /\ 2 ^ 52 <= Z.pos a < 2 ^ 53
    /\ -52 <= ea <= 0
    /\ Z.pos a = Z.pos p * 2 ^ (- ea).
Proof.
  intros Hp. unfold Py.float_of_Z, Py.prec, Py.emax, binary_normalize, binary_round.
  pose proof (digits2_bounds p) as [Hlo Hhi].
  set (d := Z.pos (digits2_pos p)) in *.
  assert (Hd : 1 <= d <= 53).
  { split; [unfold d; lia |].
    destruct (Z_lt_le_dec 53 d); [| lia].
    assert (2 ^ 53 <= 2 ^ (d - 1)) by (apply Z.pow_le_mono_r; lia). lia. }
  replace (fexp 53 1024 (d + 0)) with (d - 53) by (unfold fexp, emin; lia).
  assert (Hal : exists mz : positive,
             shl_align p 0 (d - 53) = (mz, d - 53)
             /\ Z.pos mz = Z.pos p * 2 ^ (53 - d)).
  { unfold shl_align. destruct (d - 53 - 0) as [| q | q] eqn:E; try lia.
    - exists p. replace (d - 53) with 0 by lia.
      replace (53 - d) with 0 by lia. split; [reflexivity | simpl; lia].
    - exists (Pos.iter xO p q). split; [reflexivity |].
      change (Pos.iter xO p q) with (shift_pos q p).
      rewrite shift_pos_correct.
      replace (53 - d) with (Z.pos q) by lia.
      change (Z.pow_pos 2 q) with (2 ^ Z.pos q). ring. }
  destruct Hal as (mz & -> & Hmz).
  assert (Hbnd : 2 ^ 52 <= Z.pos mz < 2 ^ 53).
  { rewrite Hmz. split.
    - replace 52 with ((d - 1) + (53 - d)) by lia.
      rewrite Z.pow_add_r by lia.
      apply Z.mul_le_mono_nonneg_r; [apply Z.pow_nonneg |]; lia.
    - replace 53 with (d + (53 - d)) at 2 by lia.
      rewrite Z.pow_add_r by lia.
      apply Z.mul_lt_mono_pos_r; [apply pow2_pos |]; lia. }
  destruct (binary_round_aux_spec (Z.pos mz) 1 (d - 53) 0)
    as (mq & t & Heq & Hmq & Ht & _ & Hexact); try lia.
  { rewrite Z.div_1_r. change (52 + 0) with 52. change (53 + 0) with 53. lia. }
  rewrite Z.div_1_r, Z.mod_1_r in Heq. change (loc_of 0 1) with loc_Exact in Heq.
  destruct Hexact as [Hmq' ->].
  { change (1 * 2 ^ 0) with 1. apply Z.mod_1_r. }
  change (1 * 2 ^ 0) with 1 in Hmq'. rewrite Z.div_1_r in Hmq'.
  exists mq, (d - 53). rewrite Heq, Z.add_0_r.
  split; [reflexivity |]. split; [lia |]. split; [lia |].
  rewrite Hmq', Hmz. f_equal. f_equal. lia.
Qed.

Lemma pow2_double_le i j : 0 <= i -> i < j -> 2 * 2 ^ i <= 2 ^ j.
Proof.
  intros Hi Hij. rewrite <- Z.pow_succ_r by lia.
  apply Z.pow_le_mono_r; lia.
Qed.

(** [c / m] on floats: the quotient is a float within half a unit in the
    last place of the exact one. *)
Lemma div_near (c m : positive) :
  Z.pos c <= Z.pos m -> Z.pos m < 2 ^ 53 ->
  exists (mq : positive) (eq : Z),
    SFdiv 53 1024 (Py.float_of_Z (Z.pos c)) (Py.float_of_Z (Z.pos m)) = S754_finite false mq eq
    /\ -110 <= eq <= -51
    /\ 2 ^ 52 <= Z.pos mq < 2 ^ 53
    /\ Z.abs (2 * Z.pos mq * Z.pos m - 2 * Z.pos c * 2 ^ (- eq)) <= Z.pos m.
Proof.
  intros Hcm Hm.
  destruct (fl_spec c) as (a & ea & -> & Ha & Hea & Hca); [lia |].
  destruct (fl_spec m) as (b & eb & -> & Hb & Heb & Hmb); [lia |].
  assert (Hle : ea <= eb).
  { destruct (Z_lt_le_dec eb ea); [| lia]. exfalso.
    pose proof (pow2_double_le (- ea) (- eb) ltac:(lia) ltac:(lia)).
    pose proof (pow2_pos (- ea) ltac:(lia)). nia. }
  unfold SFdiv. cbn [xorb]. unfold SFdiv_core_binary.
  assert (Hda : Zdigits2 (Z.pos a) = 53)
    by (cbn [Zdigits2]; apply digits2_unique; change (53 - 1) with 52; lia).
  assert (Hdb : Zdigits2 (Z.pos b) = 53)
    by (cbn [Zdigits2]; apply digits2_unique; change (53 - 1) with 52; lia).
  rewrite Hda, Hdb.
  replace (Z.min (fexp 53 1024 (53 + ea - (53 + eb))) (ea - eb))
    with (ea - eb - 53) by (unfold fexp, emin; lia).
  replace (ea - eb - (ea - eb - 53)) with 53 by lia.
  cbv iota. rewrite Z.shiftl_mul_pow2 by lia.
  set (N := Z.pos a * 2 ^ 53).
  assert (HN : 0 <= N) by (unfold N; lia).
  pose proof (Z.mod_pos_bound N (Z.pos b) ltac:(lia)) as Hr.
  assert (Hdiv : Z.div_eucl N (Z.pos b) = (N / Z.pos b, N mod Z.pos b)).
  { unfold Z.div, Z.modulo. now destruct (Z.div_eucl N (Z.pos b)). }
  rewrite Hdiv, new_location_loc_of by lia.
  change (2 ^ 52) with 4503599627370496 in *.
  change (2 ^ 53) with 9007199254740992 in *.
  assert (Hq : exists n, 0 <= n <= 1 /\ 2 ^ (52 + n) <= N / Z.pos b < 2 ^ (53 + n)).
  { destruct (Z_lt_le_dec (Z.pos a) (Z.pos b)).
    - exists 0. split; [lia |]. change (2 ^ (52 + 0)) with 4503599627370496.
      change (2 ^ (53 + 0)) with 9007199254740992. split.
      + apply Z.div_le_lower_bound; [lia |]. unfold N. lia.
      + apply Z.div_lt_upper_bound; [lia |]. unfold N. lia.
    - exists 1. split; [lia |]. change (2 ^ (52 + 1)) with 9007199254740992.
      change (2 ^ (53 + 1)) with 18014398509481984. split.
      + apply Z.div_le_lower_bound; [lia |]. unfold N. lia.
      + apply Z.div_lt_upper_bound; [lia |]. unfold N. lia. }
  destruct Hq as (n & Hn & Hq).
  destruct (binary_round_aux_spec N (Z.pos b) (ea - eb - 53) n)
    as (mq & t & Heq & Hmq & Ht & Hnear & _); try lia.
  exists mq, (ea - eb - 53 + t). split; [exact Heq |].
  split; [lia |]. split; [exact Hmq |].
  (* scale the inequality down to the integers [c] and [m] *)
  set (G := 2 ^ (- eb) * 2 ^ t).
  assert (HG : 0 < G).
  { apply Z.mul_pos_pos; apply pow2_pos; lia. }
  assert (HGE : 2 ^ (- ea) * 2 ^ 53 = G * 2 ^ (- (ea - eb - 53 + t))).
  { unfold G. rewrite <- !Z.pow_add_r by lia. f_equal. lia. }
  assert (H1 : Z.pos b * 2 ^ t = Z.pos m * G) by (unfold G; rewrite Hmb; ring).
  assert (H2 : N = Z.pos c * (G * 2 ^ (- (ea - eb - 53 + t)))).
  { unfold N. rewrite <- HGE, Hca.
    change (2 ^ 53) with 9007199254740992. ring. }
  rewrite H1, H2 in Hnear.
  set (E := 2 ^ (- (ea - eb - 53 + t))) in *.
  apply Z.abs_le in Hnear. apply Z.abs_le.
  clearbody G E N. clear - HG Hnear. nia.
Qed.

Lemma fl_25 : Py.float_of_Z 25 = S754_finite false 7036874417766400 (-48).
Proof. reflexivity. Qed.

(** [x * 25] on floats *)
Lemma mul_25_near (mq : positive) (eq : Z) :
  2 ^ 52 <= Z.pos mq < 2 ^ 53 -> -110 <= eq <= -51 ->
  exists (mp : positive) (ep : Z),
    SFmul 53 1024 (S754_finite false mq eq) (Py.float_of_Z 25) = S754_finite false mp ep
    /\ ep <= 0
    /\ 2 ^ 52 <= Z.pos mp < 2 ^ 53
    /\ Z.abs (2 * Z.pos mp * 2 ^ (- eq) - 50 * Z.pos mq * 2 ^ (- ep))
       <= 2 ^ (- eq).
Proof.
  intros Hmq Heq. rewrite fl_25. unfold SFmul. cbn [xorb].
  rewrite Pos2Z.inj_mul.
  set (N := Z.pos mq * 7036874417766400).
  change (2 ^ 52) with 4503599627370496 in *.
  change (2 ^ 53) with 9007199254740992 in *.
  assert (HN : 0 <= N) by (unfold N; lia).
  assert (Hq : exists n, 52 <= n <= 53 /\ 2 ^ (52 + n) <= N / 1 < 2 ^ (53 + n)).
  { rewrite Z.div_1_r.
    destruct (Z_lt_le_dec N (2 ^ 105)) as [Hlt | Hge].
    - exists 52. split; [lia |]. change (53 + 52) with 105.
      split; [| exact Hlt].
      change (2 ^ (52 + 52)) with 20282409603651670423947251286016.
      unfold N. lia.
    - exists 53. split; [lia |]. change (52 + 53) with 105.
      split; [exact Hge |].
      change (2 ^ (53 + 53)) with 81129638414606681695789005144064.
      unfold N. lia. }
  destruct Hq as (n & Hn & Hq).
  destruct (binary_round_aux_spec N 1 (eq + -48) n)
    as (mp & t & Hmul & Hmp & Ht & Hnear & _); try lia.
  rewrite Z.div_1_r, Z.mod_1_r in Hmul. change (loc_of 0 1) with loc_Exact in Hmul.
  exists mp, (eq + -48 + t). split; [exact Hmul |].
  split; [lia |]. split; [exact Hmp |].
  rewrite Z.mul_1_l in Hnear.
  set (E := 2 ^ (- eq)). set (F := 2 ^ (- (eq + -48 + t))).
  assert (HT : 0 < 2 ^ t) by (apply pow2_pos; lia).
  assert (HFT : F * 2 ^ t = E * 281474976710656).
  { unfold E, F. change 281474976710656 with (2 ^ 48).
    rewrite <- !Z.pow_add_r by lia. f_equal. lia. }
  assert (HE : 0 < E) by (apply pow2_pos; lia).
  apply Z.abs_le in Hnear. apply Z.abs_le.
  unfold N in Hnear. clearbody E F. set (T := 2 ^ t) in *. clearbody T.
  clear - HT HFT HE Hnear. nia.
Qed.

(** The arithmetic behind [int(c / m * 25)] when [25 * c / m] is not an
    integer: two roundings to nearest cannot cross an integer. *)
Ltac product a b :=
  let H := fresh "Hprod" in
  assert (H : 0 <= a * b) by (apply Z.mul_nonneg_nonneg; lia).

Lemma floor_inexact c m k rho mq E mp F :
  1 <= c <= m -> m <= 2 ^ 46 ->
  25 * c = k * m + rho -> 1 <= rho < m -> 0 <= k ->
  2 ^ 52 <= mq < 2 ^ 53 -> 0 < E -> Z.abs (2 * mq * m - 2 * c * E) <= m ->
  2 ^ 52 <= mp < 2 ^ 53 -> 0 < F -> Z.abs (2 * mp * E - 50 * mq * F) <= E ->
  mp / F = k.
Proof.
  change (2 ^ 46) with 70368744177664.
  change (2 ^ 52) with 4503599627370496.
  change (2 ^ 53) with 9007199254740992.
  intros Hc Hm Hk Hrho Hk0 Hmq HE Hq Hmp HF Hp.
  apply Z.abs_le in Hq. apply Z.abs_le in Hp.
  assert (HkE : 25 * c * E = k * m * E + rho * E).
  { replace (25 * c * E) with ((25 * c) * E) by ring. rewrite Hk. ring. }
  assert (HE52 : 4503599627370496 <= E).
  { destruct (Z_lt_le_dec E 4503599627370496) as [Hlt | Hge]; [exfalso | lia].
    product (mq - 4503599627370496) m. product (m - c) E.
    product (4503599627370496 - 1 - E) m. lia. }
  symmetry. apply Z.div_unique with (mp - k * F); [| ring].
  left. split.
  - (* k * F <= mp *)
    destruct (Z_lt_le_dec mp (k * F)) as [Hlt | Hge]; [exfalso | lia].
    product (k * F - 1 - mp) E.
    assert (H2 : 25 * mq < k * E).
    { destruct (Z_lt_le_dec (25 * mq) (k * E)) as [Hlt' | Hge']; [lia | exfalso].
      product (25 * mq - k * E) F. lia. }
    product (k * E - 1 - 25 * mq) m. product (rho - 1) E. lia.
  - (* mp < (k + 1) * F *)
    destruct (Z_lt_le_dec mp ((k + 1) * F)) as [Hlt | Hge]; [lia | exfalso].
    assert (H0 : E <= 50 * F).
    { product (mp - 4503599627370496) E. product (9007199254740992 - 1 - mq) F.
      lia. }
    product (mp - (k + 1) * F) E.
    assert (H2 : 2 * (k + 1) * E <= 50 * mq + 50).
    { destruct (Z_lt_le_dec (50 * mq + 50) (2 * (k + 1) * E))
        as [Hlt' | Hge']; [exfalso | lia].
      product (2 * (k + 1) * E - 50 * mq - 51) F. lia. }
    product (50 * mq + 50 - 2 * (k + 1) * E) m. product (m - rho - 1) E. lia.
Qed.

Lemma int_of_float_finite mp ep :
  ep <= 0 -> Py.int_of_float (S754_finite false mp ep) = Some (Z.pos mp / 2 ^ (- ep)).
Proof.
  intros Hep. unfold Py.int_of_float.
  destruct (Z.leb_spec 0 ep); [| reflexivity].
  replace ep with 0 by lia. change (2 ^ (- 0)) with 1. change (2 ^ 0) with 1.
  now rewrite Z.mul_1_r, Z.div_1_r.
Qed.

Lemma check_exact_table k : 1 <= k <= 24 -> check_exact k = true.
Proof.
  intros Hk.
  assert (H : k = 1 \/ k = 2 \/ k = 3 \/ k = 4 \/ k = 5 \/ k = 6 \/ k = 7
              \/ k = 8 \/ k = 9 \/ k = 10 \/ k = 11 \/ k = 12 \/ k = 13
              \/ k = 14 \/ k = 15 \/ k = 16 \/ k = 17 \/ k = 18 \/ k = 19
              \/ k = 20 \/ k = 21 \/ k = 22 \/ k = 23 \/ k = 24) by lia.
  repeat (destruct H as [-> | H]; [vm_compute; reflexivity |]).
  subst k. vm_compute. reflexivity.
Qed.

Lemma pow2_range_52 i : 0 <= i -> 2 ^ 52 <= 2 ^ i < 2 ^ 53 -> i = 52.
Proof.
  intros Hi [Hlo Hhi].
  destruct (Z_lt_le_dec i 52).
  - assert (2 ^ i <= 2 ^ 51) by (apply Z.pow_le_mono_r; lia).
    change (2 ^ 51) with 2251799813685248 in *.
    change (2 ^ 52) with 4503599627370496 in *. lia.
  - destruct (Z_lt_le_dec 52 i); [| lia].
    assert (2 ^ 53 <= 2 ^ i) by (apply Z.pow_le_mono_r; lia). lia.
Qed.

(** Two floats that are both nearest to [k / 25], one of them strictly and
    away from the ends of its binade, are the same float. *)
Lemma nearest_unique k mq i ms j :
  0 <= k -> 0 <= i -> 0 <= j ->
  2 ^ 52 <= mq < 2 ^ 53 -> 2 ^ 52 < ms < 2 ^ 53 - 1 ->
  Z.abs (50 * mq - 2 * k * 2 ^ i) <= 25 ->
  Z.abs (50 * ms - 2 * k * 2 ^ j) < 25 ->
  mq = ms /\ i = j.
Proof.
  change (2 ^ 52) with 4503599627370496.
  change (2 ^ 53) with 9007199254740992.
  intros Hk Hi Hj Hmq Hms Hq Hs.
  apply Z.abs_le in Hq. apply Z.abs_lt in Hs.
  pose proof (pow2_pos i Hi) as HE. pose proof (pow2_pos j Hj) as HEs.
  destruct (Z.lt_trichotomy i j) as [Hlt | [-> | Hgt]].
  - exfalso. pose proof (pow2_double_le i j Hi Hlt) as H2.
    set (E := 2 ^ i) in *. set (Es := 2 ^ j) in *. clearbody E Es.
    assert (2 * (k * E) <= k * Es) by nia. nia.
  - split; [lia | reflexivity].
  - exfalso. pose proof (pow2_double_le j i Hj Hgt) as H2.
    set (E := 2 ^ i) in *. set (Es := 2 ^ j) in *. clearbody E Es.
    assert (2 * (k * Es) <= k * E) by nia. nia.
Qed.

(** [int(c / m * 25)] is the integer quotient of [25 * c] by [m]. *)
Theorem int_div_mul_25 (c m : positive) :
  Z.pos c <= Z.pos m -> Z.pos m <= 2 ^ 46 ->
  Py.int_of_float (SFmul 53 1024 (SFdiv 53 1024 (Py.float_of_Z (Z.pos c)) (Py.float_of_Z (Z.pos m))) (Py.float_of_Z 25))
  = Some (25 * Z.pos c / Z.pos m).
Proof.
  change (2 ^ 46) with 70368744177664.
  intros Hcm Hm.
  destruct (div_near c m) as (mq & eq & Hdiv & Heq & Hmq & Hq);
    [lia | change (2 ^ 53) with 9007199254740992; lia |].
  pose proof (Z.div_mod (25 * Z.pos c) (Z.pos m) ltac:(lia)) as Hdm.
  pose proof (Z.mod_pos_bound (25 * Z.pos c) (Z.pos m) ltac:(lia)) as Hrho.
  assert (Hk0 : 0 <= 25 * Z.pos c / Z.pos m) by (apply Z.div_pos; lia).
  assert (Hk25 : 25 * Z.pos c / Z.pos m <= 25)
    by (apply Z.div_le_upper_bound; lia).
  set (k := 25 * Z.pos c / Z.pos m) in *.
  set (rho := (25 * Z.pos c) mod Z.pos m) in *.
  destruct (Z.eq_dec rho 0) as [Hex | Hinex].
  - (* 25 * c = k * m *)
    assert (Hkm : 25 * Z.pos c = k * Z.pos m) by lia.
    assert (Hk1 : 1 <= k) by nia.
    assert (Hq' : Z.abs (50 * Z.pos mq - 2 * k * 2 ^ (- eq)) <= 25).
    { apply Z.abs_le in Hq. apply Z.abs_le.
      set (E := 2 ^ (- eq)) in *. clearbody E k rho. nia. }
    destruct (Z.eq_dec k 25) as [Hk | Hk].
    + (* c = m: the quotient is 1.0 *)
      rewrite Hk in Hq'. apply Z.abs_le in Hq'.
      assert (HmqE : Z.pos mq = 2 ^ (- eq)) by lia.
      assert (- eq = 52) by (apply pow2_range_52; [lia | rewrite <- HmqE; exact Hmq]).
      replace eq with (-52) in * by lia.
      change (2 ^ (- -52)) with (Z.pos 4503599627370496) in HmqE.
      inversion HmqE; subst mq. rewrite Hdiv, Hk. vm_compute. reflexivity.
    + pose proof (check_exact_table k ltac:(lia)) as Htab.
      unfold check_exact in Htab.
      destruct (SFdiv 53 1024 (Py.float_of_Z k) (Py.float_of_Z 25)) as [| | | [|] ms es];
        try discriminate Htab.
      rewrite !andb_true_iff in Htab.
      destruct Htab as ((((H1 & H2) & H3) & H4) & H5).
      apply Z.ltb_lt in H1, H2, H4. apply Z.leb_le in H3.
      destruct (nearest_unique k (Z.pos mq) (- eq) (Z.pos ms) (- es))
        as [Hm1 He1]; try lia.
      inversion Hm1; subst ms. replace es with eq in * by lia.
      rewrite Hdiv.
      destruct (Py.int_of_float _) as [r |]; [| discriminate H5].
      apply Z.eqb_eq in H5. now subst r.
  - (* 25 * c / m is not an integer *)
    destruct (mul_25_near mq eq Hmq Heq) as (mp & ep & Hmul & Hep & Hmp & Hp).
    rewrite Hdiv, Hmul, int_of_float_finite by exact Hep. f_equal.
    apply floor_inexact with (c := Z.pos c) (m := Z.pos m) (rho := rho)
                             (mq := Z.pos mq) (E := 2 ^ (- eq));
      try assumption; try lia; try (apply pow2_pos; lia).
Qed.

End FloatFacts.

(** ** The claims about [report] and [run] *)

Section ReportFacts.

Context {W poc : Type}.
Variable env : @Collaborators W poc.
Variable self : @Core poc.

Lemma pure_output_ret {A} (a : A) : pure_output (@ret W poc A a).
Proof. now exists (Ok a), []. Qed.

Lemma pure_output_lift {A} (r : outcome A) : pure_output (@lift W poc A r).
Proof. now exists r, []. Qed.

Lemma pure_output_print text : pure_output (@print W poc text).
Proof. now exists (Ok tt), [Print text]. Qed.

Lemma pure_output_bind {A B} (m : @M W poc A) (k : A -> @M W poc B) :
  pure_output m -> (forall a, pure_output (k a)) -> pure_output (bind m k).
Proof.
  intros (r & tr & Hm) Hk. destruct r as [a | e].
  - destruct (Hk a) as (r2 & tr2 & Hka). exists r2, (tr ++ tr2).
    intros w. unfold bind. now rewrite Hm, Hka.
  - exists (Raise e), tr. intros w. unfold bind. now rewrite Hm.
Qed.

Lemma pure_output_for_each {A} (xs : list A) (body : A -> @M W poc unit) :
  (forall x, pure_output (body x)) -> pure_output (for_each xs body).
Proof.
  intros Hbody. induction xs as [| x rest IH]; simpl.
  - apply pure_output_ret.
  - apply pure_output_bind; auto.
Qed.

Lemma print_dev_pure results_max d :
  pure_output (print_dev env results_max d).
Proof.
  unfold print_dev, print_vul.
  apply pure_output_bind; [apply pure_output_print | intros _].
  apply pure_output_for_each. intros v.
  apply pure_output_bind; [apply pure_output_lift | intros n].
  apply pure_output_print.
Qed.

Lemma render_pure lines : pure_output (render env lines).
Proof.
  unfold render. destruct (Py.truthy_list _); [| apply pure_output_ret].
  repeat (apply pure_output_bind;
          [first [apply pure_output_lift | apply pure_output_print
                 | apply pure_output_for_each; intros; apply print_dev_pure]
          | intros ?]).
  apply pure_output_print.
Qed.

Lemma render_prints lines w :
  Forall (fun ev => is_print ev = true) (snd (render env lines w)).
Proof.
  assert (Happ : forall tr1 tr2 : list (@event poc),
             Forall (fun ev => is_print ev = true) tr1 ->
             Forall (fun ev => is_print ev = true) tr2 ->
             Forall (fun ev => is_print ev = true) (tr1 ++ tr2))
    by (intros; apply Forall_app; auto).
  assert (Hdev : forall results_max d w1,
             Forall (fun ev => is_print ev = true)
                    (snd (print_dev env results_max d w1))).
  { intros results_max d w1. unfold print_dev, print_vul.
    apply invariant_bind;
      [exact Happ | repeat constructor | intros _ w2].
    apply invariant_for_each; [constructor | exact Happ |]. intros v w3.
    apply invariant_bind;
      [exact Happ | constructor | intros n w4].
    repeat constructor. }
  unfold render. destruct (Py.truthy_list _); [| constructor].
  apply invariant_bind;
    [exact Happ | constructor | intros results w1].
  do 2 (apply invariant_bind;
        [exact Happ | repeat constructor | intros _ ?]).
  apply invariant_bind;
    [exact Happ
    | apply invariant_for_each; [constructor | exact Happ | auto]
    | intros _ w4].
  do 2 (apply invariant_bind;
        [exact Happ | repeat constructor | intros _ ?]).
  repeat constructor.
Qed.

End ReportFacts.

(** C9: [report] only reads.  It leaves the world as it found it, its
    events are the two reads of the results file and prints (no call to
    [Data], to the pipeline or to the logger), and its outcome and output
    are the same in any two worlds that agree on the results file, so the
    same when it is run twice on an unchanged file. *)
Theorem report_is_a_pure_read {W poc} (env : @Collaborators W poc) self w w' :
  path_exists env (results_file self) w'
  = path_exists env (results_file self) w ->
  open_read env (results_file self) w' = open_read env (results_file self) w ->
  exists r tr,
    report env self w = (r, w, tr)
    /\ report env self w' = (r, w', tr)
    /\ Forall (fun ev => is_read_or_print ev = true) tr.
Proof.
  intros Hex Hrd. unfold report, bind, observe. cbn. rewrite Hex.
  destruct (path_exists env (results_file self) w);
    [| exists (Ok tt), [PathExists (results_file self) false];
       repeat split; repeat constructor].
  unfold observe_outcome. cbn. rewrite Hrd.
  destruct (open_read env (results_file self) w) as [lines | e];
    [| exists (Raise e),
         [PathExists (results_file self) true;
          OpenRead (results_file self) (Raise e)];
       repeat split; repeat constructor].
  destruct (render_pure env lines) as (r & tr & Hrender).
  pose proof (render_prints env lines w) as Hprints.
  rewrite !Hrender. rewrite Hrender in Hprints. cbn [snd] in Hprints.
  exists r, (PathExists (results_file self) true
             :: OpenRead (results_file self) (Ok lines) :: tr).
  repeat split. repeat constructor.
  eapply Forall_impl; [| exact Hprints].
  intros [] Hev; simpl in *; auto; discriminate.
Qed.

(** The witness of C9: the report of a results file of five findings, run
    twice. *)
Lemma report_is_a_pure_read_witness :
  exists r tr,
    report (Demo.env Demo.camera) (Demo.core FeedEnd) Demo.results_log
    = (r, Demo.results_log, tr)
    /\ report (Demo.env Demo.camera) (Demo.core FeedEnd) Demo.results_log
       = (r, Demo.results_log, tr)
    /\ Forall (fun ev => is_read_or_print ev = true) tr.
Proof.
  exact (report_is_a_pure_read (Demo.env Demo.camera) (Demo.core FeedEnd)
           Demo.results_log Demo.results_log eq_refl eq_refl).
Defined.

(** C8, as stated, fails: the generator of the targets raises
    [SystemExit]; it is neither an interrupt nor an instance of
    [Exception], no [except] clause of [run] matches it, and it escapes
    the run loop, and [run], without being logged. *)
Lemma run_lets_system_exit_escape :
  run_loop (Demo.env Demo.camera) (Demo.gevent false)
           (Demo.core (FeedRaise (BaseException "SystemExit")))
           Demo.results_log
  = (Raise (BaseException "SystemExit"), Demo.results_log, [])
  /\ fst (fst (run (Demo.env Demo.camera) (Demo.gevent false)
                   (Demo.core (FeedRaise (BaseException "SystemExit")))
                   Demo.results_log))
     = Raise (BaseException "SystemExit").
Proof. split; reflexivity. Qed.

(** C8, amended: the [try] statement of [run] lets neither a user
    interrupt nor an error (an instance of [Exception]) escape.  An
    interrupt during the scan ends it there, without a word and without
    the report; an error in the scan or in the report is given to
    [logger.error], and the run ends normally.  Any other exception (a
    [BaseException] that is neither, as [SystemExit]) matches no clause:
    it escapes as it is, without being logged, and it is the only way the
    statement raises. *)
Theorem run_loop_stops_cleanly {W poc} (env : @Collaborators W poc)
        (gev : @Gevent W poc) self w r w' tr :
  run_loop env gev self w = (r, w', tr) ->
  r <> Raise KeyboardInterrupt
  /\ (forall name, r <> Raise (Exception name))
  /\ (forall w1 tr1,
         scanning env gev self w = (Raise KeyboardInterrupt, w1, tr1) ->
         r = Ok tt /\ w' = w1 /\ tr = tr1)
  /\ (forall name w1 tr1,
         scanning env gev self w = (Raise (Exception name), w1, tr1) ->
         r = Ok tt
         /\ w' = logger_error env (Exception name) w1
         /\ tr = tr1 ++ [LoggerError (Exception name)])
  /\ (forall name w1 tr1 w2 tr2,
         scanning env gev self w = (Ok tt, w1, tr1) ->
         report env self w1 = (Raise (Exception name), w2, tr2) ->
         r = Ok tt
         /\ w' = logger_error env (Exception name) w2
         /\ tr = (tr1 ++ tr2) ++ [LoggerError (Exception name)])
  /\ (forall name w1 tr1,
         scanning env gev self w = (Raise (BaseException name), w1, tr1) ->
         r = Raise (BaseException name) /\ w' = w1 /\ tr = tr1)
  /\ (forall name w1 tr1 w2 tr2,
         scanning env gev self w = (Ok tt, w1, tr1) ->
         report env self w1 = (Raise (BaseException name), w2, tr2) ->
         r = Raise (BaseException name) /\ w' = w2 /\ tr = tr1 ++ tr2)
  /\ (r = Ok tt \/ exists name, r = Raise (BaseException name)).
Proof.
  unfold run_loop, try_except, bind. intros H.
  destruct (scanning env gev self w) as [[[[] | e] ws] trs];
    [destruct (report env self ws) as [[[[] | e] wr] trr] eqn:Hr |];
    try (destruct e as [| name | name]); simpl in H;
    inversion H; subst; clear H;
    (split; [discriminate |]); (split; [intros; discriminate |]);
    repeat match goal with
      | |- _ /\ _ => split
      | |- _ \/ _ => first [left; reflexivity | right; eexists; reflexivity]
      end;
    intros;
    repeat match goal with
      | Heq : (_, _, _) = (_, _, _) |- _ => inversion Heq; subst; clear Heq
      | Heq : report _ _ ?w1 = _, Hr' : report _ _ ?w1 = _ |- _ =>
          rewrite Hr' in Heq
      end;
    repeat split; try rewrite app_nil_r; reflexivity.
Qed.

(** The witness of C8, amended: a results file of five findings is there,
    and the user interrupts [scan_pool.join()] after one target was
    scanned; the run ends normally and nothing is printed, where the same
    run without the interrupt prints the nine lines of the report. *)
Lemma run_loop_stops_cleanly_witness :
  fst (fst (run_loop (Demo.env Demo.camera) (Demo.gevent true)
                     (Demo.core (FeedYield "10.0.0.1:80" FeedEnd))
                     Demo.results_log))
  = Ok tt
  /\ count is_print
       (snd (run_loop (Demo.env Demo.camera) (Demo.gevent true)
                      (Demo.core (FeedYield "10.0.0.1:80" FeedEnd))
                      Demo.results_log))
     = 0
  /\ count is_print
       (snd (run_loop (Demo.env Demo.camera) (Demo.gevent false)
                      (Demo.core (FeedYield "10.0.0.1:80" FeedEnd))
                      Demo.results_log))
     = 9.
Proof.
  destruct (run_loop_stops_cleanly
              (Demo.env Demo.camera) (Demo.gevent true)
              (Demo.core (FeedYield "10.0.0.1:80" FeedEnd)) Demo.results_log
              _ _ _ eq_refl) as (_ & _ & Hint & _).
  destruct (Hint _ _ eq_refl) as (Hr & _ & Htr).
  split; [exact Hr |]. split; reflexivity.
Defined.

(** ** The claim about the bars of [report] *)

Lemma block_num_is_floor (vul_count results_max : nat) :
  1 <= vul_count <= results_max ->
  (Z.of_nat results_max <= 2 ^ 46)%Z ->
  block_num vul_count results_max
  = Ok (Z.of_nat (25 * vul_count / results_max)).
Proof.
  intros [Hc Hcm] Hm. unfold block_num, Py.true_div, Py.mul_int, Py.prec, Py.emax.
  destruct results_max as [| m]; [lia |].
  destruct vul_count as [| c]; [lia |].
  change (Z.of_nat (S c)) with (Z.pos (Pos.of_succ_nat c)).
  change (Z.of_nat (S m)) with (Z.pos (Pos.of_succ_nat m)) in *.
  rewrite FloatFacts.int_div_mul_25 by lia.
  now rewrite Nat2Z.inj_div, Nat2Z.inj_mul.
Qed.

Lemma incr_counted vul d :
  Forall (fun v : string * nat => 1 <= snd v) d ->
  Forall (fun v : string * nat => 1 <= snd v) (incr vul d).
Proof.
  induction 1 as [| [k n] rest Hk Hrest IH]; simpl.
  - repeat constructor.
  - destruct (String.eqb k vul); constructor; simpl in *; auto; lia.
Qed.

Lemma tally_counted dev vul t : counted t -> counted (tally dev vul t).
Proof.
  unfold counted. induction 1 as [| [k d] rest Hk Hrest IH]; simpl.
  - repeat constructor.
  - destruct (String.eqb k dev); constructor; simpl in *; auto.
    now apply incr_counted.
Qed.

Lemma group_items_counted items : forall t results,
  counted t -> group_items items t = Ok results -> counted results.
Proof.
  induction items as [| i rest IH]; intros t results Ht H;
    cbn [group_items] in H.
  - now inversion H; subst.
  - destruct (nth_error i 2); [| discriminate H].
    eapply IH; [| exact H]. now apply tally_counted.
Qed.

Lemma list_max_ge l x : In x l -> x <= list_max l.
Proof.
  induction l as [| y l IH]; simpl; [contradiction |].
  intros [-> | Hin]; [lia |]. apply IH in Hin. lia.
Qed.

(** C5, as stated, fails: for a count of 2 under a maximum of 3 the bar of
    [report] has 16 blocks, where rounding 16.67 gives 17. *)
Lemma bar_is_not_rounded :
  block_num 2 3 = Ok 16%Z
  /\ rounded_bar 2 3 = Some 17%Z
  /\ In (Print (vul_line "disclosure" 16 2))
        (snd (report (Demo.env Demo.camera) (Demo.core FeedEnd)
                     Demo.results_log)).
Proof.
  split; [reflexivity |]. split; [reflexivity |].
  vm_compute. repeat (first [left; reflexivity | right]).
Qed.

(** C5, amended: each bar of [report] has [int(count / max * 25)] blocks,
    the float product cut toward zero, which is the integer quotient of
    [25 * count] by [max] (for a maximum of at most 2^46); [count] is the
    count of the vulnerability in its device group and [max] the greatest
    count of all groups. *)
Theorem bars_are_truncated {W poc} (env : @Collaborators W poc)
        lines results dev vuls vul_name vul_count (w : W) :
  group_items (parse_items lines) [] = Ok results ->
  (Z.of_nat (list_max (all_counts results)) <= 2 ^ 46)%Z ->
  In (dev, vuls) results ->
  In (vul_name, vul_count) vuls ->
  let results_max := list_max (all_counts results) in
  block_num vul_count results_max
  = Ok (Z.of_nat (25 * vul_count / results_max))
  /\ print_vul env results_max (vul_name, vul_count) w
     = (Ok tt, w,
        [Print (color_green env
                  (vul_line vul_name
                     (Z.of_nat (25 * vul_count / results_max)) vul_count))]).
Proof.
  intros Hgroup Hmax Hdev Hvul results_max.
  assert (Hblock : block_num vul_count results_max
                   = Ok (Z.of_nat (25 * vul_count / results_max))).
  { apply block_num_is_floor; [| exact Hmax]. split.
    - apply group_items_counted in Hgroup; [| constructor].
      unfold counted in Hgroup. rewrite Forall_forall in Hgroup.
      specialize (Hgroup _ Hdev). rewrite Forall_forall in Hgroup.
      exact (Hgroup _ Hvul).
    - apply list_max_ge. unfold all_counts. apply in_flat_map.
      exists (dev, vuls). split; [exact Hdev |].
      apply in_map_iff. now exists (vul_name, vul_count). }
  split; [exact Hblock |].
  unfold print_vul, bind, lift, print. cbn [fst snd]. now rewrite Hblock.
Qed.

(** The witness of C5, amended: the second group of the results file. *)
Lemma bars_are_truncated_witness :
  block_num 2 3 = Ok 16%Z.
Proof.
  destruct (bars_are_truncated
              (Demo.env Demo.camera)
              ["10.0.0.1,80,cam-x,admin,12345,weak-password";
               "10.0.0.2,80,cam-x,admin,12345,weak-password";
               "10.0.0.3,80,dvr-y,,,disclosure";
               "10.0.0.4,80,cam-x,admin,12345,weak-password";
               "10.0.0.5,80,dvr-y,,,disclosure"]
              [("cam", [("weak-password", 3)]); ("dvr", [("disclosure", 2)])]
              "dvr" [("disclosure", 2)] "disclosure" 2 None)
    as [H _].
  - reflexivity.
  - vm_compute. discriminate.
  - right. left. reflexivity.
  - left. reflexivity.
  - exact H.
Defined.

(** * Further properties *)

(** ** The table that [report] builds *)

Lemma get_count_incr vul d vul' :
  get_count vul' (incr vul d)
  = get_count vul' d + (if String.eqb vul vul' then 1 else 0).
Proof.
  induction d as [| [k n] rest IH]; simpl.
  - destruct (String.eqb vul vul'); reflexivity.
  - destruct (String.eqb_spec k vul) as [-> | Hk]; simpl.
    + destruct (String.eqb_spec vul vul'); lia.
    + destruct (String.eqb_spec k vul') as [-> | Hk']; [| exact IH].
      destruct (String.eqb_spec vul vul'); [congruence | lia].
Qed.

Lemma table_count_tally dev vul t dev' vul' :
  table_count dev' vul' (tally dev vul t)
  = table_count dev' vul' t
    + (if String.eqb dev dev' && String.eqb vul vul' then 1 else 0).
Proof.
  unfold table_count. induction t as [| [k d] rest IH]; simpl.
  - destruct (String.eqb_spec dev dev'); simpl; [| reflexivity].
    destruct (String.eqb vul vul'); reflexivity.
  - destruct (String.eqb_spec k dev) as [-> | Hk]; simpl.
    + destruct (String.eqb_spec dev dev'); simpl; [| lia].
      apply get_count_incr.
    + destruct (String.eqb_spec k dev') as [-> | Hk']; [| exact IH].
      destruct (String.eqb_spec dev dev'); [congruence | simpl; lia].
Qed.

Lemma group_items_counts items dev vul : forall t results,
  group_items items t = Ok results ->
  table_count dev vul results
  = table_count dev vul t
    + List.length (filter (item_matches dev vul) items).
Proof.
  induction items as [| i rest IH]; intros t results H; cbn [group_items] in H.
  - inversion H; subst. simpl. lia.
  - destruct (nth_error i 2) as [field |] eqn:Hf; [| discriminate H].
    apply IH in H. rewrite H, table_count_tally.
    assert (Hdev : item_device i = device_of field).
    { unfold item_device. now rewrite (nth_error_nth _ _ _ Hf). }
    simpl filter. unfold item_matches at 2. rewrite Hdev.
    destruct (String.eqb (device_of field) dev && String.eqb (Py.last_item i) vul);
      simpl; lia.
Qed.

Lemma list_sum_app l1 l2 : list_sum (l1 ++ l2) = list_sum l1 + list_sum l2.
Proof. induction l1; simpl; lia. Qed.

Lemma list_sum_incr vul d :
  list_sum (map snd (incr vul d)) = S (list_sum (map snd d)).
Proof.
  induction d as [| [k n] rest IH]; simpl; [reflexivity |].
  destruct (String.eqb k vul); simpl; lia.
Qed.

Lemma list_sum_tally dev vul t :
  list_sum (all_counts (tally dev vul t)) = S (list_sum (all_counts t)).
Proof.
  unfold all_counts. induction t as [| [k d] rest IH]; simpl; [reflexivity |].
  destruct (String.eqb k dev); simpl; rewrite !list_sum_app; simpl.
  - rewrite list_sum_incr. lia.
  - unfold all_counts in IH. lia.
Qed.

Lemma group_items_sum items : forall t results,
  group_items items t = Ok results ->
  list_sum (all_counts results) = list_sum (all_counts t) + List.length items.
Proof.
  induction items as [| i rest IH]; intros t results H; cbn [group_items] in H.
  - inversion H; subst. simpl. lia.
  - destruct (nth_error i 2); [| discriminate H].
    apply IH in H. rewrite H, list_sum_tally. simpl. lia.
Qed.

Lemma all_counts_device_sums t :
  list_sum (map (fun dev => list_sum (map snd (snd dev))) t)
  = list_sum (all_counts t).
Proof.
  unfold all_counts. induction t as [| d rest IH]; simpl; [reflexivity |].
  rewrite list_sum_app. lia.
Qed.

(** X1: the totals of [report] add up: the sum of the totals printed for
    the devices, which is the sum of all counts, is the number of parsed
    lines, the figure printed as [sum]. *)
Theorem report_totals_add_up items results :
  group_items items [] = Ok results ->
  list_sum (map (fun dev => list_sum (map snd (snd dev))) results)
  = List.length items
  /\ list_sum (all_counts results) = List.length items.
Proof.
  intros H. rewrite all_counts_device_sums.
  now rewrite (group_items_sum items [] results H).
Qed.

(** The witness of X1: the five findings of the results file. *)
Lemma report_totals_add_up_witness :
  list_sum (all_counts Cases.results) = List.length Cases.items.
Proof.
  exact (proj2 (report_totals_add_up Cases.items Cases.results eq_refl)).
Defined.

Lemma keys_incr vul d :
  map fst (incr vul d) = add_key (map fst d) vul.
Proof.
  unfold add_key. induction d as [| [k n] rest IH]; simpl; [reflexivity |].
  destruct (String.eqb_spec k vul) as [-> | Hk]; simpl.
  - destruct (string_dec vul vul); [reflexivity | congruence].
  - rewrite IH. destruct (string_dec k vul); [congruence |].
    destruct (in_dec string_dec vul (map fst rest)); reflexivity.
Qed.

Lemma keys_tally dev vul t :
  map fst (tally dev vul t) = add_key (map fst t) dev.
Proof.
  unfold add_key. induction t as [| [k d] rest IH]; simpl; [reflexivity |].
  destruct (String.eqb_spec k dev) as [-> | Hk]; simpl.
  - destruct (string_dec dev dev); [reflexivity | congruence].
  - rewrite IH. destruct (string_dec k dev); [congruence |].
    destruct (in_dec string_dec dev (map fst rest)); reflexivity.
Qed.

Lemma add_key_NoDup ks k : NoDup ks -> NoDup (add_key ks k).
Proof.
  intros H. unfold add_key. destruct (in_dec string_dec k ks); auto.
  apply NoDup_rev in H. rewrite <- (rev_involutive (ks ++ [k])).
  apply NoDup_rev. rewrite rev_app_distr. simpl. constructor; [| exact H].
  now rewrite <- in_rev.
Qed.

Lemma first_occurrences_snoc l x :
  first_occurrences (l ++ [x]) = add_key (first_occurrences l) x.
Proof.
  unfold first_occurrences, add_key. rewrite rev_app_distr. simpl.
  destruct (in_dec string_dec x (rev l)) as [Hin | Hin];
    destruct (in_dec string_dec x (rev (nodup string_dec (rev l))))
      as [Hin' | Hin']; try reflexivity.
  - exfalso. apply Hin'. rewrite <- in_rev. now apply nodup_In.
  - exfalso. apply Hin. rewrite <- in_rev in Hin'. now apply nodup_In in Hin'.
Qed.

Lemma group_items_keys items : forall t results,
  group_items items t = Ok results ->
  map fst results = fold_left add_key (map item_device items) (map fst t).
Proof.
  induction items as [| i rest IH]; intros t results H; cbn [group_items] in H.
  - now inversion H; subst.
  - destruct (nth_error i 2) as [field |] eqn:Hf; [| discriminate H].
    apply IH in H. rewrite H, keys_tally. cbn [map fold_left].
    unfold item_device. rewrite (nth_error_nth _ _ EmptyString Hf).
    reflexivity.
Qed.

Lemma fold_add_key_first_occurrences l :
  fold_left add_key l [] = first_occurrences l.
Proof.
  induction l as [| x l IH] using rev_ind; [reflexivity |].
  now rewrite fold_left_app, first_occurrences_snoc, IH.
Qed.

(** X2: the devices of [report] come in the order in which the results
    file first names them, each once. *)
Theorem report_devices_in_order_of_discovery items results :
  group_items items [] = Ok results ->
  map fst results = first_occurrences (map item_device items)
  /\ NoDup (map fst results).
Proof.
  intros H. apply group_items_keys in H. simpl in H.
  rewrite fold_add_key_first_occurrences in H. split; [exact H |].
  rewrite H. unfold first_occurrences. apply NoDup_rev, NoDup_nodup.
Qed.

(** The witness of X2: the cam comes before the dvr. *)
Lemma report_devices_in_order_of_discovery_witness :
  map fst Cases.results = first_occurrences (map item_device Cases.items)
  /\ NoDup (map fst Cases.results).
Proof.
  exact (report_devices_in_order_of_discovery
           Cases.items Cases.results eq_refl).
Defined.

Lemma incr_keys_NoDup vul d : NoDup (map fst d) -> NoDup (map fst (incr vul d)).
Proof. intros H. rewrite keys_incr. now apply add_key_NoDup. Qed.

Lemma tally_groups_NoDup dev vul t :
  Forall (fun d : string * counter => NoDup (map fst (snd d))) t ->
  Forall (fun d : string * counter => NoDup (map fst (snd d)))
         (tally dev vul t).
Proof.
  induction 1 as [| [k d] rest Hd Hrest IH]; simpl.
  - repeat constructor. intros [].
  - destruct (String.eqb k dev); constructor; simpl in *; auto.
    now apply incr_keys_NoDup.
Qed.

Lemma group_items_groups_NoDup items : forall t results,
  Forall (fun d : string * counter => NoDup (map fst (snd d))) t ->
  group_items items t = Ok results ->
  Forall (fun d : string * counter => NoDup (map fst (snd d))) results.
Proof.
  induction items as [| i rest IH]; intros t results Ht H; cbn [group_items] in H.
  - now inversion H; subst.
  - destruct (nth_error i 2); [| discriminate H].
    eapply IH; [| exact H]. now apply tally_groups_NoDup.
Qed.

Lemma get_group_tally dev vul t dev' :
  get_group dev' (tally dev vul t)
  = if String.eqb dev dev' then incr vul (get_group dev' t)
    else get_group dev' t.
Proof.
  induction t as [| [k d] rest IH]; simpl.
  - destruct (String.eqb dev dev'); reflexivity.
  - destruct (String.eqb_spec k dev) as [-> | Hk]; simpl.
    + destruct (String.eqb dev dev'); reflexivity.
    + destruct (String.eqb_spec k dev') as [-> | Hk']; [| exact IH].
      destruct (String.eqb_spec dev dev'); [congruence | reflexivity].
Qed.

Lemma group_items_inner_keys items dev : forall t results,
  group_items items t = Ok results ->
  map fst (get_group dev results)
  = fold_left add_key
      (map Py.last_item
           (filter (fun i => String.eqb (item_device i) dev) items))
      (map fst (get_group dev t)).
Proof.
  induction items as [| i rest IH]; intros t results H; cbn [group_items] in H.
  - now inversion H; subst.
  - destruct (nth_error i 2) as [field |] eqn:Hf; [| discriminate H].
    apply IH in H. rewrite H, get_group_tally. cbn [filter].
    assert (Hdev : item_device i = device_of field).
    { unfold item_device. now rewrite (nth_error_nth _ _ EmptyString Hf). }
    rewrite Hdev. destruct (String.eqb (device_of field) dev); [| reflexivity].
    cbn [map fold_left]. now rewrite keys_incr.
Qed.

Lemma get_group_In (t : table) k d :
  NoDup (map fst t) -> In (k, d) t -> get_group k t = d.
Proof.
  induction t as [| [k' d'] rest IH]; [contradiction |].
  cbn [map fst]. intros Hnd Hin. inversion Hnd as [| ? ? Hk' Hrest]; subst.
  cbn [get_group]. destruct Hin as [Heq | Hin].
  - inversion Heq; subst. now rewrite String.eqb_refl.
  - destruct (String.eqb_spec k' k) as [-> | _]; [| auto].
    exfalso. apply Hk'. apply in_map_iff. now exists (k, d).
Qed.

Lemma get_count_In (d : counter) k n :
  NoDup (map fst d) -> In (k, n) d -> get_count k d = n.
Proof.
  induction d as [| [k' n'] rest IH]; [contradiction |].
  cbn [map fst]. intros Hnd Hin. inversion Hnd as [| ? ? Hk' Hrest]; subst.
  cbn [get_count]. destruct Hin as [Heq | Hin].
  - inversion Heq; subst. now rewrite String.eqb_refl.
  - destruct (String.eqb_spec k' k) as [-> | _]; [| auto].
    exfalso. apply Hk'. apply in_map_iff. now exists (k, n).
Qed.

Lemma table_keys_NoDup items results :
  group_items items [] = Ok results -> NoDup (map fst results).
Proof.
  intros H. apply group_items_keys in H. simpl in H.
  rewrite fold_add_key_first_occurrences in H.
  rewrite H. unfold first_occurrences. apply NoDup_rev, NoDup_nodup.
Qed.

(** X3: the counts of [report]: the count of a vulnerability printed
    under a device is the number of parsed lines whose third field starts
    with that device and whose last field is that vulnerability; and the
    count held for any device and vulnerability is that number, zero
    where there is no entry. *)
Theorem report_counts_matching_lines items results dev vul :
  group_items items [] = Ok results ->
  table_count dev vul results
  = List.length (filter (item_matches dev vul) items)
  /\ (forall vuls n,
         In (dev, vuls) results -> In (vul, n) vuls ->
         n = List.length (filter (item_matches dev vul) items)).
Proof.
  intros H.
  assert (Hcount : table_count dev vul results
                   = List.length (filter (item_matches dev vul) items))
    by now rewrite (group_items_counts items dev vul [] results H).
  split; [exact Hcount |]. intros vuls n Hdev Hvul. rewrite <- Hcount.
  unfold table_count.
  rewrite (get_group_In results dev vuls (table_keys_NoDup _ _ H) Hdev).
  symmetry. apply get_count_In; [| exact Hvul].
  pose proof (group_items_groups_NoDup items [] results (Forall_nil _) H)
    as Hall.
  rewrite Forall_forall in Hall. exact (Hall _ Hdev).
Qed.

(** The witness of X3: the three lines of the results file that name a cam with
    a weak password. *)
Lemma report_counts_matching_lines_witness :
  table_count "cam" "weak-password" Cases.results
  = List.length (filter (item_matches "cam" "weak-password") Cases.items)
  /\ List.length (filter (item_matches "cam" "weak-password") Cases.items) = 3.
Proof.
  split; [| reflexivity].
  exact (proj1 (report_counts_matching_lines
                  Cases.items Cases.results "cam" "weak-password" eq_refl)).
Defined.

(** X4: under a device of [report] the vulnerabilities come in the order
    in which the lines of that device first name them, each once. *)
Theorem report_vulnerabilities_in_order_of_discovery items results dev vuls :
  group_items items [] = Ok results ->
  In (dev, vuls) results ->
  map fst vuls
  = first_occurrences
      (map Py.last_item
           (filter (fun i => String.eqb (item_device i) dev) items))
  /\ NoDup (map fst vuls).
Proof.
  intros H Hdev.
  pose proof (group_items_inner_keys items dev [] results H) as Hkeys.
  rewrite (get_group_In results dev vuls (table_keys_NoDup _ _ H) Hdev) in Hkeys.
  simpl in Hkeys. rewrite fold_add_key_first_occurrences in Hkeys.
  split; [exact Hkeys |].
  rewrite Hkeys. unfold first_occurrences. apply NoDup_rev, NoDup_nodup.
Qed.

(** The witness of X4: the one vulnerability of the cam. *)
Lemma report_vulnerabilities_in_order_of_discovery_witness :
  map fst [("weak-password", 3)]
  = first_occurrences
      (map Py.last_item
           (filter (fun i => String.eqb (item_device i) "cam") Cases.items))
  /\ NoDup (map fst [("weak-password", 3)]).
Proof.
  exact (report_vulnerabilities_in_order_of_discovery
           Cases.items Cases.results "cam" [("weak-password", 3)]
           eq_refl (or_introl eq_refl)).
Defined.

(** ** The device of a line *)

Lemma split_without sep s :
  has_char sep s = false -> Py.split sep s = [s].
Proof.
  induction s as [| c s IH]; [reflexivity |]. cbn [has_char Py.split].
  intros H. apply orb_false_elim in H. destruct H as [Hc Hs].
  rewrite Hc, (IH Hs). reflexivity.
Qed.

Lemma split_at_first sep s rest :
  has_char sep s = false ->
  Py.split sep (s ++ String sep rest)%string = s :: Py.split sep rest.
Proof.
  induction s as [| c s IH]; cbn [has_char Py.split String.append].
  - intros _. now rewrite Ascii.eqb_refl.
  - intros H. apply orb_false_elim in H. destruct H as [Hc Hs].
    rewrite Hc, (IH Hs). reflexivity.
Qed.

(** X5: the device under which [report] counts a line is the product
    name up to its first hyphen, so products that differ only after the
    hyphen are counted as one device; a name without a hyphen is its own
    device. *)
Theorem device_is_the_name_before_the_hyphen dev model :
  has_char "-" dev = false ->
  device_of dev = dev
  /\ device_of (dev ++ "-" ++ model) = dev.
Proof.
  intros H. unfold device_of. split.
  - now rewrite (split_without _ _ H).
  - change (dev ++ "-" ++ model)%string with (dev ++ String "-" model)%string.
    now rewrite (split_at_first _ _ _ H).
Qed.

(** The witness of X5: the cam of model x. *)
Lemma device_is_the_name_before_the_hyphen_witness :
  device_of "cam-x" = "cam".
Proof.
  exact (proj2 (device_is_the_name_before_the_hyphen "cam" "x" eq_refl)).
Defined.

(** ** The bars of [report] *)

Lemma list_max_le_sum l : list_max l <= list_sum l.
Proof. induction l as [| x l IH]; simpl; lia. Qed.

Lemma list_max_attained l : l <> [] -> In (list_max l) l.
Proof.
  induction l as [| x l IH]; [congruence |]. intros _.
  destruct l as [| y l].
  - left. simpl. lia.
  - change (list_max (x :: y :: l)) with (Nat.max x (list_max (y :: l))).
    destruct (Nat.max_spec x (list_max (y :: l))) as [[_ ->] | [_ ->]].
    + right. apply IH. discriminate.
    + now left.
Qed.

Lemma all_counts_positive items results :
  group_items items [] = Ok results ->
  Forall (fun c => 1 <= c) (all_counts results).
Proof.
  intros H. apply group_items_counted in H; [| constructor].
  unfold counted in H. unfold all_counts.
  induction H as [| d rest Hd Hrest IH]; simpl; [constructor |].
  apply Forall_app. split; [| exact IH].
  clear - Hd. induction Hd; simpl; constructor; auto.
Qed.

Lemma all_counts_bounded items results :
  group_items items [] = Ok results ->
  list_max (all_counts results) <= List.length items.
Proof.
  intros H. apply group_items_sum in H. simpl in H. rewrite <- H.
  apply list_max_le_sum.
Qed.

(** X6: the bars of [report] are between 0 and 25 blocks long; a bar has
    all 25 blocks exactly when its vulnerability has the greatest count of
    the file, and a report has at least one such bar. *)
Theorem report_bars_fill_the_scale items results :
  group_items items [] = Ok results ->
  items <> [] ->
  (Z.of_nat (List.length items) <= 2 ^ 46)%Z ->
  let results_max := list_max (all_counts results) in
  Forall (fun c => exists n,
              block_num c results_max = Ok n
              /\ (0 <= n <= 25)%Z
              /\ (n = 25%Z <-> c = results_max))
         (all_counts results)
  /\ Exists (fun c => block_num c results_max = Ok 25%Z) (all_counts results).
Proof.
  intros H Hitems Hlen results_max.
  pose proof (all_counts_positive _ _ H) as Hpos.
  pose proof (all_counts_bounded _ _ H) as Hmax.
  assert (Hne : all_counts results <> []).
  { intros Hnil. apply group_items_sum in H. rewrite Hnil in H. simpl in H.
    destruct items; [congruence | simpl in H; lia]. }
  assert (Hfloor : forall c, In c (all_counts results) ->
             1 <= c <= results_max
             /\ block_num c results_max
                = Ok (Z.of_nat (25 * c / results_max))).
  { intros c Hc. rewrite Forall_forall in Hpos.
    assert (Hc' : 1 <= c <= results_max)
      by (split; [now apply Hpos | now apply list_max_ge]).
    split; [exact Hc' |]. apply block_num_is_floor; [exact Hc' |].
    fold results_max in Hmax. lia. }
  split.
  - apply Forall_forall. intros c Hc. destruct (Hfloor c Hc) as [Hc' ->].
    exists (Z.of_nat (25 * c / results_max)). split; [reflexivity |].
    assert (Hq : 25 * c / results_max <= 25).
    { apply Nat.Div0.div_le_upper_bound. lia. }
    split; [lia |]. split.
    + intros Hn. assert (Hq' : 25 * c / results_max = 25) by lia.
      assert (25 * results_max <= 25 * c); [| lia].
      rewrite <- Hq' at 1. rewrite Nat.mul_comm.
      apply Nat.Div0.mul_div_le.
    + intros ->. rewrite Nat.div_mul by lia. reflexivity.
  - apply Exists_exists. exists results_max.
    assert (Hin : In results_max (all_counts results))
      by now apply list_max_attained.
    split; [exact Hin |]. destruct (Hfloor _ Hin) as [Hc' ->].
    rewrite Nat.div_mul by lia. reflexivity.
Qed.

(** The witness of X6: the weak password of the cam, counted three times, has
    the full bar. *)
Lemma report_bars_fill_the_scale_witness :
  Exists (fun c => block_num c (list_max (all_counts Cases.results))
                   = Ok 25%Z)
         (all_counts Cases.results).
Proof.
  apply (report_bars_fill_the_scale Cases.items Cases.results).
  - reflexivity.
  - vm_compute. discriminate.
  - vm_compute. discriminate.
Defined.

(** ** Runs of [report] *)

Section ReportRuns.

Context {W poc : Type}.
Variable env : @Collaborators W poc.
Variable self : @Core poc.

Lemma for_each_prints {A} (xs : list A) (body : A -> @M W poc unit)
      (out : A -> list string) :
  (forall x, In x xs -> forall w, body x w = (Ok tt, w, map Print (out x))) ->
  forall w, for_each xs body w = (Ok tt, w, map Print (flat_map out xs)).
Proof.
  induction xs as [| x rest IH]; intros Hbody w; [reflexivity |].
  cbn [for_each flat_map]. unfold bind.
  rewrite (Hbody x (or_introl eq_refl)).
  rewrite IH by (intros y Hy; apply Hbody; now right).
  now rewrite map_app.
Qed.

Lemma flat_map_single {A B} (f : A -> B) (l : list A) :
  flat_map (fun x => [f x]) l = map f l.
Proof. induction l as [| x l IH]; simpl; congruence. Qed.

Lemma print_dev_run results_max (d : string * counter) w :
  Forall (fun v : string * nat => 1 <= snd v <= results_max) (snd d) ->
  (Z.of_nat results_max <= 2 ^ 46)%Z ->
  print_dev env results_max d w
  = (Ok tt, w,
     map Print (dev_output (color_red env) (color_green env) results_max d)).
Proof.
  intros Hd Hmax. unfold print_dev, dev_output, bind, print.
  rewrite (for_each_prints (snd d) (print_vul env results_max)
             (fun v => [vul_output (color_green env) results_max v])).
  - now rewrite flat_map_single.
  - intros v Hv w1. rewrite Forall_forall in Hd.
    unfold print_vul, bind, lift, print, vul_output.
    now rewrite (block_num_is_floor _ _ (Hd v Hv) Hmax).
Qed.

Lemma parse_items_length lines :
  List.length (parse_items lines) <= List.length lines.
Proof.
  unfold parse_items. rewrite length_map. apply filter_length_le.
Qed.

Lemma parse_items_blank lines :
  forallb blank lines = true <-> parse_items lines = [].
Proof.
  unfold parse_items, blank. induction lines as [| l rest IH]; [easy |].
  cbn [forallb filter].
  destruct (Py.truthy_str (Py.strip l)); cbn [negb andb map]; [easy | exact IH].
Qed.

Lemma group_items_of_lines lines : forall t,
  existsb short lines = false ->
  exists results, group_items (parse_items lines) t = Ok results.
Proof.
  unfold parse_items, short, blank.
  induction lines as [| l rest IH]; intros t H; [now exists t |].
  cbn [existsb] in H. apply orb_false_elim in H. destruct H as [Hl Hrest].
  cbn [filter]. destruct (Py.truthy_str (Py.strip l)); [| auto].
  cbn [negb andb map group_items] in *. apply Nat.ltb_ge in Hl.
  destruct (Py.split "," (Py.strip l)) as [| a [| b [| c fields]]];
    simpl in Hl; try lia.
  cbn [nth_error]. auto.
Qed.

Lemma group_items_short_line lines : forall t,
  existsb short lines = true ->
  group_items (parse_items lines) t = Raise (Exception "IndexError").
Proof.
  unfold parse_items.
  induction lines as [| l rest IH]; intros t H; [discriminate H |].
  cbn [existsb] in H. cbn [filter]. unfold short at 1, blank in H.
  destruct (Py.truthy_str (Py.strip l)); cbn [negb andb orb] in H; [| auto].
  cbn [map group_items].
  destruct (nth_error (Py.split "," (Py.strip l)) 2) as [field |] eqn:Hf.
  - apply IH. destruct (Nat.ltb_spec (List.length (Py.split "," (Py.strip l))) 3)
      as [Hlt | _]; [| exact H].
    assert (Hsome : nth_error (Py.split "," (Py.strip l)) 2 <> None)
      by congruence.
    apply nth_error_Some in Hsome. lia.
  - reflexivity.
Qed.

(** The three ways [report] deals with the lines it has read. *)
Lemma render_blank lines w :
  forallb blank lines = true -> render env lines w = (Ok tt, w, []).
Proof.
  intros H. apply parse_items_blank in H. unfold render. now rewrite H.
Qed.

Lemma render_short lines w :
  existsb short lines = true ->
  render env lines w = (Raise (Exception "IndexError"), w, []).
Proof.
  intros H. pose proof (group_items_short_line lines [] H) as Hg.
  unfold render, bind, lift. rewrite Hg.
  destruct (parse_items lines); [discriminate Hg | reflexivity].
Qed.

Lemma render_table lines w :
  existsb short lines = false ->
  forallb blank lines = false ->
  (Z.of_nat (List.length lines) <= 2 ^ 46)%Z ->
  exists results,
    group_items (parse_items lines) [] = Ok results
    /\ render env lines w
       = (Ok tt, w,
          map Print
            (report_output (color_red env) (color_green env)
               (color_yellow env) results
               (List.length (parse_items lines)))).
Proof.
  intros Hshort Hblank Hlen.
  destruct (group_items_of_lines lines [] Hshort) as [results Hgroup].
  exists results. split; [exact Hgroup |].
  assert (Hitems : Py.truthy_list (parse_items lines) = true).
  { destruct (parse_items lines) eqn:Hp; [| reflexivity].
    apply parse_items_blank in Hp. congruence. }
  pose proof (all_counts_positive _ _ Hgroup) as Hpos.
  pose proof (all_counts_bounded _ _ Hgroup) as Hmax.
  pose proof (parse_items_length lines) as Hparse.
  unfold render. rewrite Hitems. unfold bind, lift, print. rewrite Hgroup.
  rewrite (for_each_prints results
             (print_dev env (list_max (all_counts results)))
             (dev_output (color_red env) (color_green env)
                (list_max (all_counts results)))).
  - unfold report_output. cbn [app map]. rewrite !map_app. reflexivity.
  - intros d Hd w1. apply print_dev_run; [| lia].
    apply Forall_forall. intros v Hv.
    assert (Hin : In (snd v) (all_counts results)).
    { unfold all_counts. apply in_flat_map. exists d. split; [exact Hd |].
      now apply in_map. }
    rewrite Forall_forall in Hpos. split; [now apply Hpos |].
    now apply list_max_ge.
Qed.

(** [report] where the results file is there and can be read. *)
Lemma report_reads lines w :
  path_exists env (results_file self) w = true ->
  open_read env (results_file self) w = Ok lines ->
  report env self w
  = (fst (fst (render env lines w)), w,
     PathExists (results_file self) true
     :: OpenRead (results_file self) (Ok lines)
     :: snd (render env lines w)).
Proof.
  intros Hex Hread. destruct (render_pure env lines) as (r & tr & Hrender).
  unfold report, bind, observe, observe_outcome.
  now rewrite Hex, Hread, Hrender.
Qed.

End ReportRuns.

(** X7: without findings [report] says nothing: when the results file is
    missing, or holds blank lines only, it returns without printing, not
    even the header. *)
Theorem report_is_silent_without_findings {W poc}
        (env : @Collaborators W poc) self w :
  path_exists env (results_file self) w = false
  \/ (exists lines,
        open_read env (results_file self) w = Ok lines
        /\ forallb blank lines = true) ->
  fst (fst (report env self w)) = Ok tt
  /\ count is_print (snd (report env self w)) = 0.
Proof.
  destruct (path_exists env (results_file self) w) eqn:Hex.
  - intros [Hmiss | (lines & Hread & Hblank)]; [discriminate Hmiss |].
    rewrite (report_reads env self lines w Hex Hread).
    rewrite (render_blank env lines w Hblank). split; reflexivity.
  - intros _. unfold report, bind, observe. rewrite Hex. split; reflexivity.
Qed.

(** The witness of X7: a results file of two blank lines. *)
Lemma report_is_silent_without_findings_witness :
  fst (fst (report (Demo.env Demo.camera) (Demo.core FeedEnd)
                   Cases.blank_log)) = Ok tt
  /\ count is_print
       (snd (report (Demo.env Demo.camera) (Demo.core FeedEnd)
                    Cases.blank_log)) = 0.
Proof.
  apply report_is_silent_without_findings. right.
  exists (Cases.lines_of Cases.blank_log). split; reflexivity.
Defined.

(** X8: one short line spoils the report: when a line of the results file
    is not blank and has fewer than three fields, [report] raises
    [IndexError] before it prints anything, wherever the line stands. *)
Theorem report_fails_on_a_short_line {W poc}
        (env : @Collaborators W poc) self w lines :
  path_exists env (results_file self) w = true ->
  open_read env (results_file self) w = Ok lines ->
  existsb short lines = true ->
  report env self w
  = (Raise (Exception "IndexError"), w,
     [PathExists (results_file self) true;
      OpenRead (results_file self) (Ok lines)]).
Proof.
  intros Hex Hread Hshort.
  rewrite (report_reads env self lines w Hex Hread).
  now rewrite (render_short env lines w Hshort).
Qed.

(** The witness of X8: the second line of the file was cut after the port; the
    first, well formed, is not reported either. *)
Lemma report_fails_on_a_short_line_witness :
  report (Demo.env Demo.camera) (Demo.core FeedEnd) Cases.short_log
  = (Raise (Exception "IndexError"), Cases.short_log,
     [PathExists (results_file (Demo.core FeedEnd)) true;
      OpenRead (results_file (Demo.core FeedEnd))
               (Ok (Cases.lines_of Cases.short_log))]).
Proof.
  exact (report_fails_on_a_short_line
           (Demo.env Demo.camera) (Demo.core FeedEnd) Cases.short_log
           (Cases.lines_of Cases.short_log) eq_refl eq_refl eq_refl).
Defined.

(** X11: a short line in the results file, seen from [run]: when the scan
    has returned, the [try] statement ends normally, with nothing printed
    and the [IndexError] given to [logger.error]. *)
Theorem run_logs_a_short_line {W poc} (env : @Collaborators W poc)
        (gev : @Gevent W poc) self w w1 tr1 lines :
  scanning env gev self w = (Ok tt, w1, tr1) ->
  path_exists env (results_file self) w1 = true ->
  open_read env (results_file self) w1 = Ok lines ->
  existsb short lines = true ->
  run_loop env gev self w
  = (Ok tt, logger_error env (Exception "IndexError") w1,
     tr1 ++ [PathExists (results_file self) true;
             OpenRead (results_file self) (Ok lines);
             LoggerError (Exception "IndexError")]).
Proof.
  intros Hscan Hex Hread Hshort.
  unfold run_loop, try_except, bind. rewrite Hscan.
  rewrite (report_reads env self lines w1 Hex Hread).
  rewrite (render_short env lines w1 Hshort). cbn.
  now rewrite <- app_assoc.
Qed.

(** The witness of X11: no target to scan, and a results file with a line cut
    short. *)
Lemma run_logs_a_short_line_witness :
  run_loop (Demo.env Demo.camera) (Demo.gevent false) (Demo.core FeedEnd)
           Cases.short_log
  = (Ok tt,
     logger_error (Demo.env Demo.camera) (Exception "IndexError")
                  Cases.short_log,
     [] ++ [PathExists (results_file (Demo.core FeedEnd)) true;
            OpenRead (results_file (Demo.core FeedEnd))
                     (Ok (Cases.lines_of Cases.short_log));
            LoggerError (Exception "IndexError")]).
Proof.
  exact (run_logs_a_short_line
           (Demo.env Demo.camera) (Demo.gevent false) (Demo.core FeedEnd)
           Cases.short_log Cases.short_log [] (Cases.lines_of Cases.short_log)
           eq_refl eq_refl eq_refl eq_refl).
Defined.

(** ** The target of [_scan] *)

(** X12: a target without a colon is an address, scanned on the ports of
    the configuration; in a target [ip:port], with or without more after
    a second colon, the port is the text between the colons, kept as text
    (also when it is empty), and the ports of the configuration are not
    used. *)
Theorem target_names_its_port {poc} (self : @Core poc) ip port tail :
  has_char ":" ip = false ->
  has_char ":" port = false ->
  tail = EmptyString \/ (exists more, tail = String ":" more) ->
  (target_ip ip = ip /\ target_ports self ip = ports (config self))
  /\ (target_ip (ip ++ ":" ++ port ++ tail) = ip
      /\ target_ports self (ip ++ ":" ++ port ++ tail) = [Py.Str port]).
Proof.
  intros Hip Hport Htail. unfold target_ip, target_ports. split.
  - now rewrite (split_without _ _ Hip).
  - change (ip ++ ":" ++ port ++ tail)%string
      with (ip ++ String ":" (port ++ tail))%string.
    rewrite (split_at_first _ _ _ Hip).
    destruct Htail as [-> | [more ->]].
    + rewrite (split_without ":" (port ++ "")%string).
      * split; [reflexivity |]. f_equal. f_equal.
        clear. induction port; simpl; congruence.
      * clear - Hport. induction port as [| c s IH]; [reflexivity |].
        cbn [has_char String.append] in *.
        apply orb_false_elim in Hport. destruct Hport as [-> Hs].
        now apply IH.
    + rewrite (split_at_first _ _ _ Hport). split; reflexivity.
Qed.

(** The witness of X12: a target with the port 8080, and the same address
    alone. *)
Lemma target_names_its_port_witness :
  target_ports (Demo.core FeedEnd) "10.0.0.1:8080" = [Py.Str "8080"]
  /\ target_ports (Demo.core FeedEnd) "10.0.0.1" = [Py.Int 22; Py.Int 80].
Proof.
  destruct (target_names_its_port (Demo.core FeedEnd) "10.0.0.1" "8080" ""
              eq_refl eq_refl (or_introl eq_refl)) as [[_ H1] [_ H2]].
  split; [exact H2 | exact H1].
Defined.

(** ** More runs of [_scan] *)

Section ScanRuns.

Context {W poc : Type}.
Variable env : @Collaborators W poc.
Variable self : @Core poc.

Lemma verify_step_more ip port p (pocs : list poc) ev :
  verify_step ip port pocs ev -> verify_step ip port (p :: pocs) ev.
Proof. destruct ev; simpl; tauto. Qed.

Lemma record_finding_steps ip port pocs p results w :
  Forall (verify_step ip port pocs)
         (snd (record_finding env self p results w)).
Proof.
  destruct (record_finding env self p results w) as [[r w'] tr] eqn:H.
  apply record_finding_shape in H.
  destruct H as [(e & _ & ->) | [(e & _ & ->) | [(_ & _ & ->) | (c & _ & _ & ->)]]];
    repeat constructor.
Qed.

Lemma verify_loop_steps ip port pocs verified w :
  Forall (verify_step ip port pocs)
         (snd (verify_loop env self ip port pocs verified w)).
Proof.
  revert verified w. induction pocs as [| p rest IH]; intros verified w.
  - constructor.
  - assert (Happ : forall tr1 tr2 : list (@event poc),
               Forall (verify_step ip port (p :: rest)) tr1 ->
               Forall (verify_step ip port (p :: rest)) tr2 ->
               Forall (verify_step ip port (p :: rest)) (tr1 ++ tr2))
      by (intros; apply Forall_app; auto).
    assert (Hrest : forall v w1,
               Forall (verify_step ip port (p :: rest))
                      (snd (verify_loop env self ip port rest v w1))).
    { intros v w1. eapply Forall_impl; [| apply IH].
      intros ev. apply verify_step_more. }
    cbn [verify_loop]. apply invariant_bind; [exact Happ | |].
    + unfold call_verify. rewrite perform_trace. repeat constructor.
    + intros r w1. destruct (successful r); [| apply Hrest].
      apply invariant_bind; [exact Happ | | intros; apply Hrest].
      apply record_finding_steps.
Qed.

Lemma verify_loop_refused ip port pocs : forall verified w w' tr,
  verify_loop env self ip port pocs verified w = (Ok false, w', tr) ->
  verified = false /\ Forall2 (refusal ip port) pocs tr.
Proof.
  induction pocs as [| p rest IH]; intros verified w w' tr H.
  - cbn [verify_loop] in H. unfold ret in H. inversion H; subst. auto.
  - cbn [verify_loop] in H. unfold call_verify in H. apply bind_inv in H.
    destruct H as [(e & _ & He) | (r0 & w1 & tr1 & tr2 & H & Hk & ->)];
      [discriminate He |].
    apply perform_inv in H as [_ ->].
    destruct (successful r0) as [results |] eqn:Hs.
    + apply bind_inv in Hk.
      destruct Hk as [(e & _ & He) | ([] & w2 & tr3 & tr4 & _ & Hk & ->)];
        [discriminate He |].
      apply IH in Hk as [Hv _]. discriminate Hv.
    + apply IH in Hk as [-> Hall]. split; [reflexivity |].
      constructor; [| exact Hall]. now exists r0.
Qed.

(** The three ways a port is dealt with: the probe did not find it open;
    the fingerprint named no product; or the PoCs of the product were
    run, with a negative record at the end if all of them refused. *)
Lemma scan_port_shape ip port w r w' tr :
  scan_port env self ip port w = (r, w', tr) ->
  (exists a, a <> Ok true
             /\ tr = [PortScan ip port (timeout (config self)) a])
  \/ (exists f,
         identified_products [@Fingerprint poc ip port f] = []
         /\ tr = [PortScan ip port (timeout (config self)) (Ok true);
                  LoggerInfo (ip ++ " port " ++ Py.str port ++ " is open")%string;
                  Fingerprint ip port f])
  \/ (exists product rv wv wv' trv tail,
         product <> EmptyString
         /\ verify_loop env self ip port (poc_dict self product) false wv
            = (rv, wv', trv)
         /\ (rv <> Ok false /\ tail = []
             \/ rv = Ok false
                /\ exists c, tail = [AddNotVulnerable [ip; Py.str port; product] c])
         /\ tr = [PortScan ip port (timeout (config self)) (Ok true);
                  LoggerInfo (ip ++ " port " ++ Py.str port ++ " is open")%string;
                  Fingerprint ip port (Ok (Some product));
                  LoggerInfo (ip ++ ":" ++ Py.str port ++ " is " ++ product)%string]
                 ++ trv ++ tail).
Proof.
  unfold scan_port, check_product, call_port_scan, call_fingerprint, info,
    call_add_not_vulnerable.
  intros H. apply bind_inv in H.
  destruct H as [(e & H & ->) | (is_open & w1 & tr1 & tr2 & H & Hk & ->)];
    apply perform_inv in H as [_ ->];
    [left; eexists; split; [| reflexivity]; discriminate |].
  destruct is_open;
    [| invert_run; left; eexists; split; [| reflexivity]; discriminate].
  apply bind_inv in Hk.
  destruct Hk as [(e & Hk & ->) | ([] & w2 & tr3 & tr4 & Hi & Hk & ->)];
    [discriminate Hk |].
  unfold perform_total in Hi. inversion Hi; subst; clear Hi.
  apply bind_inv in Hk.
  destruct Hk as [(e & Hf & ->) | (r0 & w3 & tr5 & tr6 & Hf & Hk & ->)];
    apply perform_inv in Hf as [_ ->];
    [right; left; eexists; split; [| reflexivity]; reflexivity |].
  destruct (identified r0) as [product |] eqn:Hid.
  - apply identified_inv in Hid as (c & s & -> & ->).
    apply bind_inv in Hk.
    destruct Hk as [(e & Hk & ->) | ([] & w4 & tr7 & tr8 & Hi & Hk & ->)];
      [discriminate Hk |].
    unfold perform_total in Hi. inversion Hi; subst; clear Hi.
    right; right. apply bind_inv in Hk.
    destruct Hk as [(e & Hk & ->) | (v & w5 & tr9 & tr10 & Hl & Hk & ->)].
    + exists (String c s), (Raise e). do 3 eexists. exists [].
      split; [discriminate |]. split; [exact Hk |].
      split; [left; split; [discriminate | reflexivity] |].
      now rewrite app_nil_r.
    + exists (String c s), (Ok v). do 3 eexists. exists tr10.
      split; [discriminate |]. split; [exact Hl |]. split; [| reflexivity].
      destruct v; simpl in Hk.
      * unfold ret in Hk. inversion Hk; subst.
        left. split; [discriminate | reflexivity].
      * apply perform_inv in Hk as [_ ->]. right. split; eauto.
  - invert_run. right; left. exists (Ok r0). split; [| reflexivity].
    destruct r0 as [[| c s] |]; simpl in *; auto; discriminate.
Qed.

Lemma probes_app (tr1 tr2 : list (@event poc)) :
  probes (tr1 ++ tr2) = probes tr1 ++ probes tr2.
Proof. apply flat_map_app. Qed.

Lemma verify_steps_no_probe ip port pocs (tr : list (@event poc)) :
  Forall (verify_step ip port pocs) tr -> probes tr = [].
Proof.
  induction 1 as [| ev tr Hev _ IH]; [reflexivity |].
  destruct ev; simpl in *; try contradiction; exact IH.
Qed.

Lemma scan_port_probes ip port w :
  probes (snd (scan_port env self ip port w))
  = [(ip, port, timeout (config self))].
Proof.
  destruct (scan_port env self ip port w) as [[r w'] tr] eqn:H.
  apply scan_port_shape in H. cbn [snd].
  destruct H as [(a & _ & ->) | [(f & _ & ->)
    | (product & rv & wv & wv' & trv & tail & _ & Hl & Htail & ->)]];
    try reflexivity.
  pose proof (verify_loop_steps ip port (poc_dict self product) false wv) as Hs.
  rewrite Hl in Hs. cbn [snd] in Hs. apply verify_steps_no_probe in Hs.
  rewrite !probes_app, Hs.
  destruct Htail as [(_ & ->) | (_ & c & ->)]; reflexivity.
Qed.

Lemma scan_ports_probes ip port_list : forall w,
  prefix_of (probes (snd (for_each port_list (scan_port env self ip) w)))
            (map (fun port => (ip, port, timeout (config self))) port_list)
  /\ (forall w' tr,
         for_each port_list (scan_port env self ip) w = (Ok tt, w', tr) ->
         probes tr
         = map (fun port => (ip, port, timeout (config self))) port_list).
Proof.
  induction port_list as [| port rest IH]; intros w.
  - split; [now exists [] |]. intros w' tr H. now inversion H.
  - cbn [for_each map]. unfold bind.
    pose proof (scan_port_probes ip port w) as Hp.
    destruct (scan_port env self ip port w) as [[[[] | e] w1] tr1];
      cbn [snd] in Hp.
    + destruct (IH w1) as [[more Hpre] Hok].
      destruct (for_each rest (scan_port env self ip) w1) as [[r2 w2] tr2].
      cbn [snd] in *. rewrite probes_app, Hp. split.
      * exists more. cbn [app]. now rewrite Hpre.
      * intros w' tr H. inversion H; subst.
        rewrite probes_app, Hp. cbn [app]. f_equal.
        eapply Hok. reflexivity.
    + cbn [snd]. rewrite Hp. split; [| discriminate].
      now exists (map (fun port0 => (ip, port0, timeout (config self))) rest).
Qed.

End ScanRuns.

(** X13: [_scan] probes the ports of its target in their order, each at
    most once (as often as it is listed), on the address of the target
    and with the timeout of the configuration: the probes of any run are
    an initial part of that list, and the whole list when [add_done] is
    reached. *)
Theorem scan_probes_in_order {W poc} (env : @Collaborators W poc) self
        target w r w' tr :
  _scan env self target w = (r, w', tr) ->
  let planned :=
    map (fun port => (target_ip target, port, timeout (config self)))
        (target_ports self target) in
  prefix_of (probes tr) planned
  /\ (count is_add_done tr <> 0 -> probes tr = planned).
Proof.
  intros H planned. apply scan_structure in H.
  destruct (scan_ports_probes env self (target_ip target)
              (target_ports self target) w) as [Hpre Hok].
  destruct H as [(e & -> & H) | (w1 & tr1 & Hp & Htail)].
  - rewrite H in Hpre. cbn [snd] in Hpre. split; [exact Hpre |].
    pose proof (scan_ports_not_done env self (target_ip target)
                  (target_ports self target) w) as Hnd.
    rewrite H in Hnd. apply not_done_counts in Hnd as [Hc _].
    cbn [snd] in Hc. intros Hdone. now rewrite Hc in Hdone.
  - assert (Htr : probes tr = planned).
    { unfold planned. rewrite <- (Hok _ _ Hp).
      destruct Htail as [(e & _ & ->) | ->]; rewrite probes_app;
        apply app_nil_r. }
    rewrite Htr. split; [exists []; now rewrite app_nil_r | auto].
Qed.

(** The witness of X13: the probe of port 22 raises, port 80 is not probed. *)
Lemma scan_probes_in_order_witness :
  prefix_of
    (probes (snd (_scan (Demo.env Demo.broken_probe) (Demo.core FeedEnd)
                        "10.0.0.1" None)))
    [("10.0.0.1", Py.Int 22, 3%Z); ("10.0.0.1", Py.Int 80, 3%Z)].
Proof.
  exact (proj1 (scan_probes_in_order
                  (Demo.env Demo.broken_probe) (Demo.core FeedEnd)
                  "10.0.0.1" None _ _ _ eq_refl)).
Defined.

Section ScanGrounds.

Context {W poc : Type}.
Variable env : @Collaborators W poc.
Variable self : @Core poc.

Lemma grounded_nil : grounded self [].
Proof. repeat split; intros; contradiction. Qed.

Lemma grounded_app tr1 tr2 :
  grounded self tr1 -> grounded self tr2 -> grounded self (tr1 ++ tr2).
Proof.
  intros (Hf1 & Hv1 & Hn1) (Hf2 & Hv2 & Hn2). repeat split.
  - intros ip port r Hin. apply in_or_app.
    apply in_app_or in Hin as [Hin | Hin]; eauto.
  - intros p ip port r Hin.
    apply in_app_or in Hin as [Hin | Hin];
      [apply Hv1 in Hin | apply Hv2 in Hin];
      destruct Hin as (product & Hne & Hin & Hp);
      exists product; repeat split; auto; apply in_or_app; auto.
  - intros record c Hin.
    apply in_app_or in Hin as [Hin | Hin];
      [apply Hn1 in Hin | apply Hn2 in Hin];
      destruct Hin as (ip & port & product & -> & Hin & Hall);
      exists ip, port, product;
      (split; [reflexivity |]); (split; [apply in_or_app; auto |]);
      intros p Hp; destruct (Hall p Hp) as (r & Hs & Hr);
      exists r; (split; [exact Hs |]); apply in_or_app; auto.
Qed.

Lemma grounded_single (ev : @event poc) :
  match ev with
  | Fingerprint _ _ _ | Verify _ _ _ _ | AddNotVulnerable _ _ => False
  | _ => True
  end ->
  grounded self [ev].
Proof.
  intros Hev.
  repeat split; intros; destruct ev; try contradiction;
    match goal with H : In _ [_] |- _ => destruct H as [H | []]; discriminate H end.
Qed.

Lemma Forall2_pick {A B} (P : A -> B -> Prop) l1 l2 x :
  Forall2 P l1 l2 -> In x l1 -> exists y, In y l2 /\ P x y.
Proof.
  induction 1 as [| a b l1 l2 Hab _ IH]; [contradiction |].
  intros [<- | Hin].
  - exists b. split; [now left | exact Hab].
  - destruct (IH Hin) as (y & Hy & Hxy). exists y. split; [now right | exact Hxy].
Qed.

Lemma scan_port_grounded ip port w :
  grounded self (snd (scan_port env self ip port w)).
Proof.
  destruct (scan_port env self ip port w) as [[r w'] tr] eqn:H.
  apply scan_port_shape in H. cbn [snd].
  destruct H as [(a & _ & ->) | [(f & _ & ->)
    | (product & rv & wv & wv' & trv & tail & Hne & Hl & Htail & ->)]].
  - repeat split; intros; simpl in *; intuition discriminate.
  - repeat split; intros; simpl in *; intuition (try discriminate).
    match goal with Heq : Fingerprint _ _ _ = Fingerprint _ _ _ |- _ =>
      inversion Heq; subst end.
    now left.
  - pose proof (verify_loop_steps env self ip port (poc_dict self product)
                  false wv) as Hs.
    rewrite Hl in Hs. cbn [snd] in Hs. rewrite Forall_forall in Hs.
    assert (Htl : forall ev, In ev tail -> exists c,
                 rv = Ok false
                 /\ ev = AddNotVulnerable [ip; Py.str port; product] c).
    { intros ev Hev.
      destruct Htail as [(_ & ->) | (Hrv & c & ->)]; [contradiction |].
      destruct Hev as [<- | []]. eauto. }
    repeat split.
    + intros ip' port' r' Hin. left.
      cbn [app] in Hin.
      destruct Hin as [Hin | [Hin | [Hin | [Hin | Hin]]]]; try discriminate Hin.
      * now inversion Hin; subst.
      * apply in_app_or in Hin as [Hin | Hin].
        -- apply Hs in Hin. contradiction.
        -- apply Htl in Hin as (c & _ & Hin). discriminate Hin.
    + intros p ip' port' r' Hin. exists product. cbn [app] in Hin.
      destruct Hin as [Hin | [Hin | [Hin | [Hin | Hin]]]]; try discriminate Hin.
      apply in_app_or in Hin as [Hin | Hin].
      * apply Hs in Hin. destruct Hin as (-> & -> & Hp).
        split; [exact Hne |]. split; [| exact Hp]. right; right; now left.
      * apply Htl in Hin as (c & _ & Hin). discriminate Hin.
    + intros record c Hin. cbn [app] in Hin.
      destruct Hin as [Hin | [Hin | [Hin | [Hin | Hin]]]]; try discriminate Hin.
      apply in_app_or in Hin as [Hin | Hin].
      * apply Hs in Hin. contradiction.
      * apply Htl in Hin as (c' & -> & Hin). inversion Hin; subst.
        exists ip, port, product. split; [reflexivity |].
        split; [right; right; now left |].
        intros p Hp. apply verify_loop_refused in Hl as [_ Hall].
        destruct (Forall2_pick _ _ _ _ Hall Hp) as (ev & Hev & r0 & -> & Hr0).
        exists r0. split; [exact Hr0 |].
        cbn [app]. do 4 right. apply in_or_app. now left.
Qed.

Lemma scan_grounded target w :
  grounded self (snd (_scan env self target w)).
Proof.
  unfold _scan, call_add_done, call_record_running_state.
  apply invariant_bind; auto using grounded_app.
  - apply invariant_for_each;
      auto using grounded_nil, grounded_app, scan_port_grounded.
  - intros _ w1.
    apply invariant_bind; auto using grounded_app;
      [rewrite perform_trace; now apply grounded_single |].
    intros _ w2. rewrite perform_trace. now apply grounded_single.
Qed.

(** The counters in step *)

Lemma in_step_nil : @in_step poc [].
Proof. unfold in_step, count. simpl. lia. Qed.

Lemma findings_app (tr1 tr2 : list (@event poc)) :
  findings (tr1 ++ tr2) = findings tr1 ++ findings tr2.
Proof. apply flat_map_app. Qed.

Lemma vulnerable_records_app (tr1 tr2 : list (@event poc)) :
  vulnerable_records (tr1 ++ tr2)
  = vulnerable_records tr1 ++ vulnerable_records tr2.
Proof. apply flat_map_app. Qed.

Lemma snapshot_jobs_app (tr1 tr2 : list (@event poc)) :
  snapshot_jobs (tr1 ++ tr2) = snapshot_jobs tr1 ++ snapshot_jobs tr2.
Proof. apply flat_map_app. Qed.

Lemma in_step_app (tr1 tr2 : list (@event poc)) :
  in_step tr1 -> in_step tr2 -> in_step (tr1 ++ tr2).
Proof.
  unfold in_step.
  rewrite !count_app, findings_app, vulnerable_records_app,
    snapshot_jobs_app, !length_app.
  lia.
Qed.

Lemma verify_loop_in_step ip port pocs : forall verified w,
  in_step (snd (verify_loop env self ip port pocs verified w)).
Proof.
  induction pocs as [| p rest IH]; intros verified w; [apply in_step_nil |].
  cbn [verify_loop]. unfold bind at 1, call_verify, perform.
  destruct (verify env p ip port w) as [[r0 | e] w1];
    [| unfold in_step, count; simpl; lia].
  destruct (successful r0) as [results |] eqn:Hs.
  - apply successful_inv in Hs as (f & fields & -> & ->).
    unfold bind.
    destruct (record_finding env self p (f :: fields) w1)
      as [[rr w2] trr] eqn:Hrec.
    assert (Hfirst : in_step
              (Verify p ip port (Ok (Some (f :: fields))) :: trr)).
    { apply record_finding_shape in Hrec.
      destruct Hrec as [(e & _ & ->) | [(e & _ & ->)
        | [(_ & _ & ->) | (c & _ & _ & ->)]]];
        unfold in_step, count; simpl; lia. }
    destruct rr as [[] | e].
    + specialize (IH true w2).
      destruct (verify_loop env self ip port rest true w2) as [[r3 w3] tr3].
      cbn [snd] in *.
      change ([Verify p ip port (Ok (Some (f :: fields)))] ++ trr ++ tr3)
        with ((Verify p ip port (Ok (Some (f :: fields))) :: trr) ++ tr3).
      now apply in_step_app.
    + exact Hfirst.
  - specialize (IH verified w1).
    destruct (verify_loop env self ip port rest verified w1) as [[r3 w3] tr3].
    cbn [snd] in *.
    apply in_step_app; [| exact IH].
    destruct r0 as [[| f fields] |]; simpl in Hs; try discriminate Hs;
      unfold in_step, count; simpl; lia.
Qed.

Lemma scan_port_in_step ip port w :
  in_step (snd (scan_port env self ip port w)).
Proof.
  destruct (scan_port env self ip port w) as [[r w'] tr] eqn:H.
  apply scan_port_shape in H. cbn [snd].
  destruct H as [(a & _ & ->) | [(f & _ & ->)
    | (product & rv & wv & wv' & trv & tail & _ & Hl & Htail & ->)]];
    try (unfold in_step, count; simpl; lia).
  pose proof (verify_loop_in_step ip port (poc_dict self product) false wv)
    as Hs.
  rewrite Hl in Hs. cbn [snd] in Hs.
  apply in_step_app; [unfold in_step, count; simpl; lia |].
  apply in_step_app; [exact Hs |].
  destruct Htail as [(_ & ->) | (_ & c & ->)];
    unfold in_step, count; simpl; lia.
Qed.

Lemma scan_in_step target w :
  in_step (snd (_scan env self target w)).
Proof.
  unfold _scan, call_add_done, call_record_running_state.
  apply invariant_bind; auto using in_step_app.
  - apply invariant_for_each;
      auto using in_step_nil, in_step_app, scan_port_in_step.
  - intros _ w1.
    apply invariant_bind; auto using in_step_app;
      [rewrite perform_trace; unfold in_step, count; simpl; lia |].
    intros _ w2. rewrite perform_trace. unfold in_step, count; simpl; lia.
Qed.

Lemma no_verify_no_finding (tr : list (@event poc)) :
  verified_pocs tr = [] -> findings tr = [].
Proof.
  induction tr as [| ev tr IH]; [reflexivity |].
  destruct ev; simpl; try exact IH. discriminate.
Qed.

End ScanGrounds.

(** X14: what [_scan] never does: it never asks for the fingerprint of a
    port that its probe did not find open, and it never runs a PoC on a
    port unless the fingerprint of that port named a product, not empty,
    of which the PoC is registered. *)
Theorem scan_never_checks_unasked {W poc} (env : @Collaborators W poc) self
        target w r w' tr :
  _scan env self target w = (r, w', tr) ->
  (forall ip port a,
      In (Fingerprint ip port a) tr ->
      In (PortScan ip port (timeout (config self)) (Ok true)) tr)
  /\ (forall p ip port a,
         In (Verify p ip port a) tr ->
         exists product,
           product <> EmptyString
           /\ In (Fingerprint ip port (Ok (Some product))) tr
           /\ In p (poc_dict self product)).
Proof.
  intros H. pose proof (scan_grounded env self target w) as (Hf & Hv & _).
  rewrite H in Hf, Hv. cbn [snd] in Hf, Hv. split; assumption.
Qed.

(** The witness of X14: the fingerprint of the camera follows an open port 80. *)
Lemma scan_never_checks_unasked_witness :
  In (PortScan "10.0.0.1" (Py.Str "80") 3 (Ok true))
     (snd (_scan (Demo.env Demo.camera) (Demo.core FeedEnd)
                 "10.0.0.1:80" None)).
Proof.
  destruct (scan_never_checks_unasked
              (Demo.env Demo.camera) (Demo.core FeedEnd) "10.0.0.1:80" None
              _ _ _ eq_refl) as [Hf _].
  apply (Hf "10.0.0.1" (Py.Str "80") (Ok (Some "camera-x"))).
  right; right; left. reflexivity.
Defined.

(** X15: in every run of [_scan], a record given to [add_not_vulnerable]
    is the address, the port as text and the product of a fingerprint of
    the run, and every PoC registered for that product was run on that
    port and answered with no finding. *)
Theorem negative_record_after_all_pocs {W poc} (env : @Collaborators W poc)
        self target w r w' tr record c :
  _scan env self target w = (r, w', tr) ->
  In (AddNotVulnerable record c) tr ->
  exists ip port product,
    record = [ip; Py.str port; product]
    /\ In (Fingerprint ip port (Ok (Some product))) tr
    /\ forall p, In p (poc_dict self product) ->
                 exists a, successful a = None
                           /\ In (Verify p ip port (Ok a)) tr.
Proof.
  intros H. pose proof (scan_grounded env self target w) as (_ & _ & Hn).
  rewrite H in Hn. cbn [snd] in Hn. apply Hn.
Qed.

(** The witness of X15: the patched camera, refused by its three PoCs. *)
Lemma negative_record_after_all_pocs_witness :
  exists ip port product,
    ["10.0.0.1"; "80"; "camera-x"] = [ip; Py.str port; product]
    /\ In (Fingerprint ip port (Ok (Some product)))
          (snd (_scan (Demo.env Demo.patched_camera) (Demo.core FeedEnd)
                      "10.0.0.1:80" None))
    /\ forall p, In p (poc_dict (Demo.core FeedEnd) product) ->
                 exists a, successful a = None
                           /\ In (Verify p ip port (Ok a))
                                 (snd (_scan (Demo.env Demo.patched_camera)
                                             (Demo.core FeedEnd)
                                             "10.0.0.1:80" None)).
Proof.
  apply (negative_record_after_all_pocs
           (Demo.env Demo.patched_camera) (Demo.core FeedEnd) "10.0.0.1:80"
           None _ _ _ ["10.0.0.1"; "80"; "camera-x"] (Ok tt) eq_refl).
  do 7 right. left. reflexivity.
Defined.

(** X16: in every run of [_scan], also one that an exception ends, the
    counters are in step: no more snapshot jobs than records of
    vulnerable devices, no more records than calls of [add_found], and no
    more of these than findings. *)
Theorem scan_counts_in_step {W poc} (env : @Collaborators W poc) self
        target w r w' tr :
  _scan env self target w = (r, w', tr) ->
  List.length (snapshot_jobs tr) <= List.length (vulnerable_records tr)
  /\ List.length (vulnerable_records tr) <= count is_add_found tr
  /\ count is_add_found tr <= List.length (findings tr).
Proof.
  intros H. pose proof (scan_in_step env self target w) as Hs.
  now rewrite H in Hs.
Qed.

(** The witness of X16: the one finding of the camera. *)
Lemma scan_counts_in_step_witness :
  List.length
    (snapshot_jobs (snd (_scan (Demo.env Demo.camera) (Demo.core FeedEnd)
                               "10.0.0.1:80" None)))
  <= List.length
       (vulnerable_records
          (snd (_scan (Demo.env Demo.camera) (Demo.core FeedEnd)
                      "10.0.0.1:80" None)))
  /\ List.length
       (vulnerable_records
          (snd (_scan (Demo.env Demo.camera) (Demo.core FeedEnd)
                      "10.0.0.1:80" None)))
     <= count is_add_found
          (snd (_scan (Demo.env Demo.camera) (Demo.core FeedEnd)
                      "10.0.0.1:80" None))
  /\ count is_add_found
       (snd (_scan (Demo.env Demo.camera) (Demo.core FeedEnd)
                   "10.0.0.1:80" None))
     <= List.length
          (findings (snd (_scan (Demo.env Demo.camera) (Demo.core FeedEnd)
                                "10.0.0.1:80" None))).
Proof.
  exact (scan_counts_in_step
           (Demo.env Demo.camera) (Demo.core FeedEnd) "10.0.0.1:80" None
           _ _ _ eq_refl).
Defined.

(** X17: [_scan] catches nothing and raises nothing of its own: it
    returns exactly when none of its calls raised, and when it raises, it
    raises what its last call raised, be it a probe, the store of the
    results or the queue of the snapshots. *)
Theorem scan_raises_what_its_last_call_raised {W poc}
        (env : @Collaborators W poc) self target w r w' tr :
  _scan env self target w = (r, w', tr) ->
  (r = Ok tt <-> Forall event_ok tr)
  /\ (forall e, r = Raise e ->
                exists tr' ev,
                  tr = tr' ++ [ev]
                  /\ Forall event_ok tr'
                  /\ event_raised ev = Some e).
Proof.
  intros H. pose proof (scan_disciplined env self target w) as Hd.
  rewrite H in Hd. split; [split |].
  - intros ->. exact Hd.
  - intros Hall. destruct (disciplined_clean _ _ _ Hd Hall) as [[] ->].
    reflexivity.
  - intros e ->. exact Hd.
Qed.

(** The witness of X17: the failing probe of port 22 is the last call. *)
Lemma scan_raises_what_its_last_call_raised_witness :
  exists tr' ev,
    snd (_scan (Demo.env Demo.broken_probe) (Demo.core FeedEnd)
               "10.0.0.1" None) = tr' ++ [ev]
    /\ Forall event_ok tr'
    /\ event_raised ev = Some (Exception "OSError").
Proof.
  destruct (scan_raises_what_its_last_call_raised
              (Demo.env Demo.broken_probe) (Demo.core FeedEnd)
              "10.0.0.1" None _ _ _ eq_refl) as [_ H].
  exact (H _ eq_refl).
Defined.

(** X18: the marks of [_scan]: [add_done] and [record_running_state] are
    each called at most once; the running state is recorded only after
    [add_done] returned, and its outcome is the outcome of [_scan]; so a
    run that raises has marked its target done only if the raising call
    is [record_running_state]. *)
Theorem scan_marks_at_most_once {W poc} (env : @Collaborators W poc) self
        target w r w' tr :
  _scan env self target w = (r, w', tr) ->
  count is_add_done tr <= 1
  /\ count is_record_running_state tr <= 1
  /\ (forall a, In (RecordRunningState a) tr ->
                a = r /\ In (AddDone (Ok tt)) tr)
  /\ (forall e, r = Raise e ->
                In (AddDone (Ok tt)) tr ->
                exists tr', tr = tr' ++ [RecordRunningState (Raise e)]).
Proof.
  intros H. apply scan_structure in H.
  pose proof (scan_ports_not_done env self (target_ip target)
                (target_ports self target) w) as Hnd.
  assert (Hloop : forall tr1 : list (@event poc),
             Forall not_done_event tr1 ->
             count is_add_done tr1 = 0
             /\ count is_record_running_state tr1 = 0
             /\ (forall a, ~ In (AddDone a) tr1)
             /\ (forall a, ~ In (RecordRunningState a) tr1)).
  { intros tr1 Hall. pose proof (not_done_counts _ Hall) as [Hc1 Hc2].
    rewrite Forall_forall in Hall.
    repeat split; auto; intros a Hin; apply Hall in Hin as [Hd Hr];
      discriminate. }
  destruct H as [(e & -> & H) | (w1 & tr1 & Hp & Htail)].
  - rewrite H in Hnd. cbn [snd] in Hnd.
    apply Hloop in Hnd as (Hc1 & Hc2 & Hd & Hr).
    rewrite Hc1, Hc2. split; [lia |]. split; [lia |]. split.
    + intros a Hin. now apply Hr in Hin.
    + intros e0 _ Hin. now apply Hd in Hin.
  - rewrite Hp in Hnd. cbn [snd] in Hnd.
    apply Hloop in Hnd as (Hc1 & Hc2 & Hd & Hr).
    destruct Htail as [(e & -> & ->) | ->]; rewrite !count_app, Hc1, Hc2;
      (split; [unfold count; simpl; lia |]);
      (split; [unfold count; simpl; lia |]); split.
    + intros a Hin. apply in_app_or in Hin as [Hin | [Hin | []]];
        [now apply Hr in Hin | discriminate Hin].
    + intros e0 _ Hin. apply in_app_or in Hin as [Hin | [Hin | []]];
        [now apply Hd in Hin | discriminate Hin].
    + intros a Hin. apply in_app_or in Hin as [Hin | [Hin | [Hin | []]]];
        [now apply Hr in Hin | discriminate Hin |].
      inversion Hin; subst. split; [reflexivity |].
      apply in_or_app. right. now left.
    + intros e0 -> _. exists (tr1 ++ [AddDone (Ok tt)]).
      now rewrite <- app_assoc.
Qed.

(** The witness of X18: the camera on port 80, marked once. *)
Lemma scan_marks_at_most_once_witness :
  count is_add_done
    (snd (_scan (Demo.env Demo.camera) (Demo.core FeedEnd)
                "10.0.0.1:80" None)) <= 1
  /\ count is_record_running_state
       (snd (_scan (Demo.env Demo.camera) (Demo.core FeedEnd)
                   "10.0.0.1:80" None)) <= 1.
Proof.
  destruct (scan_marks_at_most_once
              (Demo.env Demo.camera) (Demo.core FeedEnd)
              "10.0.0.1:80" None _ _ _ eq_refl) as (Hd & Hr & _).
  split; [exact Hd | exact Hr].
Defined.

(** X19: a product for which no PoC is registered: in a run in which no
    call raises, a port whose fingerprint names such a product gets no
    call of [verify] and no finding, and one negative record. *)
Theorem product_without_pocs_is_not_vulnerable {W poc}
        (env : @Collaborators W poc) self ip port w r w' tr product :
  scan_port env self ip port w = (r, w', tr) ->
  Forall event_ok tr ->
  identified_products tr = [product] ->
  poc_dict self product = [] ->
  verified_pocs tr = []
  /\ count is_add_found tr = 0
  /\ vulnerable_records tr = []
  /\ not_vulnerable_records tr = [[ip; Py.str port; product]].
Proof.
  intros H Hall Hid Hnone.
  pose proof (scan_port_sound env self ip port w) as [_ Htal].
  rewrite H in Htal. cbn [snd] in Htal.
  destruct (Htal Hall) as (Hrec & Hfound & _).
  apply scan_port_clean in H as [_ [(Hno & _) | (q & Hq & Hv & Hn)]]; auto.
  - rewrite Hno in Hid. discriminate Hid.
  - assert (q = product) as -> by congruence.
    rewrite Hnone in Hv. pose proof (no_verify_no_finding _ Hv) as Hf.
    unfold has_finding in Hn. rewrite Hf in Hrec, Hfound, Hn.
    repeat split; assumption.
Qed.

(** The witness of X19: a router that no PoC is registered for. *)
Lemma product_without_pocs_is_not_vulnerable_witness :
  not_vulnerable_records
    (snd (scan_port (Demo.env Cases.unknown_device) (Demo.core FeedEnd)
                    "10.0.0.1" (Py.Int 80) None))
  = [["10.0.0.1"; "80"; "router-z"]].
Proof.
  destruct (product_without_pocs_is_not_vulnerable
              (Demo.env Cases.unknown_device) (Demo.core FeedEnd)
              "10.0.0.1" (Py.Int 80) None _ _ _ "router-z" eq_refl)
    as (_ & _ & _ & H).
  - repeat constructor.
  - reflexivity.
  - reflexivity.
  - exact H.
Defined.

(** ** The PoCs of a fingerprinted port *)

Section PortLaw.

Context {W poc : Type}.
Variable env : @Collaborators W poc.
Variable self : @Core poc.

Lemma verified_pocs_app (tr1 tr2 : list (@event poc)) :
  verified_pocs (tr1 ++ tr2) = verified_pocs tr1 ++ verified_pocs tr2.
Proof. apply flat_map_app. Qed.

Lemma not_vulnerable_records_app (tr1 tr2 : list (@event poc)) :
  not_vulnerable_records (tr1 ++ tr2)
  = not_vulnerable_records tr1 ++ not_vulnerable_records tr2.
Proof. apply flat_map_app. Qed.


Lemma record_finding_no_verify p results w :
  verified_pocs (snd (record_finding env self p results w)) = [].
Proof.
  destruct (record_finding env self p results w) as [[r w'] tr] eqn:H.
  apply record_finding_shape in H.
  destruct H as [(e & _ & ->) | [(e & _ & ->)
    | [(_ & _ & ->) | (c & _ & _ & ->)]]]; reflexivity.
Qed.

Lemma verify_loop_prefix ip port pocs : forall verified w,
  prefix_of
    (verified_pocs (snd (verify_loop env self ip port pocs verified w)))
    pocs.
Proof.
  induction pocs as [| p rest IH]; intros verified w; [now exists [] |].
  cbn [verify_loop]. unfold bind at 1, call_verify, perform.
  destruct (verify env p ip port w) as [[r0 | e] w1];
    [| exists rest; reflexivity].
  destruct (successful r0) as [results |].
  - unfold bind.
    pose proof (record_finding_no_verify p results w1) as Hrec.
    destruct (record_finding env self p results w1) as [[[[] | e] w2] trr];
      cbn [snd] in Hrec.
    + destruct (IH true w2) as [more Hmore].
      destruct (verify_loop env self ip port rest true w2) as [[r3 w3] tr3].
      cbn [snd] in *. exists more.
      rewrite !verified_pocs_app, Hrec. cbn. now rewrite Hmore.
    + cbn [snd]. exists rest. rewrite verified_pocs_app, Hrec. reflexivity.
  - destruct (IH verified w1) as [more Hmore].
    destruct (verify_loop env self ip port rest verified w1)
      as [[r3 w3] tr3].
    cbn [snd] in *. exists more.
    rewrite verified_pocs_app. cbn. now rewrite Hmore.
Qed.

(** Without a finding, and without a call of [verify] that raised, the
    loop over the PoCs runs to its end. *)
Lemma verify_loop_unanswered ip port pocs : forall verified w rv w' trv,
  verify_loop env self ip port pocs verified w = (rv, w', trv) ->
  findings trv = [] -> Forall verify_answered trv -> rv = Ok verified.
Proof.
  induction pocs as [| p rest IH]; intros verified w rv w' trv H Hf Ha.
  - cbn [verify_loop] in H. unfold ret in H. now inversion H.
  - cbn [verify_loop] in H. unfold call_verify in H. apply bind_inv in H.
    destruct H as [(e & H & ->) | (r0 & w1 & tr1 & tr2 & H & Hk & ->)];
      apply perform_inv in H as [_ ->].
    + inversion Ha as [| ? ? Hbad _]; subst. contradiction.
    + destruct (successful r0) as [results |] eqn:Hs.
      * apply successful_inv in Hs as (f & fields & -> & ->).
        discriminate Hf.
      * apply (IH _ _ _ _ _ Hk).
        -- destruct r0 as [[| f fields] |]; simpl in *;
             try discriminate; exact Hf.
        -- now inversion Ha.
Qed.

Lemma refusals_read ip port pocs (tr : list (@event poc)) :
  Forall2 (refusal ip port) pocs tr ->
  findings tr = [] /\ Forall verify_answered tr.
Proof.
  induction 1 as [| p ev pocs tr (r0 & -> & Hs) _ [IHf IHa]];
    [split; constructor |].
  split.
  - destruct r0 as [[| f fields] |]; simpl in *; try discriminate; exact IHf.
  - constructor; [exact I | exact IHa].
Qed.

Lemma verify_steps_quiet ip port pocs (tr : list (@event poc)) :
  Forall (verify_step ip port pocs) tr ->
  not_vulnerable_records tr = []
  /\ (forall tl, port_block (tr ++ tl) = tr ++ port_block tl)
  /\ (forall tl, fingerprinted (tr ++ tl) = fingerprinted tl).
Proof.
  induction 1 as [| ev tr Hev _ (IHn & IHb & IHf)]; [repeat split |].
  destruct ev; simpl in Hev; try contradiction;
    repeat split; intros; simpl; auto; now rewrite IHb.
Qed.

(** What the events after a fingerprint show is what the loop over the
    PoCs shows. *)
Lemma port_block_reads msg (trv tail : list (@event poc)) :
  tail = [] \/ (exists record c, tail = [AddNotVulnerable record c]) ->
  verified_pocs (LoggerInfo msg :: trv ++ tail) = verified_pocs trv
  /\ findings (LoggerInfo msg :: trv ++ tail) = findings trv
  /\ count is_add_found (LoggerInfo msg :: trv ++ tail)
     = count is_add_found trv
  /\ vulnerable_records (LoggerInfo msg :: trv ++ tail)
     = vulnerable_records trv
  /\ not_vulnerable_records (LoggerInfo msg :: trv ++ tail)
     = not_vulnerable_records trv ++ not_vulnerable_records tail
  /\ (Forall event_ok (LoggerInfo msg :: trv ++ tail) ->
      Forall event_ok trv)
  /\ (Forall verify_answered (LoggerInfo msg :: trv ++ tail)
      <-> Forall verify_answered trv).
Proof.
  intros Htail.
  change (LoggerInfo msg :: trv ++ tail)
    with ([@LoggerInfo poc msg] ++ trv ++ tail).
  rewrite !verified_pocs_app, !findings_app, !count_app,
    !vulnerable_records_app, !not_vulnerable_records_app.
  assert (Hquiet : verified_pocs tail = [] /\ findings tail = []
                   /\ count is_add_found tail = 0
                   /\ vulnerable_records tail = []
                   /\ Forall verify_answered tail)
    by (destruct Htail as [-> | (record & c & ->)];
        repeat split; repeat constructor).
  destruct Hquiet as (-> & -> & -> & -> & Hans).
  rewrite !app_nil_r. cbn [app]. rewrite Nat.add_0_r.
  repeat split; try reflexivity.
  - intros Hall. apply Forall_inv_tail in Hall.
    now apply Forall_app in Hall as [Hall _].
  - intros Hall. apply Forall_inv_tail in Hall.
    now apply Forall_app in Hall as [Hall _].
  - intros Hall. constructor; [exact I |]. apply Forall_app. now split.
Qed.

Lemma scan_port_law ip port w :
  (exists a rest,
      snd (scan_port env self ip port w)
      = PortScan ip port (timeout (config self)) a :: rest)
  /\ Forall (port_law self)
            (fingerprinted (snd (scan_port env self ip port w))).
Proof.
  destruct (scan_port env self ip port w) as [[r w'] tr] eqn:H.
  apply scan_port_shape in H. cbn [snd].
  destruct H as [(a & _ & ->) | [(f & Hf & ->)
    | (product & rv & wv & wv' & trv & tail & Hne & Hl & Htail & ->)]].
  - split; [eauto | constructor].
  - split; [eauto |].
    destruct f as [[[| c s] |] | e];
      [constructor | discriminate Hf | constructor | constructor].
  - split; [cbn [app]; eauto |].
    destruct product as [| c s]; [congruence |].
    set (pocs := poc_dict self (String c s)) in *.
    pose proof (verify_loop_steps env self ip port pocs false wv) as Hs.
    pose proof (verify_loop_prefix ip port pocs false wv) as Hpre.
    pose proof (verify_loop_sound env self ip port pocs false wv)
      as [_ Htal].
    rewrite Hl in Hs, Hpre, Htal. cbn [snd] in Hs, Hpre, Htal.
    destruct (verify_steps_quiet _ _ _ _ Hs) as (Hnv & Hblock & Hfp).
    assert (Htl : tail = []
                  \/ exists record c0, tail = [AddNotVulnerable record c0]).
    { destruct Htail as [(_ & ->) | (_ & c0 & ->)]; eauto. }
    assert (Hkeep : fingerprinted tail = [] /\ port_block tail = tail).
    { destruct Htail as [(_ & ->) | (_ & c0 & ->)]; split; reflexivity. }
    destruct Hkeep as [Hfpt Hbt].
    cbn [app fingerprinted port_block starts_next].
    rewrite Hfp, Hblock, Hfpt, Hbt. constructor; [| constructor].
    destruct (port_block_reads
                (ip ++ ":" ++ Py.str port ++ " is " ++ String c s)%string
                trv tail Htl)
      as (Ev & Ef & Ec & Er & En & Eok & Ea).
    unfold port_law. fold pocs. rewrite Ev, Ef, Ec, Er, En, Ea, Hnv.
    cbn [app].
    split; [exact Hpre |]. split.
    { intros Hall. apply Eok in Hall.
      destruct (verify_loop_clean env self _ _ _ _ _ _ _ _ Hl Hall)
        as (_ & Hv & _).
      destruct (Htal Hall) as (Hrec & Hfound & _).
      repeat split; assumption. }
    destruct Htail as [(Hrv & ->) | (Hrv & c0 & ->)].
    + split; [| now left]. split; [discriminate |].
      intros [Hfind Hans]. exfalso. apply Hrv.
      exact (verify_loop_unanswered _ _ _ _ _ _ _ _ Hl Hfind Hans).
    + split; [| now right]. split; [| reflexivity].
      intros _. subst rv.
      apply verify_loop_refused in Hl as [_ Hall].
      exact (refusals_read _ _ _ _ Hall).
Qed.

Lemma port_block_fresh (tr1 tr2 : list (@event poc)) :
  port_block tr2 = [] -> port_block (tr1 ++ tr2) = port_block tr1.
Proof.
  intros H. induction tr1 as [| ev tr1 IH]; [exact H |].
  simpl. destruct (starts_next ev); [reflexivity | now rewrite IH].
Qed.

Lemma fingerprinted_app (tr1 tr2 : list (@event poc)) :
  port_block tr2 = [] ->
  fingerprinted (tr1 ++ tr2) = fingerprinted tr1 ++ fingerprinted tr2.
Proof.
  intros H. induction tr1 as [| ev tr1 IH]; [reflexivity |].
  destruct ev; simpl; try exact IH.
  destruct r as [[[| c s] |] | e]; try exact IH.
  cbn [app]. now rewrite IH, (port_block_fresh _ _ H).
Qed.

Lemma scan_ports_law ip port_list : forall w,
  port_block (snd (for_each port_list (scan_port env self ip) w)) = []
  /\ Forall (port_law self)
            (fingerprinted
               (snd (for_each port_list (scan_port env self ip) w))).
Proof.
  induction port_list as [| port rest IH]; intros w;
    [split; [reflexivity | constructor] |].
  cbn [for_each]. unfold bind.
  destruct (scan_port_law ip port w) as [(a & more & Hhead) Hlaw].
  destruct (scan_port env self ip port w) as [[[[] | e] w1] tr1];
    cbn [snd] in Hhead, Hlaw.
  - destruct (IH w1) as [Hfresh Hrest].
    destruct (for_each rest (scan_port env self ip) w1) as [[r2 w2] tr2].
    cbn [snd] in *. split.
    + rewrite Hhead. reflexivity.
    + rewrite (fingerprinted_app _ _ Hfresh). apply Forall_app. now split.
  - cbn [snd]. split; [rewrite Hhead; reflexivity | exact Hlaw].
Qed.

Lemma scan_law target w :
  Forall (port_law self) (fingerprinted (snd (_scan env self target w))).
Proof.
  destruct (_scan env self target w) as [[r w'] tr] eqn:H.
  apply scan_structure in H. cbn [snd].
  destruct (scan_ports_law (target_ip target) (target_ports self target) w)
    as [_ Hlaw].
  destruct H as [(e & _ & H) | (w1 & tr1 & Hp & Htail)].
  - now rewrite H in Hlaw.
  - rewrite Hp in Hlaw. cbn [snd] in Hlaw.
    destruct Htail as [(e & _ & ->) | ->];
      rewrite fingerprinted_app by reflexivity;
      apply Forall_app; split; try exact Hlaw; constructor.
Qed.

Lemma fingerprinted_at (pre post : list (@event poc)) ip port c s :
  In (ip, port, String c s, port_block post)
     (fingerprinted
        (pre ++ Fingerprint ip port (Ok (Some (String c s))) :: post)).
Proof.
  induction pre as [| ev pre IH]; [now left |].
  destruct ev; simpl; auto.
  destruct r as [[[| c0 s0] |] | e]; auto. now right.
Qed.

(** The law of a fingerprinted port, read at the place of the
    fingerprint in the trace of [_scan]. *)
Lemma scan_law_at target w r w' tr pre ip port product post :
  _scan env self target w = (r, w', tr) ->
  tr = pre ++ Fingerprint ip port (Ok (Some product)) :: post ->
  product <> EmptyString ->
  port_law self (ip, port, product, port_block post).
Proof.
  intros H Htr Hne. destruct product as [| c s]; [congruence |].
  pose proof (scan_law target w) as Hlaw. rewrite H in Hlaw.
  cbn [snd] in Hlaw. rewrite Forall_forall in Hlaw. apply Hlaw.
  subst tr. apply fingerprinted_at.
Qed.

End PortLaw.




(** C6, as stated, fails: no PoC of the camera answers with a finding,
    the first refuses and the second raises; [_scan] raises with it and
    no negative record is written. *)
Lemma no_finding_and_no_negative_record :
  _scan (Demo.env Cases.refused_then_fails) (Demo.core FeedEnd)
        "10.0.0.1:80" None
  = (Raise (Exception "TimeoutError"), None,
     [PortScan "10.0.0.1" (Py.Str "80") 3 (Ok true);
      LoggerInfo "10.0.0.1 port 80 is open";
      Fingerprint "10.0.0.1" (Py.Str "80") (Ok (Some "camera-x"));
      LoggerInfo "10.0.0.1:80 is camera-x";
      Verify Demo.WeakPassword "10.0.0.1" (Py.Str "80") (Ok None);
      Verify Demo.AuthBypass "10.0.0.1" (Py.Str "80")
             (Raise (Exception "TimeoutError"))])
  /\ findings (Cases.scan_of Cases.refused_then_fails) = []
  /\ not_vulnerable_records (Cases.scan_of Cases.refused_then_fails) = [].
Proof. repeat split; reflexivity. Qed.

(** C6, amended: after every fingerprint of [_scan] that names a product,
    [add_not_vulnerable] is called, once and with
    [[ip, str(port), product]], if and only if no call of [verify] for
    that port answered with a finding and none of them raised; otherwise
    it is not called.  So a finding, and also a call of [verify] that
    raises, leaves the port without a negative record. *)
Theorem negative_record_iff_all_refused {W poc}
        (env : @Collaborators W poc) self target w r w' tr
        pre ip port product post :
  _scan env self target w = (r, w', tr) ->
  tr = pre ++ Fingerprint ip port (Ok (Some product)) :: post ->
  product <> EmptyString ->
  (not_vulnerable_records (port_block post) = [[ip; Py.str port; product]]
   <-> findings (port_block post) = []
       /\ Forall verify_answered (port_block post))
  /\ (not_vulnerable_records (port_block post) = []
      \/ not_vulnerable_records (port_block post)
         = [[ip; Py.str port; product]]).
Proof.
  intros H Htr Hne.
  destruct (scan_law_at env self target w r w' tr pre ip port product post
              H Htr Hne) as (_ & _ & Hiff & Hone).
  split; assumption.
Qed.

(** The witness of C6, amended: no PoC finds anything on the patched
    camera. *)
Lemma negative_record_iff_all_refused_witness :
  not_vulnerable_records
    (port_block (skipn 3 (Cases.scan_of Demo.patched_camera)))
  = [["10.0.0.1"; "80"; "camera-x"]].
Proof.
  destruct (negative_record_iff_all_refused
              (Demo.env Demo.patched_camera) (Demo.core FeedEnd)
              "10.0.0.1:80" None _ _ _
              (firstn 2 (Cases.scan_of Demo.patched_camera))
              "10.0.0.1" (Py.Str "80") "camera-x"
              (skipn 3 (Cases.scan_of Demo.patched_camera))
              eq_refl eq_refl) as ([_ Hif] & _).
  - discriminate.
  - apply Hif. split; [reflexivity | repeat constructor].
Defined.
